(** * FSDP per-parameter sharding: a shallow embedding of [_fsdp_param.py]

    The development models [torch/distributed/_composable/fsdp/_fsdp_param.py]:
    the [FSDPParam] class, its sharded-state machine, the storage
    allocate/free protocol and the all-gather extension hooks.

    Python objects live in an explicit heap: untyped storages (byte
    buffers that can be resized in place), tensor objects (views over a
    storage, with their own identity) and modules (a [_parameters]
    dictionary).  Methods are written in a state-and-exception monad in
    which the state survives a raised exception, as it does in Python. *)

From Stdlib Require Import Strings.Byte.
From stdpp Require Import gmap strings list fin_maps.


(** ** Plain data *)

Inductive dtype := float64 | float32 | float16 | bfloat16 | int8 | uint8.

Definition itemsize (d : dtype) : nat :=
  match d with
  | float64 => 8 | float32 => 4 | float16 => 2 | bfloat16 => 2
  | int8 => 1 | uint8 => 1
  end.

Global Instance dtype_eq_dec : EqDecision dtype.
Proof. solve_decision. Defined.

(** [dtype.is_floating_point]: only tensors of a floating point (or
    complex) dtype can require gradients. *)
Definition is_floating_point (d : dtype) : bool :=
  match d with
  | float64 | float32 | float16 | bfloat16 => true
  | int8 | uint8 => false
  end.

Record Device := { dev_type : string; dev_index : option nat }.

Global Instance Device_eq_dec : EqDecision Device.
Proof. solve_decision. Defined.

Inductive Placement := Replicate | Shard (dim : nat) | Partial.

Global Instance Placement_eq_dec : EqDecision Placement.
Proof. solve_decision. Defined.

(** A device mesh is opaque to this file; only its identity and
    [mesh.size()] are ever consulted. *)
Record DeviceMesh := { mesh_id : nat; mesh_numel : nat }.

Global Instance DeviceMesh_eq_dec : EqDecision DeviceMesh.
Proof. solve_decision. Defined.

Record DTensorSpec := { spec_mesh : DeviceMesh; placements : list Placement }.

(** [FSDPMeshInfo] of [_fsdp_common.py]; [is_hsdp] stands for
    [isinstance(mesh_info, HSDPMeshInfo)]. *)
Record FSDPMeshInfo := {
  mesh : DeviceMesh;
  shard_mesh_dim : option nat;
  replicate_mesh_dim : option nat;
  shard_mesh_size : nat;
  shard_mesh_rank : nat;
  is_hsdp : bool
}.

Inductive ShardedState := SHARDED | SHARDED_POST_FORWARD | UNSHARDED.

Global Instance ShardedState_eq_dec : EqDecision ShardedState.
Proof. solve_decision. Defined.

(** Modules and tensors are heap objects, referred to by identifier. *)
Record ParamModuleInfo := {
  module : nat;
  param_name : string;
  shared_modules : list nat;
  shared_param_names : list string
}.

(** User-defined metadata handed from the pre- to the post-all-gather hook. *)
Definition Metadata := nat.

Record ExtensionsData := {
  all_gather_metadata : option Metadata;
  all_gather_input_sizes : list (list nat)
}.

(** [ExtensionsData.clear] *)
Definition clear (_ : ExtensionsData) : ExtensionsData :=
  {| all_gather_metadata := None; all_gather_input_sizes := [] |}.

(** ** Exceptions *)

Inductive AssertMsg :=
| DeviceMismatch (expected got : Device)
| ParentMeshMismatch
| BothHooksRequired
| ExpectsStates (expected : list ShardedState) (actual : ShardedState)
| NotDivisible (numel world : nat)
| ExpectsSize (expected got : list nat)
| AssertFailed (condition : string).

Inductive Exn :=
| AssertionError (msg : AssertMsg)
| NotImplementedError (msg : string)
| AttributeError (attr : string)
| IndexError
| ZeroDivisionError
| TypeError
| RuntimeError (msg : string).

(** ** The heap *)

(** A tensor: a strided view over an untyped storage.  Tensors that are
    not parameters are never mutated as objects (only their storage is),
    so they are plain values that name their storage.  [t_has_pre] and
    [t_has_post] record whether the tensor's class defines
    [fsdp_pre_all_gather] / [fsdp_post_all_gather]. *)
Record Tensor := {
  t_storage : nat;
  t_offset : nat;
  t_size : list nat;
  t_stride : list nat;
  t_dtype : dtype;
  t_device : Device;
  t_has_pre : bool;
  t_has_post : bool
}.

(** A [DTensor] wraps a local tensor with its placement on a mesh. *)
Record DTensor := {
  _local_tensor : Tensor;
  _spec : DTensorSpec;
  dt_size : list nat;
  dt_stride : list nat
}.

Inductive TensorLike := Plain (t : Tensor) | Dist (d : DTensor).

(** An [nn.Parameter] object.  Parameters have identity: modules are bound
    to them and [requires_grad] is assigned in place. *)
Record nn_Parameter := {
  data : TensorLike;
  requires_grad : bool
}.

(** [custom_setattr] is true when the module's class overrides
    [__setattr__]. *)
Record Module := {
  custom_setattr : bool;
  _parameters : gmap string nat
}.

Record Heap := {
  storages : gmap nat (list byte);
  parameters : gmap nat nn_Parameter;
  modules : gmap nat Module;
  next_id : nat
}.

(** Observable actions, recorded in order.  The log is ghost state: it
    lets a statement tell an assignment of an unchanged value from no
    assignment at all. *)
Inductive Event :=
| EvResize (storage nbytes : nat)
| EvRequiresGrad (param : nat) (flag : bool)
| EvSetParameters (m : nat) (name : string) (param : nat)
| EvSetattr (m : nat) (name : string) (param : nat)
| EvNewStorage (storage nbytes : nat)
| EvParameter (param : nat) (value : TensorLike)
| EvPreAllGather (inner : Tensor) (on_mesh : DeviceMesh)
| EvPostAllGather (inner : Tensor) (outputs : list Tensor)
    (metadata : option Metadata) (param_dtype : dtype) (out : option nat).

Record Env := { heap : Heap; log : list Event }.

(** ** State and exception monad *)

Definition M (S A : Type) : Type := S → (Exn + A) * S.

Global Instance M_ret {S} : MRet (M S) := λ A a s, (inr a, s).
Global Instance M_bind {S} : MBind (M S) := λ A B f m s,
  match m s with
  | (inl e, s') => (inl e, s')
  | (inr a, s') => f a s'
  end.

Definition raise {S A} (e : Exn) : M S A := λ s, (inl e, s).
Definition get {S} : M S S := λ s, (inr s, s).
Definition gets {S A} (f : S → A) : M S A := λ s, (inr (f s), s).
Definition modify {S} (f : S → S) : M S unit := λ s, (inr tt, f s).

(** Python's [for x in xs: body]. *)
Fixpoint for_each {S A} (xs : list A) (body : A → M S unit) : M S unit :=
  match xs with
  | [] => mret tt
  | x :: rest => body x ;; for_each rest body
  end.

(** A list comprehension whose element expression has effects. *)
Fixpoint map_m {S A B} (f : A → M S B) (xs : list A) : M S (list B) :=
  match xs with
  | [] => mret []
  | x :: rest => y ← f x; ys ← map_m f rest; mret (y :: ys)
  end.

Definition lift_heap {A} (m : M Heap A) : M Env A := λ e,
  let '(r, h) := m (heap e) in (r, {| heap := h; log := log e |}).

Definition emit (ev : Event) : M Env unit :=
  modify (λ e, {| heap := heap e; log := log e ++ [ev] |}).

Definition modify_heap (f : Heap → Heap) : M Env unit :=
  modify (λ e, {| heap := f (heap e); log := log e |}).

(** Python's [assert cond]. *)
Definition assert {S} (cond : bool) (what : string) : M S unit :=
  if cond then mret tt else raise (AssertionError (AssertFailed what)).

(** ** Storages *)

Definition storage_bytes (h : Heap) (s : nat) : list byte :=
  default [] (storages h !! s).

(** [storage.size()], in bytes. *)
Definition storage_size (h : Heap) (s : nat) : nat := length (storage_bytes h s).

Definition set_storage (s : nat) (bytes : list byte) (h : Heap) : Heap :=
  {| storages := <[s := bytes]> (storages h); parameters := parameters h;
     modules := modules h; next_id := next_id h |}.

(** A fresh object identifier. *)
Definition fresh : M Env nat := λ e,
  let h := heap e in
  (inr (next_id h),
   {| heap := {| storages := storages h; parameters := parameters h;
                 modules := modules h; next_id := S (next_id h) |};
      log := log e |}).

(** A new storage of [nbytes] bytes.  Freshly allocated memory is
    uninitialised in PyTorch; the model fills it with zero bytes. *)
Definition new_storage (nbytes : nat) : M Env nat :=
  s ← fresh;
  modify_heap (set_storage s (replicate nbytes x00)) ;;
  emit (EvNewStorage s nbytes) ;;
  mret s.

(** [storage.resize_(nbytes)]: the storage keeps its identity; bytes that
    remain are kept, new ones are zero. *)
Definition resize_ (s nbytes : nat) : M Env unit :=
  modify_heap (λ h, set_storage s (resize nbytes x00 (storage_bytes h s)) h) ;;
  emit (EvResize s nbytes).

(** ** Tensor views *)

Definition numel (size : list nat) : nat := foldr Nat.mul 1 size.

(** [torch._prims_common.make_contiguous_strides_for] *)
Fixpoint make_contiguous_strides_for (shape : list nat) : list nat :=
  match shape with
  | [] => []
  | _ :: rest => numel (Nat.max 1 <$> rest) :: make_contiguous_strides_for rest
  end.

(** [tensor.is_contiguous()]: dimensions of size 1 are ignored, and an
    empty tensor is contiguous. *)
Fixpoint contiguous_from (size stride : list nat) : option nat :=
  match size, stride with
  | [], [] => Some 1
  | n :: size', st :: stride' =>
      expected ← contiguous_from size' stride';
      if decide (n = 1) then Some expected
      else if decide (st = expected) then Some (n * expected) else None
  | _, _ => None
  end.

Definition is_contiguous (t : Tensor) : bool :=
  bool_decide (numel (t_size t) = 0) ||
  bool_decide (is_Some (contiguous_from (t_size t) (t_stride t))).

(** All index tuples of a shape, in row-major order. *)
Fixpoint indices (size : list nat) : list (list nat) :=
  match size with
  | [] => [[]]
  | n :: rest => i ← seq 0 n; (cons i) <$> indices rest
  end.

Definition elem_offset (t : Tensor) (idx : list nat) : nat :=
  t_offset t + sum_list (zip_with Nat.mul idx (t_stride t)).

(** One element of [isz] bytes at element position [pos].  A read outside
    the storage has no defined value in PyTorch; it reads as zero here. *)
Definition read_elem (bytes : list byte) (isz pos : nat) : list byte :=
  resize isz x00 (drop (pos * isz) bytes).

Definition write_elem (isz pos : nat) (v : list byte) (bytes : list byte)
  : list byte :=
  if decide ((pos + 1) * isz ≤ length bytes)
  then take (pos * isz) bytes ++ resize isz x00 v ++ drop ((pos + 1) * isz) bytes
  else bytes.

(** The elements of a tensor, in logical (row-major) order, as stored. *)
Definition tensor_elems (h : Heap) (t : Tensor) : list (list byte) :=
  (λ idx, read_elem (storage_bytes h (t_storage t)) (itemsize (t_dtype t))
            (elem_offset t idx)) <$> indices (t_size t).

Definition with_view (t : Tensor) (offset : nat) (size stride : list nat) : Tensor :=
  {| t_storage := t_storage t; t_offset := offset; t_size := size;
     t_stride := stride; t_dtype := t_dtype t; t_device := t_device t;
     t_has_pre := t_has_pre t; t_has_post := t_has_post t |}.

Definition on_storage (t : Tensor) (s : nat) (size : list nat) : Tensor :=
  {| t_storage := s; t_offset := 0; t_size := size;
     t_stride := make_contiguous_strides_for size; t_dtype := t_dtype t;
     t_device := t_device t;
     t_has_pre := t_has_pre t; t_has_post := t_has_post t |}.

(** [t.new_zeros(size)] and [t.new_empty(size)]: a contiguous tensor of the
    same class, dtype and device on a storage of its own. *)
Definition new_zeros (t : Tensor) (size : list nat) : M Env Tensor :=
  s ← new_storage (numel size * itemsize (t_dtype t));
  mret (on_storage t s size).

Definition new_empty (t : Tensor) (size : list nat) : M Env Tensor :=
  new_zeros t size.

(** [torch.empty(size, dtype=dtype, device=device)] *)
Definition torch_empty (size : list nat) (d : dtype) (dev : Device) : M Env Tensor :=
  s ← new_storage (numel size * itemsize d);
  mret {| t_storage := s; t_offset := 0; t_size := size;
          t_stride := make_contiguous_strides_for size; t_dtype := d;
          t_device := dev; t_has_pre := false; t_has_post := false |}.

(** [t[:k]] *)
Definition slice0 {S} (t : Tensor) (k : nat) : M S Tensor :=
  match t_size t with
  | [] => raise IndexError
  | n :: rest => mret (with_view t (t_offset t) (Nat.min k n :: rest) (t_stride t))
  end.

(** The number of elements a view reaches into its storage. *)
Definition extent (offset : nat) (size stride : list nat) : nat :=
  if decide (numel size = 0) then 0
  else offset + sum_list (zip_with (λ n st, (n - 1) * st) size stride) + 1.

(** [t.narrow(0, start, length)]: after the check of the range, the view
    is made by [slice], which, like [as_strided], refuses a view that
    reaches beyond the storage. *)
Definition narrow0 (t : Tensor) (start len : nat) : M Env Tensor :=
  match t_size t, t_stride t with
  | n :: rest, st :: _ =>
      if decide (start + len ≤ n) then
        h ← gets heap;
        let offset := t_offset t + start * st in
        if decide (extent offset (len :: rest) (t_stride t) * itemsize (t_dtype t)
                   ≤ storage_size h (t_storage t))
        then mret (with_view t offset (len :: rest) (t_stride t))
        else raise (RuntimeError "sizes and strides are out of bounds for storage")
      else raise (RuntimeError "start + length exceeds dimension size")
  | _, _ => raise (RuntimeError "narrow() cannot be applied to a 0-dim tensor")
  end.

(** [torch.as_strided(t, size, stride, storage_offset=0)] *)
Definition as_strided (t : Tensor) (size stride : list nat) : M Env Tensor :=
  h ← gets heap;
  if decide (length size = length stride) then
    if decide (extent 0 size stride * itemsize (t_dtype t)
               ≤ storage_size h (t_storage t))
    then mret (with_view t 0 size stride)
    else raise (RuntimeError "sizes and strides are out of bounds for storage")
  else raise (RuntimeError "mismatch in length of strides and shape").

(** The strides of a view.  [Tensor.view] never copies: it goes through
    the dimensions of the tensor from the last to the first, collects
    those that lie in memory as one contiguous run (dimensions of size 1
    fit every run) into a chunk, and lets the dimensions of the new shape,
    also from the last to the first, divide each chunk among them.
    [view_chunk] gives new dimensions to a chunk of [tensor_numel]
    elements whose elements are [base] apart: [rview] are the new
    dimensions that are left, last first, [view_numel] the elements
    covered so far, [acc] the strides found so far. *)
Fixpoint view_chunk (rview : list nat) (tensor_numel base view_numel : nat)
    (acc : list nat) : list nat * nat * list nat :=
  match rview with
  | v :: rest =>
      if decide (view_numel < tensor_numel ∨ v = 1)
      then view_chunk rest tensor_numel base (view_numel * v)
             (view_numel * base :: acc)
      else (rview, view_numel, acc)
  | [] => ([], view_numel, acc)
  end.

(** [rold] are the (size, stride) pairs of the tensor's dimensions that
    are left, last first; [tensor_numel] is the number of elements of the
    current chunk before the dimension at the head is added to it. *)
Fixpoint compute_stride_from (rold : list (nat * nat)) (rview : list nat)
    (base tensor_numel : nat) (acc : list nat) : option (list nat) :=
  match rold with
  | [] => None
  | (n, _) :: rest =>
      let tensor_numel := tensor_numel * n in
      let end_of_chunk :=
        match rest with
        | [] => true
        | (n', st') :: _ => bool_decide (n' ≠ 1 ∧ st' ≠ tensor_numel * base)
        end in
      if end_of_chunk then
        let '(rview', view_numel, acc') :=
          view_chunk rview tensor_numel base 1 acc in
        if decide (view_numel = tensor_numel) then
          match rest with
          | [] => match rview' with [] => Some acc' | _ :: _ => None end
          | (_, st') :: _ => compute_stride_from rest rview' st' 1 acc'
          end
        else None
      else compute_stride_from rest rview base tensor_numel acc
  end.

(** [at::detail::computeStride]: the strides with which a tensor of shape
    [oldshape] and strides [oldstride] is viewed with the shape
    [newshape], which has as many elements; [None] when there are no such
    strides.  The strides of a tensor without elements are arbitrary:
    they are kept when the shape is, and are those of a contiguous tensor
    otherwise. *)
Definition compute_stride (oldshape oldstride newshape : list nat)
  : option (list nat) :=
  if decide (oldshape = []) then Some (replicate (length newshape) 1)
  else if decide (numel oldshape = 0) then
    if decide (oldshape = newshape) then Some oldstride
    else Some (make_contiguous_strides_for newshape)
  else compute_stride_from (reverse (zip oldshape oldstride)) (reverse newshape)
         (default 0 (last oldstride)) 1 [].

(** The shape [(-1, *trailing)] for a tensor of [n] elements. *)
Definition infer_size {S} (n : nat) (trailing : list nat) : M S (list nat) :=
  let p := numel trailing in
  if bool_decide (n = p) || bool_decide (0 < p ∧ n `mod` p = 0) then
    if decide (p = 0)
    then raise (RuntimeError "cannot reshape tensor of 0 elements: the unspecified dimension size -1 can be any value and is ambiguous")
    else mret (n `div` p :: trailing)
  else raise (RuntimeError "shape is invalid for input size").

(** [t.view(-1)] and [t.view(-1, *trailing)] *)
Definition view_infer {S} (t : Tensor) (trailing : list nat) : M S Tensor :=
  size ← infer_size (numel (t_size t)) trailing;
  match compute_stride (t_size t) (t_stride t) size with
  | Some stride => mret (with_view t (t_offset t) size stride)
  | None =>
      raise (RuntimeError "view size is not compatible with input tensor's size and stride")
  end.

Definition view_flat {S} (t : Tensor) : M S Tensor := view_infer t [].

(** [dst.copy_(src)] for tensors of one shape: element by element. *)
Definition copy_ (dst src : Tensor) : M Env unit :=
  if decide (t_size dst = t_size src) then
    h ← gets heap;
    let isz := itemsize (t_dtype dst) in
    let writes := zip (indices (t_size dst)) (tensor_elems h src) in
    modify_heap (λ h,
      set_storage (t_storage dst)
        (foldl (λ bytes '(idx, v), write_elem isz (elem_offset dst idx) v bytes)
               (storage_bytes h (t_storage dst)) writes) h)
  else raise (RuntimeError "The size of tensor a must match the size of tensor b").

(** [t.clone()]: the elements are copied to a storage of their own. *)
Definition clone (t : Tensor) : M Env Tensor :=
  h ← gets heap;
  s ← fresh;
  modify_heap (set_storage s (concat (tensor_elems h t))) ;;
  emit (EvNewStorage s (numel (t_size t) * itemsize (t_dtype t))) ;;
  mret (on_storage t s (t_size t)).

(** Python's [xs[i]]. *)
Definition index {S A} (xs : list A) (i : nat) : M S A :=
  match xs !! i with
  | Some x => mret x
  | None => raise IndexError
  end.

(** Python's [xs[i] = v]. *)
Definition list_assign {S A} (xs : list A) (i : nat) (v : A) : M S (list A) :=
  if decide (i < length xs) then mret (<[i := v]> xs) else raise IndexError.

(** [t.size(0)] *)
Definition size0 {S} (t : Tensor) : M S nat := index (t_size t) 0.

(** ** Parameters and modules *)

Definition set_parameter (p : nat) (x : nn_Parameter) (h : Heap) : Heap :=
  {| storages := storages h; parameters := <[p := x]> (parameters h);
     modules := modules h; next_id := next_id h |}.

Definition deref (p : nat) : M Env nn_Parameter :=
  h ← gets heap;
  match parameters h !! p with
  | Some x => mret x
  | None => raise (RuntimeError "invalid object reference")
  end.

(** [x.dtype], of the local tensor for a [DTensor] *)
Definition tl_dtype (x : TensorLike) : dtype :=
  match x with Plain t => t_dtype t | Dist d => t_dtype (_local_tensor d) end.

(** [nn.Parameter(x)]: a new object over the same data.  [requires_grad]
    defaults to [True], which only a tensor of a floating point dtype
    can take. *)
Definition Parameter_new (x : TensorLike) : M Env nat :=
  if is_floating_point (tl_dtype x) then
    p ← fresh;
    modify_heap (set_parameter p {| data := x; requires_grad := true |}) ;;
    emit (EvParameter p x) ;;
    mret p
  else raise (RuntimeError "Only Tensors of floating point and complex dtype can require gradients").

(** [p.requires_grad_(flag)] *)
Definition requires_grad_ (p : nat) (flag : bool) : M Env unit :=
  x ← deref p;
  if flag && negb (is_floating_point (tl_dtype (data x)))
  then raise (RuntimeError "only Tensors of floating point dtype can require gradients")
  else
    modify_heap (set_parameter p {| data := data x; requires_grad := flag |}) ;;
    emit (EvRequiresGrad p flag).

Definition get_module (h : Heap) (m : nat) : Module :=
  default {| custom_setattr := false; _parameters := ∅ |} (modules h !! m).

Definition bind_parameter (m : nat) (name : string) (p : nat) (h : Heap) : Heap :=
  let md := get_module h m in
  {| storages := storages h; parameters := parameters h;
     modules := <[m := {| custom_setattr := custom_setattr md;
                          _parameters := <[name := p]> (_parameters md) |}]>
                  (modules h);
     next_id := next_id h |}.

(** [getattr(module, name)] for a registered parameter. *)
Definition bound_parameter (h : Heap) (m : nat) (name : string) : option nat :=
  _parameters (get_module h m) !! name.

(** [unsafe_setattr_param]: the fast path writes [module._parameters]
    directly; the slow path goes through [setattr], where
    [nn.Module.__setattr__] registers the parameter under the same name. *)
Definition unsafe_setattr_param (m : nat) (name : string) (p : nat) : M Env unit :=
  h ← gets heap;
  if custom_setattr (get_module h m)
  then emit (EvSetattr m name p) ;; modify_heap (bind_parameter m name p)
  else emit (EvSetParameters m name p) ;; modify_heap (bind_parameter m name p).

(** [set_requires_grad_if_needed] *)
Definition set_requires_grad_if_needed (src dst : nat) : M Env unit :=
  s ← deref src;
  d ← deref dst;
  if bool_decide (requires_grad s ≠ requires_grad d)
  then requires_grad_ dst (requires_grad s)
  else mret tt.

(** [alloc_storage] and [free_storage] *)
Definition alloc_storage (t : Tensor) : M Env unit :=
  let size := numel (t_size t) * itemsize (t_dtype t) in
  h ← gets heap;
  if bool_decide (storage_size h (t_storage t) ≠ size)
  then resize_ (t_storage t) size
  else mret tt.

Definition free_storage (t : Tensor) : M Env unit :=
  h ← gets heap;
  if bool_decide (storage_size h (t_storage t) ≠ 0)
  then resize_ (t_storage t) 0
  else mret tt.

(** ** The chunk partitioner *)

(** Modelled from the spec: [torch.chunk] along dimension 0, which
    [_chunk_with_empty] calls, is not part of the source.  The partitioner
    "computes equal-sized padded chunks along dimension 0, handling the
    case where the dimension is not evenly divisible (last chunk is empty
    or partial)", with 10 rows over 3 shards giving 4, 4 and 2 real rows:
    chunks of [ceil(n / chunks)] rows are cut from the front until the
    rows run out, and an empty dimension still gives [chunks] chunks. *)
Definition chunk_rows (n chunks : nat) : list nat :=
  let split_size := (n + chunks - 1) `div` chunks in
  if decide (split_size = 0) then replicate chunks 0
  else (λ i, Nat.min split_size (n - i * split_size))
         <$> seq 0 ((n + split_size - 1) `div` split_size).

Definition torch_chunk {S} (t : Tensor) (chunks : nat) : M S (list Tensor) :=
  match t_size t, t_stride t with
  | n :: rest, st :: _ =>
      if decide (chunks = 0)
      then raise (RuntimeError "chunk expects `chunks` to be greater than 0")
      else
        let split_size := (n + chunks - 1) `div` chunks in
        mret (imap (λ i rows,
                      with_view t (t_offset t + i * split_size * st)
                        (rows :: rest) (t_stride t))
                   (chunk_rows n chunks))
  | _, _ => raise (RuntimeError "chunk expects at least a 1-dimensional tensor")
  end.

(** Modelled from the spec: [_chunk_with_empty] of [_fsdp_common.py] is
    not part of the source.  It "degenerates to empty shard for ranks
    beyond dim0": the list of chunks is filled up to [num_chunks] with
    empty one-dimensional tensors made from the first chunk. *)
Definition _chunk_with_empty (t : Tensor) (num_chunks : nat) : M Env (list Tensor) :=
  chunks ← torch_chunk t num_chunks;
  if decide (length chunks < num_chunks) then
    c0 ← index chunks 0;
    empties ← map_m (λ _, new_empty c0 [0]) (seq 0 (num_chunks - length chunks));
    mret (chunks ++ empties)
  else mret chunks.

(** Modelled from the spec: [_get_dim0_chunked_size] of [_fsdp_common.py]
    is not part of the source.  The shape of a shard is the chunk's own
    shape, and an empty chunk keeps the trailing dimensions of the full
    tensor, with dimension 0 of size 0. *)
Definition _get_dim0_chunked_size (chunk : Tensor) (unchunked_size : list nat)
  : list nat :=
  if decide (0 < numel (t_size chunk)) then t_size chunk
  else 0 :: drop 1 unchunked_size.

(** Modelled from the spec: [_raise_assert_with_print] of
    [_fsdp_common.py] is not part of the source.  A violation "terminates
    the current operation immediately with a descriptive message": it
    raises [AssertionError] with the message. *)
Definition _raise_assert_with_print {S A} (msg : AssertMsg) : M S A :=
  raise (AssertionError msg).

(** Modelled from the spec: [_from_local_no_grad] of [_fsdp_common.py] is
    not part of the source.  It wraps a local tensor "in a
    distributed-layout descriptor" with the given mesh, placements and
    global shape and stride. *)
Definition _from_local_no_grad (local_tensor : Tensor) (on_mesh : DeviceMesh)
    (pl : list Placement) (global_size global_stride : list nat) : DTensor :=
  {| _local_tensor := local_tensor;
     _spec := {| spec_mesh := on_mesh; placements := pl |};
     dt_size := global_size; dt_stride := global_stride |}.

(** ** The parameter entity *)

(** [MixedPrecisionPolicy] of [_fsdp_api.py] *)
Record MixedPrecisionPolicy := {
  policy_param_dtype : option dtype;
  policy_reduce_dtype : option dtype
}.

(** The attributes of an [FSDPParam].  An attribute that may be unassigned
    is an [option]: [None] is "no such attribute" (or Python's [None] for
    the post-forward replica, which is only read when assigned). *)
Record FSDPParam := {
  _module_info : ParamModuleInfo;
  mesh_info : FSDPMeshInfo;
  post_forward_mesh_info : option FSDPMeshInfo;
  device : Device;
  is_dtensor : bool;
  _tp_spec : option DTensorSpec;
  _global_mesh : DeviceMesh;
  _global_placements : list Placement;
  _global_size : list nat;
  _global_stride : list nat;
  _orig_size : list nat;
  sharded_size : list nat;
  contiguous_sharded_stride : list nat;
  padded_sharded_param_size : list nat;
  _sharded_param_data : Tensor;
  sharded_param : nat;
  sharded_post_forward_size : option (list nat);
  contiguous_sharded_post_forward_stride : option (list nat);
  sharded_state : ShardedState;
  _extensions_data : option ExtensionsData;
  _unsharded_inner_tensors : list Tensor;
  all_gather_outputs : list Tensor;
  _param_fqn : option string;
  orig_dtype : option dtype;
  param_dtype : option (option dtype);
  reduce_dtype : option (option dtype);
  _unsharded_param : option nat;
  _sharded_post_forward_param_data : option Tensor;
  _sharded_post_forward_param : option nat
}.

(** Attribute assignment, one function per attribute that a method assigns. *)
Definition set_sharded_post_forward_size (v : option (list nat)) (p : FSDPParam) : FSDPParam :=
  {| _module_info := _module_info p; mesh_info := mesh_info p;
     post_forward_mesh_info := post_forward_mesh_info p; device := device p;
     is_dtensor := is_dtensor p; _tp_spec := _tp_spec p;
     _global_mesh := _global_mesh p;
     _global_placements := _global_placements p;
     _global_size := _global_size p; _global_stride := _global_stride p;
     _orig_size := _orig_size p; sharded_size := sharded_size p;
     contiguous_sharded_stride := contiguous_sharded_stride p;
     padded_sharded_param_size := padded_sharded_param_size p;
     _sharded_param_data := _sharded_param_data p;
     sharded_param := sharded_param p; sharded_post_forward_size := v;
     contiguous_sharded_post_forward_stride := contiguous_sharded_post_forward_stride p;
     sharded_state := sharded_state p;
     _extensions_data := _extensions_data p;
     _unsharded_inner_tensors := _unsharded_inner_tensors p;
     all_gather_outputs := all_gather_outputs p; _param_fqn := _param_fqn p;
     orig_dtype := orig_dtype p; param_dtype := param_dtype p;
     reduce_dtype := reduce_dtype p; _unsharded_param := _unsharded_param p;
     _sharded_post_forward_param_data := _sharded_post_forward_param_data p;
     _sharded_post_forward_param := _sharded_post_forward_param p |}.

Definition set_contiguous_sharded_post_forward_stride (v : option (list nat)) (p : FSDPParam) : FSDPParam :=
  {| _module_info := _module_info p; mesh_info := mesh_info p;
     post_forward_mesh_info := post_forward_mesh_info p; device := device p;
     is_dtensor := is_dtensor p; _tp_spec := _tp_spec p;
     _global_mesh := _global_mesh p;
     _global_placements := _global_placements p;
     _global_size := _global_size p; _global_stride := _global_stride p;
     _orig_size := _orig_size p; sharded_size := sharded_size p;
     contiguous_sharded_stride := contiguous_sharded_stride p;
     padded_sharded_param_size := padded_sharded_param_size p;
     _sharded_param_data := _sharded_param_data p;
     sharded_param := sharded_param p;
     sharded_post_forward_size := sharded_post_forward_size p;
     contiguous_sharded_post_forward_stride := v;
     sharded_state := sharded_state p;
     _extensions_data := _extensions_data p;
     _unsharded_inner_tensors := _unsharded_inner_tensors p;
     all_gather_outputs := all_gather_outputs p; _param_fqn := _param_fqn p;
     orig_dtype := orig_dtype p; param_dtype := param_dtype p;
     reduce_dtype := reduce_dtype p; _unsharded_param := _unsharded_param p;
     _sharded_post_forward_param_data := _sharded_post_forward_param_data p;
     _sharded_post_forward_param := _sharded_post_forward_param p |}.

Definition set_sharded_state (v : ShardedState) (p : FSDPParam) : FSDPParam :=
  {| _module_info := _module_info p; mesh_info := mesh_info p;
     post_forward_mesh_info := post_forward_mesh_info p; device := device p;
     is_dtensor := is_dtensor p; _tp_spec := _tp_spec p;
     _global_mesh := _global_mesh p;
     _global_placements := _global_placements p;
     _global_size := _global_size p; _global_stride := _global_stride p;
     _orig_size := _orig_size p; sharded_size := sharded_size p;
     contiguous_sharded_stride := contiguous_sharded_stride p;
     padded_sharded_param_size := padded_sharded_param_size p;
     _sharded_param_data := _sharded_param_data p;
     sharded_param := sharded_param p;
     sharded_post_forward_size := sharded_post_forward_size p;
     contiguous_sharded_post_forward_stride := contiguous_sharded_post_forward_stride p;
     sharded_state := v; _extensions_data := _extensions_data p;
     _unsharded_inner_tensors := _unsharded_inner_tensors p;
     all_gather_outputs := all_gather_outputs p; _param_fqn := _param_fqn p;
     orig_dtype := orig_dtype p; param_dtype := param_dtype p;
     reduce_dtype := reduce_dtype p; _unsharded_param := _unsharded_param p;
     _sharded_post_forward_param_data := _sharded_post_forward_param_data p;
     _sharded_post_forward_param := _sharded_post_forward_param p |}.

Definition set_extensions_data (v : option ExtensionsData) (p : FSDPParam) : FSDPParam :=
  {| _module_info := _module_info p; mesh_info := mesh_info p;
     post_forward_mesh_info := post_forward_mesh_info p; device := device p;
     is_dtensor := is_dtensor p; _tp_spec := _tp_spec p;
     _global_mesh := _global_mesh p;
     _global_placements := _global_placements p;
     _global_size := _global_size p; _global_stride := _global_stride p;
     _orig_size := _orig_size p; sharded_size := sharded_size p;
     contiguous_sharded_stride := contiguous_sharded_stride p;
     padded_sharded_param_size := padded_sharded_param_size p;
     _sharded_param_data := _sharded_param_data p;
     sharded_param := sharded_param p;
     sharded_post_forward_size := sharded_post_forward_size p;
     contiguous_sharded_post_forward_stride := contiguous_sharded_post_forward_stride p;
     sharded_state := sharded_state p; _extensions_data := v;
     _unsharded_inner_tensors := _unsharded_inner_tensors p;
     all_gather_outputs := all_gather_outputs p; _param_fqn := _param_fqn p;
     orig_dtype := orig_dtype p; param_dtype := param_dtype p;
     reduce_dtype := reduce_dtype p; _unsharded_param := _unsharded_param p;
     _sharded_post_forward_param_data := _sharded_post_forward_param_data p;
     _sharded_post_forward_param := _sharded_post_forward_param p |}.

Definition set_unsharded_inner_tensors (v : list Tensor) (p : FSDPParam) : FSDPParam :=
  {| _module_info := _module_info p; mesh_info := mesh_info p;
     post_forward_mesh_info := post_forward_mesh_info p; device := device p;
     is_dtensor := is_dtensor p; _tp_spec := _tp_spec p;
     _global_mesh := _global_mesh p;
     _global_placements := _global_placements p;
     _global_size := _global_size p; _global_stride := _global_stride p;
     _orig_size := _orig_size p; sharded_size := sharded_size p;
     contiguous_sharded_stride := contiguous_sharded_stride p;
     padded_sharded_param_size := padded_sharded_param_size p;
     _sharded_param_data := _sharded_param_data p;
     sharded_param := sharded_param p;
     sharded_post_forward_size := sharded_post_forward_size p;
     contiguous_sharded_post_forward_stride := contiguous_sharded_post_forward_stride p;
     sharded_state := sharded_state p;
     _extensions_data := _extensions_data p; _unsharded_inner_tensors := v;
     all_gather_outputs := all_gather_outputs p; _param_fqn := _param_fqn p;
     orig_dtype := orig_dtype p; param_dtype := param_dtype p;
     reduce_dtype := reduce_dtype p; _unsharded_param := _unsharded_param p;
     _sharded_post_forward_param_data := _sharded_post_forward_param_data p;
     _sharded_post_forward_param := _sharded_post_forward_param p |}.

Definition set_all_gather_outputs (v : list Tensor) (p : FSDPParam) : FSDPParam :=
  {| _module_info := _module_info p; mesh_info := mesh_info p;
     post_forward_mesh_info := post_forward_mesh_info p; device := device p;
     is_dtensor := is_dtensor p; _tp_spec := _tp_spec p;
     _global_mesh := _global_mesh p;
     _global_placements := _global_placements p;
     _global_size := _global_size p; _global_stride := _global_stride p;
     _orig_size := _orig_size p; sharded_size := sharded_size p;
     contiguous_sharded_stride := contiguous_sharded_stride p;
     padded_sharded_param_size := padded_sharded_param_size p;
     _sharded_param_data := _sharded_param_data p;
     sharded_param := sharded_param p;
     sharded_post_forward_size := sharded_post_forward_size p;
     contiguous_sharded_post_forward_stride := contiguous_sharded_post_forward_stride p;
     sharded_state := sharded_state p;
     _extensions_data := _extensions_data p;
     _unsharded_inner_tensors := _unsharded_inner_tensors p;
     all_gather_outputs := v; _param_fqn := _param_fqn p;
     orig_dtype := orig_dtype p; param_dtype := param_dtype p;
     reduce_dtype := reduce_dtype p; _unsharded_param := _unsharded_param p;
     _sharded_post_forward_param_data := _sharded_post_forward_param_data p;
     _sharded_post_forward_param := _sharded_post_forward_param p |}.

Definition set_param_fqn (v : option string) (p : FSDPParam) : FSDPParam :=
  {| _module_info := _module_info p; mesh_info := mesh_info p;
     post_forward_mesh_info := post_forward_mesh_info p; device := device p;
     is_dtensor := is_dtensor p; _tp_spec := _tp_spec p;
     _global_mesh := _global_mesh p;
     _global_placements := _global_placements p;
     _global_size := _global_size p; _global_stride := _global_stride p;
     _orig_size := _orig_size p; sharded_size := sharded_size p;
     contiguous_sharded_stride := contiguous_sharded_stride p;
     padded_sharded_param_size := padded_sharded_param_size p;
     _sharded_param_data := _sharded_param_data p;
     sharded_param := sharded_param p;
     sharded_post_forward_size := sharded_post_forward_size p;
     contiguous_sharded_post_forward_stride := contiguous_sharded_post_forward_stride p;
     sharded_state := sharded_state p;
     _extensions_data := _extensions_data p;
     _unsharded_inner_tensors := _unsharded_inner_tensors p;
     all_gather_outputs := all_gather_outputs p; _param_fqn := v;
     orig_dtype := orig_dtype p; param_dtype := param_dtype p;
     reduce_dtype := reduce_dtype p; _unsharded_param := _unsharded_param p;
     _sharded_post_forward_param_data := _sharded_post_forward_param_data p;
     _sharded_post_forward_param := _sharded_post_forward_param p |}.

Definition set_orig_dtype (v : option dtype) (p : FSDPParam) : FSDPParam :=
  {| _module_info := _module_info p; mesh_info := mesh_info p;
     post_forward_mesh_info := post_forward_mesh_info p; device := device p;
     is_dtensor := is_dtensor p; _tp_spec := _tp_spec p;
     _global_mesh := _global_mesh p;
     _global_placements := _global_placements p;
     _global_size := _global_size p; _global_stride := _global_stride p;
     _orig_size := _orig_size p; sharded_size := sharded_size p;
     contiguous_sharded_stride := contiguous_sharded_stride p;
     padded_sharded_param_size := padded_sharded_param_size p;
     _sharded_param_data := _sharded_param_data p;
     sharded_param := sharded_param p;
     sharded_post_forward_size := sharded_post_forward_size p;
     contiguous_sharded_post_forward_stride := contiguous_sharded_post_forward_stride p;
     sharded_state := sharded_state p;
     _extensions_data := _extensions_data p;
     _unsharded_inner_tensors := _unsharded_inner_tensors p;
     all_gather_outputs := all_gather_outputs p; _param_fqn := _param_fqn p;
     orig_dtype := v; param_dtype := param_dtype p;
     reduce_dtype := reduce_dtype p; _unsharded_param := _unsharded_param p;
     _sharded_post_forward_param_data := _sharded_post_forward_param_data p;
     _sharded_post_forward_param := _sharded_post_forward_param p |}.

Definition set_param_dtype (v : option (option dtype)) (p : FSDPParam) : FSDPParam :=
  {| _module_info := _module_info p; mesh_info := mesh_info p;
     post_forward_mesh_info := post_forward_mesh_info p; device := device p;
     is_dtensor := is_dtensor p; _tp_spec := _tp_spec p;
     _global_mesh := _global_mesh p;
     _global_placements := _global_placements p;
     _global_size := _global_size p; _global_stride := _global_stride p;
     _orig_size := _orig_size p; sharded_size := sharded_size p;
     contiguous_sharded_stride := contiguous_sharded_stride p;
     padded_sharded_param_size := padded_sharded_param_size p;
     _sharded_param_data := _sharded_param_data p;
     sharded_param := sharded_param p;
     sharded_post_forward_size := sharded_post_forward_size p;
     contiguous_sharded_post_forward_stride := contiguous_sharded_post_forward_stride p;
     sharded_state := sharded_state p;
     _extensions_data := _extensions_data p;
     _unsharded_inner_tensors := _unsharded_inner_tensors p;
     all_gather_outputs := all_gather_outputs p; _param_fqn := _param_fqn p;
     orig_dtype := orig_dtype p; param_dtype := v;
     reduce_dtype := reduce_dtype p; _unsharded_param := _unsharded_param p;
     _sharded_post_forward_param_data := _sharded_post_forward_param_data p;
     _sharded_post_forward_param := _sharded_post_forward_param p |}.

Definition set_reduce_dtype (v : option (option dtype)) (p : FSDPParam) : FSDPParam :=
  {| _module_info := _module_info p; mesh_info := mesh_info p;
     post_forward_mesh_info := post_forward_mesh_info p; device := device p;
     is_dtensor := is_dtensor p; _tp_spec := _tp_spec p;
     _global_mesh := _global_mesh p;
     _global_placements := _global_placements p;
     _global_size := _global_size p; _global_stride := _global_stride p;
     _orig_size := _orig_size p; sharded_size := sharded_size p;
     contiguous_sharded_stride := contiguous_sharded_stride p;
     padded_sharded_param_size := padded_sharded_param_size p;
     _sharded_param_data := _sharded_param_data p;
     sharded_param := sharded_param p;
     sharded_post_forward_size := sharded_post_forward_size p;
     contiguous_sharded_post_forward_stride := contiguous_sharded_post_forward_stride p;
     sharded_state := sharded_state p;
     _extensions_data := _extensions_data p;
     _unsharded_inner_tensors := _unsharded_inner_tensors p;
     all_gather_outputs := all_gather_outputs p; _param_fqn := _param_fqn p;
     orig_dtype := orig_dtype p; param_dtype := param_dtype p;
     reduce_dtype := v; _unsharded_param := _unsharded_param p;
     _sharded_post_forward_param_data := _sharded_post_forward_param_data p;
     _sharded_post_forward_param := _sharded_post_forward_param p |}.

Definition set_unsharded_param (v : option nat) (p : FSDPParam) : FSDPParam :=
  {| _module_info := _module_info p; mesh_info := mesh_info p;
     post_forward_mesh_info := post_forward_mesh_info p; device := device p;
     is_dtensor := is_dtensor p; _tp_spec := _tp_spec p;
     _global_mesh := _global_mesh p;
     _global_placements := _global_placements p;
     _global_size := _global_size p; _global_stride := _global_stride p;
     _orig_size := _orig_size p; sharded_size := sharded_size p;
     contiguous_sharded_stride := contiguous_sharded_stride p;
     padded_sharded_param_size := padded_sharded_param_size p;
     _sharded_param_data := _sharded_param_data p;
     sharded_param := sharded_param p;
     sharded_post_forward_size := sharded_post_forward_size p;
     contiguous_sharded_post_forward_stride := contiguous_sharded_post_forward_stride p;
     sharded_state := sharded_state p;
     _extensions_data := _extensions_data p;
     _unsharded_inner_tensors := _unsharded_inner_tensors p;
     all_gather_outputs := all_gather_outputs p; _param_fqn := _param_fqn p;
     orig_dtype := orig_dtype p; param_dtype := param_dtype p;
     reduce_dtype := reduce_dtype p; _unsharded_param := v;
     _sharded_post_forward_param_data := _sharded_post_forward_param_data p;
     _sharded_post_forward_param := _sharded_post_forward_param p |}.

Definition set_sharded_post_forward_param_data (v : option Tensor) (p : FSDPParam) : FSDPParam :=
  {| _module_info := _module_info p; mesh_info := mesh_info p;
     post_forward_mesh_info := post_forward_mesh_info p; device := device p;
     is_dtensor := is_dtensor p; _tp_spec := _tp_spec p;
     _global_mesh := _global_mesh p;
     _global_placements := _global_placements p;
     _global_size := _global_size p; _global_stride := _global_stride p;
     _orig_size := _orig_size p; sharded_size := sharded_size p;
     contiguous_sharded_stride := contiguous_sharded_stride p;
     padded_sharded_param_size := padded_sharded_param_size p;
     _sharded_param_data := _sharded_param_data p;
     sharded_param := sharded_param p;
     sharded_post_forward_size := sharded_post_forward_size p;
     contiguous_sharded_post_forward_stride := contiguous_sharded_post_forward_stride p;
     sharded_state := sharded_state p;
     _extensions_data := _extensions_data p;
     _unsharded_inner_tensors := _unsharded_inner_tensors p;
     all_gather_outputs := all_gather_outputs p; _param_fqn := _param_fqn p;
     orig_dtype := orig_dtype p; param_dtype := param_dtype p;
     reduce_dtype := reduce_dtype p; _unsharded_param := _unsharded_param p;
     _sharded_post_forward_param_data := v;
     _sharded_post_forward_param := _sharded_post_forward_param p |}.

Definition set_sharded_post_forward_param (v : option nat) (p : FSDPParam) : FSDPParam :=
  {| _module_info := _module_info p; mesh_info := mesh_info p;
     post_forward_mesh_info := post_forward_mesh_info p; device := device p;
     is_dtensor := is_dtensor p; _tp_spec := _tp_spec p;
     _global_mesh := _global_mesh p;
     _global_placements := _global_placements p;
     _global_size := _global_size p; _global_stride := _global_stride p;
     _orig_size := _orig_size p; sharded_size := sharded_size p;
     contiguous_sharded_stride := contiguous_sharded_stride p;
     padded_sharded_param_size := padded_sharded_param_size p;
     _sharded_param_data := _sharded_param_data p;
     sharded_param := sharded_param p;
     sharded_post_forward_size := sharded_post_forward_size p;
     contiguous_sharded_post_forward_stride := contiguous_sharded_post_forward_stride p;
     sharded_state := sharded_state p;
     _extensions_data := _extensions_data p;
     _unsharded_inner_tensors := _unsharded_inner_tensors p;
     all_gather_outputs := all_gather_outputs p; _param_fqn := _param_fqn p;
     orig_dtype := orig_dtype p; param_dtype := param_dtype p;
     reduce_dtype := reduce_dtype p; _unsharded_param := _unsharded_param p;
     _sharded_post_forward_param_data := _sharded_post_forward_param_data p;
     _sharded_post_forward_param := v |}.


Record World := { self : FSDPParam; env : Env }.

Definition lift_env {A} (m : M Env A) : M World A := λ w,
  let '(r, e) := m (env w) in (r, {| self := self w; env := e |}).

Definition set_self (f : FSDPParam → FSDPParam) : M World unit :=
  modify (λ w, {| self := f (self w); env := env w |}).

(** Reading an attribute that may be unassigned. *)
Definition getattr {S A} (name : string) (o : option A) : M S A :=
  match o with
  | Some x => mret x
  | None => raise (AttributeError name)
  end.

(** ** What the file takes from its collaborators *)

(** The all-gather extension hooks of the parameter's tensor class, the
    mesh resolver [_mesh_resources] and the element-wise dtype conversion
    kernel.  The hooks are user code: they may read and write the heap,
    and may raise.  [fsdp_post_all_gather] is given [out] on every call
    after the first, and its return value is then ignored. *)
Class Externals := {
  fsdp_pre_all_gather :
    Tensor → DeviceMesh → M Heap (list Tensor * option Metadata);
  fsdp_post_all_gather :
    Tensor → list Tensor → option Metadata → dtype → option nat →
    M Heap (option (Tensor * list Tensor));
  get_parent_mesh : DeviceMesh → option DeviceMesh;
  get_parent_mesh_dim : DeviceMesh → option nat;
  cast_elem : dtype → dtype → list byte → list byte
}.

Section FSDP.
Context `{Externals}.

Definition call_pre_all_gather (inner : Tensor) (on_mesh : DeviceMesh)
  : M Env (list Tensor * option Metadata) :=
  emit (EvPreAllGather inner on_mesh) ;;
  lift_heap (fsdp_pre_all_gather inner on_mesh).

Definition call_post_all_gather (inner : Tensor) (outputs : list Tensor)
    (metadata : option Metadata) (d : dtype) (out : option nat)
  : M Env (option (Tensor * list Tensor)) :=
  emit (EvPostAllGather inner outputs metadata d out) ;;
  lift_heap (fsdp_post_all_gather inner outputs metadata d out).

(** Modelled from the spec: [_to_dtype_if_needed] of [_fsdp_common.py] is
    not part of the source.  It is the "generic cast if needed" operation:
    with [None] there is no cast and the tensor itself is returned, as it
    is when it already has the dtype; otherwise the elements are converted
    into a new tensor. *)
Definition _to_dtype_if_needed (t : Tensor) (d : option dtype) : M Env Tensor :=
  match d with
  | Some d =>
      if decide (t_dtype t = d) then mret t
      else
        h ← gets heap;
        s ← fresh;
        modify_heap
          (set_storage s (concat (cast_elem (t_dtype t) d <$> tensor_elems h t))) ;;
        emit (EvNewStorage s (numel (t_size t) * itemsize d)) ;;
        mret {| t_storage := s; t_offset := 0; t_size := t_size t;
                t_stride := make_contiguous_strides_for (t_size t);
                t_dtype := d; t_device := t_device t;
                t_has_pre := t_has_pre t; t_has_post := t_has_post t |}
  | None => mret t
  end.

(** ** Construction *)

(** [param.device], [param.size()], [param.stride()] *)
Definition tl_device (x : TensorLike) : Device :=
  match x with Plain t => t_device t | Dist d => t_device (_local_tensor d) end.

Definition tl_size (x : TensorLike) : list nat :=
  match x with Plain t => t_size t | Dist d => dt_size d end.

Definition tl_stride (x : TensorLike) : list nat :=
  match x with Plain t => t_stride t | Dist d => dt_stride d end.

(** [_setattr_on_modules] *)
Definition _setattr_on_modules (info : ParamModuleInfo) (param : nat) : M Env unit :=
  unsafe_setattr_param (module info) (param_name info) param ;;
  for_each (zip (shared_modules info) (shared_param_names info))
    (λ '(shared_module, shared_param_name),
       unsafe_setattr_param shared_module shared_param_name param).

(** [to_sharded_dtensor], on the attributes of [self] that it reads. *)
Definition to_sharded_dtensor {S} (sharded_size : list nat)
    (global_mesh : DeviceMesh) (global_placements : list Placement)
    (global_size global_stride : list nat) (tensor : Tensor) : M S DTensor :=
  (if bool_decide (t_size tensor ≠ sharded_size)
   then _raise_assert_with_print (ExpectsSize sharded_size (t_size tensor))
   else mret tt) ;;
  mret (_from_local_no_grad tensor global_mesh global_placements
          global_size global_stride).

(** The DTensor branch of [_init_sharded_param]: the global mesh and the
    two-dimensional placements of a parameter that is already sharded by
    tensor parallelism. *)
Definition dtensor_placements (info : FSDPMeshInfo) (tp_spec : DTensorSpec)
  : M Env (DeviceMesh * list Placement) :=
  (if bool_decide (shard_mesh_dim info ≠ Some 0)
      || bool_decide (replicate_mesh_dim info ≠ None)
   then raise (NotImplementedError "Using TP with HSDP is not supported")
   else mret tt) ;;
  let dp_mesh := mesh info in
  let tp_mesh := spec_mesh tp_spec in
  let dp_global_mesh := get_parent_mesh dp_mesh in
  let tp_global_mesh := get_parent_mesh tp_mesh in
  match dp_global_mesh, tp_global_mesh with
  | Some global_mesh, Some tp_global =>
      if decide (global_mesh = tp_global) then
        (if bool_decide (length (placements tp_spec) ≠ 1)
         then raise (NotImplementedError "FSDP only supports 1D TP")
         else mret tt) ;;
        let global_placements := [Replicate; Replicate] in
        global_dp_mesh_dim ←
          match get_parent_mesh_dim dp_mesh with
          | Some d => mret d
          | None => raise (AssertionError (AssertFailed "global_dp_mesh_dim is not None"))
          end;
        global_tp_mesh_dim ←
          match get_parent_mesh_dim tp_mesh with
          | Some d => mret d
          | None => raise (AssertionError (AssertFailed "global_tp_mesh_dim is not None"))
          end;
        global_placements ← list_assign global_placements global_dp_mesh_dim (Shard 0);
        tp_placement ← index (placements tp_spec) 0;
        global_placements ← list_assign global_placements global_tp_mesh_dim tp_placement;
        mret (global_mesh, global_placements)
      else raise (AssertionError ParentMeshMismatch)
  | _, _ => raise (AssertionError ParentMeshMismatch)
  end.

(** [_init_sharded_param].  The attributes that [__init__] assigns later
    ([all_gather_outputs], [_unsharded_inner_tensors], [_param_fqn]) are
    not read before then; they start at the value [__init__] gives them. *)
Definition _init_sharded_param (module_info : ParamModuleInfo)
    (info : FSDPMeshInfo) (post_forward_info : option FSDPMeshInfo)
    (param : nn_Parameter) (dev : Device) : M Env FSDPParam :=
  (if bool_decide (tl_device (data param) ≠ dev)
      && bool_decide (dev_type (tl_device (data param)) ≠ "meta")
   then raise (AssertionError (DeviceMismatch dev (tl_device (data param))))
   else mret tt) ;;
  '(tp_spec, global_mesh, global_placements, param_data) ←
    match data param with
    | Dist d =>
        '(global_mesh, global_placements) ← dtensor_placements info (_spec d);
        mret (Some (_spec d), global_mesh, global_placements, _local_tensor d)
    | Plain t =>
        mret (None, mesh info,
              if is_hsdp info then [Replicate; Shard 0] else [Shard 0], t)
    end;
  let global_size := tl_size (data param) in
  let global_stride := tl_stride (data param) in
  let shard_rank := shard_mesh_rank info in
  let shard_world_size := shard_mesh_size info in
  chunks ← _chunk_with_empty param_data shard_world_size;
  sharded_param ← index chunks shard_rank;
  let sharded_size := _get_dim0_chunked_size sharded_param (t_size param_data) in
  chunk0 ← index chunks 0;
  let padded_sharded_size := t_size chunk0 in
  padded_sharded_param ← new_zeros param_data padded_sharded_size;
  (if decide (0 < numel (t_size sharded_param)) then
     rows ← size0 sharded_param;
     dst ← slice0 padded_sharded_param rows;
     copy_ dst sharded_param
   else mret tt) ;;
  sharded_param_data ← view_flat padded_sharded_param;
  rows ← size0 sharded_param;
  local_tensor ← slice0 padded_sharded_param rows;
  dtensor ← to_sharded_dtensor sharded_size global_mesh global_placements
              global_size global_stride local_tensor;
  p ← Parameter_new (Dist dtensor);
  requires_grad_ p (requires_grad param) ;;
  _setattr_on_modules module_info p ;;
  mret {| _module_info := module_info; mesh_info := info;
          post_forward_mesh_info := post_forward_info; device := dev;
          is_dtensor := bool_decide (is_Some tp_spec); _tp_spec := tp_spec;
          _global_mesh := global_mesh; _global_placements := global_placements;
          _global_size := global_size; _global_stride := global_stride;
          _orig_size := t_size param_data; sharded_size := sharded_size;
          contiguous_sharded_stride := make_contiguous_strides_for sharded_size;
          padded_sharded_param_size := t_size padded_sharded_param;
          _sharded_param_data := sharded_param_data; sharded_param := p;
          sharded_post_forward_size := None;
          contiguous_sharded_post_forward_stride := None;
          sharded_state := SHARDED; _extensions_data := None;
          _unsharded_inner_tensors := []; all_gather_outputs := [];
          _param_fqn := None; orig_dtype := None; param_dtype := None;
          reduce_dtype := None; _unsharded_param := None;
          _sharded_post_forward_param_data := None;
          _sharded_post_forward_param := None |}.

(** The [_sharded_local_tensor] property. *)
Definition _sharded_local_tensor (s : FSDPParam) : M Env Tensor :=
  p ← deref (sharded_param s);
  match data p with
  | Dist d => mret (_local_tensor d)
  | Plain _ => raise (AttributeError "_local_tensor")
  end.

(** [_init_sharded_post_forward_param_metadata] *)
Definition _init_sharded_post_forward_param_metadata (s : FSDPParam)
    (param : nn_Parameter) : M Env FSDPParam :=
  info ← match post_forward_mesh_info s with
            | Some info => mret info
            | None => raise (AssertionError (AssertFailed "mesh_info is not None"))
            end;
  let param_data :=
    match data param with Dist d => _local_tensor d | Plain t => t end in
  chunks ← _chunk_with_empty param_data (shard_mesh_size info);
  chunk ← index chunks (shard_mesh_rank info);
  let size := _get_dim0_chunked_size chunk (t_size param_data) in
  mret (set_contiguous_sharded_post_forward_stride
          (Some (make_contiguous_strides_for size))
          (set_sharded_post_forward_size (Some size) s)).

(** [_init_extensions] *)
Definition _init_extensions (s : FSDPParam) : M Env FSDPParam :=
  inner_tensor ← _sharded_local_tensor s;
  let has_fsdp_pre_all_gather := t_has_pre inner_tensor in
  let has_fsdp_post_all_gather := t_has_post inner_tensor in
  (if bool_decide (has_fsdp_pre_all_gather ≠ has_fsdp_post_all_gather)
   then raise (AssertionError BothHooksRequired)
   else mret tt) ;;
  s ← (if has_fsdp_pre_all_gather then
         local_tensor ← _sharded_local_tensor s;
         (if bool_decide (padded_sharded_param_size s ≠ t_size local_tensor)
          then raise (NotImplementedError
                 "FSDP all-gather extensions require even sharding on dim-0.")
          else mret tt) ;;
         mret (set_extensions_data
                 (Some {| all_gather_metadata := None;
                          all_gather_input_sizes := [] |}) s)
       else mret s);
  mret (set_unsharded_inner_tensors [] s).

(** [FSDPParam.__init__].  The mixed-precision policy is only recorded by
    [init_dtype_attrs], which the caller runs afterwards. *)
Definition __init__ (param : nn_Parameter) (module_info : ParamModuleInfo)
    (info : FSDPMeshInfo) (post_forward_info : option FSDPMeshInfo)
    (dev : Device) (mp_policy : MixedPrecisionPolicy) : M Env FSDPParam :=
  s ← _init_sharded_param module_info info post_forward_info param dev;
  s ← match post_forward_mesh_info s with
      | Some _ => _init_sharded_post_forward_param_metadata s param
      | None => mret s
      end;
  s ← _init_extensions s;
  mret (set_param_fqn None (set_all_gather_outputs [] s)).

(** ** Methods *)

Definition set_state (st : ShardedState) : M World unit :=
  set_self (set_sharded_state st).

(** [_assert_in_states] *)
Definition _assert_in_states (states : list ShardedState) : M World unit :=
  s ← gets self;
  if bool_decide (sharded_state s ∉ states)
  then _raise_assert_with_print (ExpectsStates states (sharded_state s))
  else mret tt.

(** [init_dtype_attrs] *)
Definition init_dtype_attrs (mp_policy : MixedPrecisionPolicy) : M World unit :=
  s ← gets self;
  p ← lift_env (deref (sharded_param s));
  let orig := tl_dtype (data p) in
  set_self (set_orig_dtype (Some orig)) ;;
  let param_dtype :=
    if decide (policy_param_dtype mp_policy = Some orig) then None
    else policy_param_dtype mp_policy in
  set_self (set_param_dtype (Some param_dtype)) ;;
  set_self (set_reduce_dtype (Some (policy_reduce_dtype mp_policy))).

(** [init_all_gather_outputs] *)
Definition init_all_gather_outputs (all_gather_input_numels : list nat)
    (all_gather_input_dtypes : list dtype) (world_size : nat) (dev : Device)
  : M World unit :=
  s ← gets self;
  if bool_decide (all_gather_outputs s ≠ []) then mret tt
  else
    outputs ← lift_env
      (map_m (λ '(n, d), torch_empty [n * world_size] d dev)
             (zip all_gather_input_numels all_gather_input_dtypes));
    set_self (set_all_gather_outputs outputs).

(** [_unflatten_all_gather_outputs] *)
Definition _unflatten_all_gather_outputs : M World (list Tensor) :=
  s ← gets self;
  ext ← getattr "_extensions_data" (_extensions_data s);
  map_m (λ '(t, sz), view_infer t (drop 1 sz))
        (zip (all_gather_outputs s) (all_gather_input_sizes ext)).

(** [self.param_dtype or self.orig_dtype] *)
Definition param_dtype_or_orig : M World dtype :=
  s ← gets self;
  pd ← getattr "param_dtype" (param_dtype s);
  match pd with
  | Some d => mret d
  | None => getattr "orig_dtype" (orig_dtype s)
  end.

(** [self._extensions_data.clear()] *)
Definition clear_extensions_data : M World unit :=
  s ← gets self;
  ext ← getattr "_extensions_data" (_extensions_data s);
  set_self (set_extensions_data (Some (clear ext))).

(** [free_unsharded_param] and [alloc_all_gather_outputs] *)
Definition free_unsharded_param : M World unit :=
  s ← gets self;
  lift_env (for_each (all_gather_outputs s ++ _unsharded_inner_tensors s)
              free_storage).

Definition alloc_all_gather_outputs : M World unit :=
  s ← gets self;
  lift_env (for_each (all_gather_outputs s) alloc_storage).

(** [init_unsharded_param] *)
Definition init_unsharded_param : M World unit :=
  s ← gets self;
  match _unsharded_param s with
  | Some unsharded =>
      inner_tensor ← lift_env (_sharded_local_tensor s);
      if negb (t_has_post inner_tensor) then mret tt
      else
        lift_env (for_each (_unsharded_inner_tensors s) alloc_storage) ;;
        outputs ← _unflatten_all_gather_outputs;
        ext ← getattr "_extensions_data" (_extensions_data s);
        d ← param_dtype_or_orig;
        lift_env (call_post_all_gather inner_tensor outputs
                    (all_gather_metadata ext) d (Some unsharded)) ;;
        clear_extensions_data
  | None =>
      inner_tensor ← lift_env (_sharded_local_tensor s);
      unsharded_tensor ←
        (if t_has_post inner_tensor then
           outputs ← _unflatten_all_gather_outputs;
           ext ← getattr "_extensions_data" (_extensions_data s);
           d ← param_dtype_or_orig;
           r ← lift_env (call_post_all_gather inner_tensor outputs
                           (all_gather_metadata ext) d None);
           match r with
           | Some (unsharded_tensor, inner_tensors) =>
               set_self (set_unsharded_inner_tensors inner_tensors) ;;
               clear_extensions_data ;;
               mret unsharded_tensor
           | None => raise TypeError
           end
         else
           assert (bool_decide (length (all_gather_outputs s) = 1))
             "len(self.all_gather_outputs) == 1" ;;
           index (all_gather_outputs s) 0);
      unsharded_param ← lift_env
        (as_strided unsharded_tensor (_orig_size s)
           (make_contiguous_strides_for (_orig_size s)));
      value ← (if is_dtensor s then
                 tp_spec ← getattr "_tp_spec" (_tp_spec s);
                 mret (Dist (_from_local_no_grad unsharded_param
                               (spec_mesh tp_spec) (placements tp_spec)
                               (_global_size s) (_global_stride s)))
               else mret (Plain unsharded_param));
      p ← lift_env (Parameter_new value);
      set_self (set_unsharded_param (Some p)) ;;
      sharded ← lift_env (deref (sharded_param s));
      lift_env (requires_grad_ p (requires_grad sharded))
  end.

(** [to_sharded_post_forward_dtensor] *)
Definition to_sharded_post_forward_dtensor (tensor : Tensor) : M World DTensor :=
  s ← gets self;
  size ← getattr "sharded_post_forward_size" (sharded_post_forward_size s);
  (if bool_decide (t_size tensor ≠ size)
   then _raise_assert_with_print (ExpectsSize size (t_size tensor))
   else mret tt) ;;
  match post_forward_mesh_info s with
  | Some info =>
      assert (is_hsdp info)
        "isinstance(self.post_forward_mesh_info, HSDPMeshInfo)" ;;
      mret (_from_local_no_grad tensor (mesh info) [Replicate; Shard 0]
              (_global_size s) (_global_stride s))
  | None =>
      raise (AssertionError
               (AssertFailed "isinstance(self.post_forward_mesh_info, HSDPMeshInfo)"))
  end.

(** [to_sharded] *)
Definition to_sharded : M World unit :=
  s ← gets self;
  lift_env (_setattr_on_modules (_module_info s) (sharded_param s)) ;;
  free_unsharded_param ;;
  set_state SHARDED.

(** [to_sharded_post_forward] *)
Definition to_sharded_post_forward : M World unit :=
  s ← gets self;
  (if is_dtensor s
   then raise (NotImplementedError
                 "Resharding to smaller mesh with TP is not supported yet")
   else mret tt) ;;
  _assert_in_states [UNSHARDED] ;;
  info ← match post_forward_mesh_info s with
            | Some info => mret info
            | None => raise (AssertionError
                               (AssertFailed "self.post_forward_mesh_info is not None"))
            end;
  assert (bool_decide (length (all_gather_outputs s) = 1))
    "len(self.all_gather_outputs) == 1" ;;
  let shard_world_size := shard_mesh_size info in
  output ← index (all_gather_outputs s) 0;
  let n := numel (t_size output) in
  (if decide (shard_world_size = 0) then raise ZeroDivisionError else mret tt) ;;
  (if bool_decide (n `mod` shard_world_size ≠ 0)
   then _raise_assert_with_print (NotDivisible n shard_world_size)
   else mret tt) ;;
  let shard_rank := shard_mesh_rank info in
  let sharded_numel := n `div` shard_world_size in
  slice ← lift_env (narrow0 output (sharded_numel * shard_rank) sharded_numel);
  replica ← lift_env (clone slice);
  set_self (set_sharded_post_forward_param_data (Some replica)) ;;
  size ← getattr "sharded_post_forward_size" (sharded_post_forward_size s);
  stride ← getattr "contiguous_sharded_post_forward_stride"
             (contiguous_sharded_post_forward_stride s);
  sharded_post_forward_tensor ← lift_env (as_strided replica size stride);
  dtensor ← to_sharded_post_forward_dtensor sharded_post_forward_tensor;
  p ← lift_env (Parameter_new (Dist dtensor));
  set_self (set_sharded_post_forward_param (Some p)) ;;
  lift_env (_setattr_on_modules (_module_info s) p) ;;
  free_unsharded_param ;;
  set_state SHARDED_POST_FORWARD.

(** [to_unsharded] *)
Definition to_unsharded : M World unit :=
  s ← gets self;
  unsharded ← getattr "_unsharded_param" (_unsharded_param s);
  lift_env (set_requires_grad_if_needed (sharded_param s) unsharded) ;;
  lift_env (_setattr_on_modules (_module_info s) unsharded) ;;
  (if decide (sharded_state s = SHARDED_POST_FORWARD) then
     set_self (set_sharded_post_forward_param None) ;;
     set_self (set_sharded_post_forward_param_data None)
   else mret tt) ;;
  set_state UNSHARDED.

(** The [all_gather_inputs] property. *)
Definition all_gather_inputs : M World (list Tensor) :=
  _assert_in_states [SHARDED; SHARDED_POST_FORWARD] ;;
  s ← gets self;
  match sharded_state s with
  | SHARDED =>
      inner_tensor ← lift_env (_sharded_local_tensor s);
      if t_has_pre inner_tensor then
        '(inputs, metadata) ←
          lift_env (call_pre_all_gather inner_tensor (mesh (mesh_info s)));
        ext ← getattr "_extensions_data" (_extensions_data s);
        set_self (set_extensions_data
                    (Some {| all_gather_metadata := metadata;
                             all_gather_input_sizes := t_size <$> inputs |})) ;;
        map_m view_flat inputs
      else
        pd ← getattr "param_dtype" (param_dtype s);
        t ← lift_env (_to_dtype_if_needed (_sharded_param_data s) pd);
        mret [t]
  | SHARDED_POST_FORWARD =>
      inner_tensor ← lift_env (_sharded_local_tensor s);
      if t_has_pre inner_tensor then raise (NotImplementedError "")
      else
        replica ← getattr "_sharded_post_forward_param_data"
                    (_sharded_post_forward_param_data s);
        pd ← getattr "param_dtype" (param_dtype s);
        all_gather_input ← lift_env (_to_dtype_if_needed replica pd);
        mret [all_gather_input]
  | UNSHARDED =>
      t ← lift_env (torch_empty [0] float32
                      {| dev_type := "cpu"; dev_index := None |});
      mret [t]
  end.

(** The [unsharded_param] property. *)
Definition unsharded_param : M World nat :=
  _assert_in_states [UNSHARDED] ;;
  s ← gets self;
  getattr "_unsharded_param" (_unsharded_param s).

End FSDP.

(** ** Driving the state machine *)

(** The calls a scheduler makes on a constructed parameter.  Between two
    calls the communication collaborator may act on the heap (the
    all-gather fills the output buffers). *)
Inductive Call :=
| call_init_dtype_attrs (mp_policy : MixedPrecisionPolicy)
| call_init_all_gather_outputs (numels : list nat) (dtypes : list dtype)
    (world_size : nat) (dev : Device)
| call_init_unsharded_param
| call_alloc_all_gather_outputs
| call_free_unsharded_param
| call_to_sharded
| call_to_sharded_post_forward
| call_to_unsharded
| call_all_gather_inputs
| call_unsharded_param
| call_collaborator (act : M Heap unit).

Definition ignore_result {S A} (m : M S A) : M S unit := m ;; mret tt.

Definition run_call `{Externals} (c : Call) : M World unit :=
  match c with
  | call_init_dtype_attrs mp_policy => init_dtype_attrs mp_policy
  | call_init_all_gather_outputs numels dtypes world_size dev =>
      init_all_gather_outputs numels dtypes world_size dev
  | call_init_unsharded_param => init_unsharded_param
  | call_alloc_all_gather_outputs => alloc_all_gather_outputs
  | call_free_unsharded_param => free_unsharded_param
  | call_to_sharded => to_sharded
  | call_to_sharded_post_forward => to_sharded_post_forward
  | call_to_unsharded => to_unsharded
  | call_all_gather_inputs => ignore_result all_gather_inputs
  | call_unsharded_param => ignore_result unsharded_param
  | call_collaborator act => lift_env (lift_heap act)
  end.

(** A caller may catch an exception and go on: every call runs on the
    world the previous one left. *)
Definition run_calls `{Externals} (cs : list Call) (w : World) : World :=
  foldl (λ w c, (run_call c w).2) w cs.

(** The outcomes of the calls, in order. *)
Fixpoint outcomes `{Externals} (cs : list Call) (w : World) : list (Exn + unit) :=
  match cs with
  | [] => []
  | c :: rest => (run_call c w).1 :: outcomes rest (run_call c w).2
  end.

(** ** Vocabulary for the statements *)

(** [view.requires_grad_(shard.requires_grad)] is refused: the flag is
    set on the shard and not on the view, and the view is of an integer
    dtype. *)
Definition flag_refused (shard view : nn_Parameter) : bool :=
  requires_grad shard && negb (requires_grad view)
  && negb (is_floating_point (tl_dtype (data view))).

(** The (module, name) pairs under which the parameter is exposed. *)
Definition bindings (info : ParamModuleInfo) : list (nat * string) :=
  (module info, param_name info)
  :: zip (shared_modules info) (shared_param_names info).

Definition binding_event (h : Heap) (p : nat) (b : nat * string) : Event :=
  if custom_setattr (get_module h b.1)
  then EvSetattr b.1 b.2 p else EvSetParameters b.1 b.2 p.

Definition bind_all (bs : list (nat * string)) (p : nat) (h : Heap) : Heap :=
  foldl (λ h b, bind_parameter b.1 b.2 p h) h bs.

(** The buffers that [free_unsharded_param] releases. *)
Definition buffers (s : FSDPParam) : list Tensor :=
  all_gather_outputs s ++ _unsharded_inner_tensors s.

(** Rows of each of the [num_chunks] chunks that [_chunk_with_empty]
    returns for a dimension 0 of [n] rows. *)
Definition padded_chunk_rows (n num_chunks : nat) : list nat :=
  chunk_rows n num_chunks
  ++ replicate (num_chunks - length (chunk_rows n num_chunks)) 0.

Definition ceil_div (n d : nat) : nat := (n + d - 1) `div` d.

Definition is_error {A} (r : Exn + A) : Prop :=
  match r with inl _ => True | inr _ => False end.

Definition is_parameter_event (ev : Event) : bool :=
  match ev with EvParameter _ _ => true | _ => false end.

(** The tensor a parameter object holds locally. *)
Definition local_of (x : TensorLike) : Tensor :=
  match x with Plain t => t | Dist d => _local_tensor d end.

(** Relations that a computation maintains between the state before and
    the state after, whether it returns or raises. *)
Definition preserves {S A} (R : S → S → Prop) (m : M S A) : Prop :=
  ∀ s, R s (m s).2.

(** The exceptions a computation can raise all satisfy [P]. *)
Definition raises_only {S A} (P : Exn → Prop) (m : M S A) : Prop :=
  ∀ s e, (m s).1 = inl e → P e.

(** Once the unsharded view exists, it is the same object afterwards. *)
Definition keeps_view (w w' : World) : Prop :=
  ∀ p, _unsharded_param (self w) = Some p → _unsharded_param (self w') = Some p.

(** The log only grows, and by events that satisfy [P]. *)
Definition log_grows (P : Event → Prop) (e e' : Env) : Prop :=
  ∃ evs, log e' = log e ++ evs ∧ Forall P evs.

(** A relation on the environment, as a relation on worlds. *)
Definition on_env (R : Env → Env → Prop) (w w' : World) : Prop :=
  R (env w) (env w').

(** Nothing changes. *)
Definition unchanged {S} (s s' : S) : Prop := s' = s.

(** The events by which a later call of [init_unsharded_param] may extend
    the log: storage allocation for the inner tensors, and the
    post-all-gather hook writing into the existing view [p]. *)
Definition reassembly_event (p : nat) (ev : Event) : Prop :=
  (∃ s n, ev = EvResize s n)
  ∨ (∃ inner outputs metadata d,
       ev = EvPostAllGather inner outputs metadata d (Some p)).

(** The tensor that [torch.empty] returns on storage [s]. *)
Definition empty_tensor (s : nat) (size : list nat) (d : dtype) (dev : Device)
  : Tensor :=
  {| t_storage := s; t_offset := 0; t_size := size;
     t_stride := make_contiguous_strides_for size; t_dtype := d;
     t_device := dev; t_has_pre := false; t_has_post := false |}.

(** What only the storages of the listed tensors may differ in. *)
Definition same_outside (ts : list Tensor) (h h' : Heap) : Prop :=
  parameters h' = parameters h ∧ modules h' = modules h
  ∧ next_id h' = next_id h
  ∧ ∀ s, s ∉ (t_storage <$> ts) → storages h' !! s = storages h !! s.

(** The heap after one identifier has been handed out. *)
Definition take_id (h : Heap) : Heap :=
  {| storages := storages h; parameters := parameters h;
     modules := modules h; next_id := S (next_id h) |}.

(** The buffers that [init_all_gather_outputs] allocates for the given
    (numel, dtype) pairs when [first] is the next free identifier. *)
Definition allocated_outputs (first world_size : nat) (dev : Device)
    (inputs : list (nat * dtype)) : list Tensor :=
  imap (λ k '(n, d), empty_tensor (first + k) [n * world_size] d dev) inputs.

(** What the buffers of the parameter do not cover stays as it is: the
    shard's own attributes, the sharded parameter object, and every
    storage that is not the storage of a buffer. *)
Definition shard_kept (w w' : World) : Prop :=
  _sharded_param_data (self w') = _sharded_param_data (self w)
  ∧ sharded_param (self w') = sharded_param (self w)
  ∧ buffers (self w') = buffers (self w)
  ∧ parameters (heap (env w')) !! sharded_param (self w)
    = parameters (heap (env w)) !! sharded_param (self w)
  ∧ ∀ s, s ∉ (t_storage <$> buffers (self w)) →
         storages (heap (env w')) !! s = storages (heap (env w)) !! s.


Definition is_resize_event (ev : Event) : Prop := ∃ s n, ev = EvResize s n.

(** [t.view(-1)] as a value: the flat view of [t], when its strides allow
    one. *)
Definition flat_view (t : Tensor) : option Tensor :=
  stride ← compute_stride (t_size t) (t_stride t) [numel (t_size t)];
  Some (with_view t (t_offset t) [numel (t_size t)] stride).

(** The dimensions [rold] (last first) lie in memory one after the other,
    after [P] elements: a dimension of a size other than 1 has the number
    of elements before it as stride. *)
Fixpoint contig_rev (P : nat) (rold : list (nat * nat)) : Prop :=
  match rold with
  | [] => True
  | (n, s) :: rest => (n ≠ 1 → s = P) ∧ contig_rev (P * n) rest
  end.

(** The dimensions [rold] (last first) have exactly the strides of a
    contiguous tensor, after [P] elements. *)
Fixpoint exact_rev (P : nat) (rold : list (nat * nat)) : Prop :=
  match rold with
  | [] => True
  | (n, s) :: rest => s = P ∧ exact_rev (P * n) rest
  end.

(** Tensors of one class, dtype and device. *)
Definition same_kind (t t' : Tensor) : Prop :=
  t_dtype t' = t_dtype t ∧ t_device t' = t_device t
  ∧ t_has_pre t' = t_has_pre t ∧ t_has_post t' = t_has_post t.

(** The heap keeps its parameters and modules. *)
Definition same_objects (e e' : Env) : Prop :=
  parameters (heap e') = parameters (heap e)
  ∧ modules (heap e') = modules (heap e).

(** An exception other than the device-mismatch assertion. *)
Definition not_device_mismatch (ex : Exn) : Prop :=
  ∀ expected got, ex ≠ AssertionError (DeviceMismatch expected got).

(** An attribute (or tuple of attributes) of the parameter has the same
    value after as before. *)
Definition same_attr {A} (f : FSDPParam → A) (w w' : World) : Prop :=
  f (self w') = f (self w).

(** The attributes that only construction assigns. *)
Definition construction_attrs (s : FSDPParam) :=
  (_module_info s, mesh_info s, post_forward_mesh_info s, device s,
   is_dtensor s, _tp_spec s, _global_mesh s, _global_placements s,
   _global_size s, _global_stride s, _orig_size s, sharded_size s,
   contiguous_sharded_stride s, padded_sharded_param_size s,
   _sharded_param_data s, sharded_param s, sharded_post_forward_size s,
   contiguous_sharded_post_forward_stride s, _param_fqn s).

(** A computation that moves the parameter to state [st] when it returns
    and leaves its state alone when it raises. *)
Definition transition {A} (st : ShardedState) (m : M World A) : Prop :=
  ∀ w, sharded_state (self (m w).2)
       = match (m w).1 with
         | inr _ => st
         | inl _ => sharded_state (self w)
         end.

(** Once there are output buffers, they stay the same tensor objects. *)
Definition keeps_outputs (w w' : World) : Prop :=
  all_gather_outputs (self w) ≠ [] →
  all_gather_outputs (self w') = all_gather_outputs (self w).

(** The module object exists and has the parameter under the name. *)
Definition registered (h : Heap) (p : nat) (b : nat * string) : Prop :=
  ∃ md, modules h !! b.1 = Some md ∧ _parameters md !! b.2 = Some p.

(** The bytes a tensor's storage needs to hold all of its elements. *)
Definition full_size (t : Tensor) : nat := numel (t_size t) * itemsize (t_dtype t).


(** A computation that raises in every world whose parameter satisfies [P]. *)
Definition always_raises {A} (P : FSDPParam → Prop) (m : M World A) : Prop :=
  ∀ w, P (self w) → is_error (m w).1.

(** The parameter has no post-forward mesh that is an HSDP mesh. *)
Definition no_hsdp_post_forward_mesh (s : FSDPParam) : Prop :=
  ∀ info, post_forward_mesh_info s = Some info → is_hsdp info = false.

(** The two-dimensional placement of a parameter that is sharded by FSDP
    on mesh dimension [dp_dim] and by tensor parallelism, with placement
    [tp_placement], on mesh dimension [tp_dim]. *)
Definition dp_tp_placements (dp_dim tp_dim : nat) (tp_placement : Placement)
  : list Placement :=
  <[tp_dim := tp_placement]> (<[dp_dim := Shard 0]> [Replicate; Replicate]).

(** ** Gradients *)

(** The [.grad] of the unsharded parameter as autograd leaves it: a
    tensor or [DTensor], or an [AsyncCollectiveTensor] whose [wait()]
    gives the tensor of the finished collective. *)
Inductive Grad :=
| GradValue (x : TensorLike)
| GradAsync (result : TensorLike).

(** What autograd and the tensor library provide: the [.grad] attribute
    of a parameter object and [DTensor.redistribute], a collective. *)
Class Autograd := {
  grad_of : Heap → nat → option Grad;
  redistribute : DTensor → list Placement → M Heap DTensor
}.

(** [pl.is_partial()] *)
Definition is_partial (pl : Placement) : bool :=
  match pl with Partial => true | _ => false end.

(** [_get_grad_inner_tensor] *)
Definition _get_grad_inner_tensor `{Autograd} (s : FSDPParam) (grad : Grad)
  : M Env Grad :=
  if is_dtensor s then
    let grad := match grad with
                | GradAsync result => GradValue result
                | GradValue _ => grad
                end in
    match grad with
    | GradValue (Dist d) =>
        d ← (if existsb is_partial (placements (_spec d)) then
               let new_placements :=
                 (λ pl, if is_partial pl then Replicate else pl)
                   <$> placements (_spec d) in
               lift_heap (redistribute d new_placements)
             else mret d);
        mret (GradValue (Plain (_local_tensor d)))
    | _ => raise (AssertionError (AssertFailed "isinstance(grad, DTensor)"))
    end
  else mret grad.

(** The [unsharded_grad_data] property. *)
Definition unsharded_grad_data `{Autograd} : M World Grad :=
  p ← unsharded_param;
  s ← gets self;
  h ← lift_env (gets heap);
  match grad_of h p with
  | Some grad => lift_env (_get_grad_inner_tensor s grad)
  | None =>
      raise (AssertionError
               (AssertFailed "Expects unsharded_param.grad to not be None"))
  end.

(** What [wait()] leaves of a gradient. *)
Definition waited (grad : Grad) : TensorLike :=
  match grad with GradValue x => x | GradAsync x => x end.

(** [e'] has everything [e] has: objects are only added, and the storages
    and parameter objects of [e] are as they were. *)
Definition extends (e e' : Env) : Prop :=
  next_id (heap e) ≤ next_id (heap e')
  ∧ (∀ sid, sid < next_id (heap e) →
       storages (heap e') !! sid = storages (heap e) !! sid)
  ∧ (∀ q, q < next_id (heap e) →
       parameters (heap e') !! q = parameters (heap e) !! q)
  ∧ modules (heap e') = modules (heap e).

(** * Example configurations *)

Definition cuda0 : Device := {| dev_type := "cuda"; dev_index := Some 0 |}.
Definition meta_device : Device := {| dev_type := "meta"; dev_index := None |}.

Definition root_mesh : DeviceMesh := {| mesh_id := 0; mesh_numel := 8 |}.

(** A toy extension.  The pre-all-gather hook hands out the inner tensor
    [count] times with a fixed metadata value; the post-all-gather hook
    takes the first all-gather output as the unsharded tensor and keeps
    all outputs as inner tensors, and with [out] it returns nothing.  All
    meshes are children of [root_mesh]. *)
Definition toy (count : nat) : Externals := {|
  fsdp_pre_all_gather := λ inner _, mret (replicate count inner, Some 7);
  fsdp_post_all_gather := λ inner outputs _ _ out,
    match out with
    | Some _ => mret None
    | None =>
        match outputs with
        | t :: _ => mret (Some (t, outputs))
        | [] => raise IndexError
        end
    end;
  get_parent_mesh := λ _, Some root_mesh;
  get_parent_mesh_dim := λ m, Some (mesh_id m - 1);
  cast_elem := λ _ d b, resize (itemsize d) x00 b
|}.

(** A contiguous tensor over storage [s]; [ext] says whether its class
    defines the two hooks. *)
Definition tensor_on (s : nat) (size : list nat) (d : dtype) (dev : Device)
    (pre post : bool) : Tensor :=
  {| t_storage := s; t_offset := 0; t_size := size;
     t_stride := make_contiguous_strides_for size; t_dtype := d;
     t_device := dev; t_has_pre := pre; t_has_post := post |}.

Definition bytes_upto (n : nat) : list byte :=
  (λ i, default x00 (Byte.of_nat i)) <$> seq 1 n.

(** A heap with the original parameter's storage (bytes 1, 2, ...) and
    two modules that share the parameter, the second with a custom
    [__setattr__]. *)
Definition heap0 (nbytes : nat) : Heap :=
  {| storages := {[ 0 := bytes_upto nbytes ]};
     parameters := ∅;
     modules := {[ 5 := {| custom_setattr := false;
                           _parameters := {[ "weight" := 99 ]} |};
                   6 := {| custom_setattr := true;
                           _parameters := {[ "w" := 99 ]} |} ]};
     next_id := 100 |}.

Definition env0 (nbytes : nat) : Env := {| heap := heap0 nbytes; log := [] |}.

Definition fsdp_mesh (world rank : nat) : FSDPMeshInfo :=
  {| mesh := {| mesh_id := 1; mesh_numel := world |};
     shard_mesh_dim := Some 0; replicate_mesh_dim := None;
     shard_mesh_size := world; shard_mesh_rank := rank; is_hsdp := false |}.

Definition hsdp_mesh (world rank : nat) : FSDPMeshInfo :=
  {| mesh := {| mesh_id := 3; mesh_numel := 2 * world |};
     shard_mesh_dim := Some 1; replicate_mesh_dim := Some 0;
     shard_mesh_size := world; shard_mesh_rank := rank; is_hsdp := true |}.

Definition shared_weight : ParamModuleInfo :=
  {| module := 5; param_name := "weight";
     shared_modules := [6]; shared_param_names := ["w"] |}.

Definition no_policy : MixedPrecisionPolicy :=
  {| policy_param_dtype := None; policy_reduce_dtype := None |}.

Definition tp_spec : DTensorSpec :=
  {| spec_mesh := {| mesh_id := 2; mesh_numel := 2 |};
     placements := [Shard 1] |}.

(** The world after a successful construction. *)
Definition constructed (r : (Exn + FSDPParam) * Env) : option World :=
  match r with
  | (inr s, e) => Some {| self := s; env := e |}
  | (inl _, _) => None
  end.

(** A [4, 2] float16 parameter sharded over two ranks (this is rank 1),
    with a two-rank post-forward mesh; [count] is 0 for a plain tensor
    and otherwise the number of all-gather inputs of the toy extension. *)
Definition small_world (count : nat) : option World :=
  let _ := toy count in
  let ext := bool_decide (count ≠ 0) in
  constructed
    (__init__ {| data := Plain (tensor_on 0 [4; 2] float16 cuda0 ext ext);
                 requires_grad := true |}
       shared_weight (fsdp_mesh 2 1) (Some (hsdp_mesh 2 0)) cuda0 no_policy
       (env0 16)).

(** One forward pass up to the unsharded state: dtype attributes, buffer
    request, buffer materialisation, view construction, transition. *)
Definition forward_calls (count : nat) : list Call :=
  [ call_init_dtype_attrs no_policy;
    call_all_gather_inputs;
    call_init_all_gather_outputs (replicate (Nat.max 1 count) 4)
      (replicate (Nat.max 1 count) float16) 2 cuda0;
    call_init_unsharded_param;
    call_to_unsharded ].

Definition unsharded_world (count : nat) : option World :=
  let _ := toy count in
  run_calls (forward_calls count) <$> small_world count.

(** A parameter that tensor parallelism already made a [DTensor], sharded
    over two ranks, right after construction. *)
Definition dtensor_world : option World :=
  let _ := toy 0 in
  constructed
    (__init__
       {| data := Dist {| _local_tensor := tensor_on 0 [4; 2] float16 cuda0 false false;
                          _spec := tp_spec;
                          dt_size := [4; 4]; dt_stride := [4; 1] |};
          requires_grad := true |}
       shared_weight (fsdp_mesh 2 1) None cuda0 no_policy (env0 16)).

(** The same parameter with the view built but not yet bound: the state
    in which the scheduler calls [to_unsharded]. *)
Definition gathered_world (count : nat) : option World :=
  let _ := toy count in
  run_calls (removelast (forward_calls count)) <$> small_world count.

(** The sharded parameter object of [small_world]. *)
Definition small_shard (ext : bool) : nn_Parameter :=
  {| data := Dist (_from_local_no_grad
                     (tensor_on 100 [2; 2] float16 cuda0 ext ext)
                     (mesh (fsdp_mesh 2 1)) [Shard 0] [4; 2] [2; 1]);
     requires_grad := true |}.

(** The same parameter with its output buffers allocated: the state in
    which the scheduler first calls [init_unsharded_param]. *)
Definition allocated_world (count : nat) : option World :=
  let _ := toy count in
  run_calls (take 3 (forward_calls count)) <$> small_world count.



(** Construction of a parameter with the given local tensor over [world]
    ranks, as rank [rank], in the example heap. *)
Definition construct (ext : Externals) (t : Tensor) (world rank : nat)
  : (Exn + FSDPParam) * Env :=
  __init__ {| data := Plain t; requires_grad := true |}
    shared_weight (fsdp_mesh world rank) None cuda0 no_policy
    (env0 (numel (t_size t) * itemsize (t_dtype t))).

(** The extension parameter on its second pass: resharded after the first
    forward, its inputs read again and its output buffers materialised;
    the state in which the scheduler calls [init_unsharded_param] again. *)
Definition second_pass_world : option World :=
  let _ := toy 1 in
  run_calls [ call_to_unsharded; call_to_sharded; call_all_gather_inputs;
              call_alloc_all_gather_outputs ]
    <$> gathered_world 1.

(** The parameter of [small_world] with a post-forward mesh that is not
    an HSDP mesh, in the unsharded state. *)
Definition flat_post_forward_world : option World :=
  let _ := toy 0 in
  run_calls (forward_calls 0)
  <$> constructed
        (__init__ {| data := Plain (tensor_on 0 [4; 2] float16 cuda0 false false);
                     requires_grad := true |}
           shared_weight (fsdp_mesh 2 1) (Some (fsdp_mesh 2 0)) cuda0 no_policy
           (env0 16)).

(** A gradient that tensor parallelism left as a pending collective whose
    result is partial on the first mesh dimension. *)
Definition partial_grad : Grad :=
  GradAsync
    (Dist {| _local_tensor := tensor_on 0 [4; 2] float16 cuda0 false false;
             _spec := {| spec_mesh := root_mesh;
                         placements := [Partial; Shard 1] |};
             dt_size := [4; 4]; dt_stride := [4; 1] |}).

(** An autograd in which every parameter object has [partial_grad] as
    its gradient, and [redistribute] only relabels the placements. *)
Definition toy_autograd : Autograd := {|
  grad_of := λ _ _, Some partial_grad;
  redistribute := λ d pls,
    mret {| _local_tensor := _local_tensor d;
            _spec := {| spec_mesh := spec_mesh (_spec d); placements := pls |};
            dt_size := dt_size d; dt_stride := dt_stride d |}
|}.

(** * Properties *)

(** ** The monad *)

Lemma bind_run {S A B} (m : M S A) (f : A → M S B) (s : S) :
  (m ≫= f) s
  = match m s with (inl e, s') => (inl e, s') | (inr a, s') => f a s' end.
Proof. reflexivity. Qed.

Lemma bind_inr {S A B} (m : M S A) (f : A → M S B) s a s' :
  m s = (inr a, s') → (m ≫= f) s = f a s'.
Proof. intros Hm. by rewrite bind_run, Hm. Qed.

Lemma bind_inl {S A B} (m : M S A) (f : A → M S B) s e s' :
  m s = (inl e, s') → (m ≫= f) s = (inl e, s').
Proof. intros Hm. by rewrite bind_run, Hm. Qed.

Lemma bind_inv {S A B} (m : M S A) (f : A → M S B) s b s2 :
  (m ≫= f) s = (inr b, s2) → ∃ a s1, m s = (inr a, s1) ∧ f a s1 = (inr b, s2).
Proof.
  rewrite bind_run. destruct (m s) as [[e|a] s1]; [done|]. eauto.
Qed.

Lemma lift_env_run {A} (m : M Env A) (w : World) :
  lift_env m w = ((m (env w)).1, {| self := self w; env := (m (env w)).2 |}).
Proof. unfold lift_env. by destruct (m (env w)). Qed.

Lemma lift_heap_run {A} (m : M Heap A) (e : Env) :
  lift_heap m e = ((m (heap e)).1, {| heap := (m (heap e)).2; log := log e |}).
Proof. unfold lift_heap. by destruct (m (heap e)). Qed.

Lemma world_eta (w : World) : {| self := self w; env := env w |} = w.
Proof. by destruct w. Qed.

Lemma env_eta (e : Env) : {| heap := heap e; log := log e |} = e.
Proof. by destruct e. Qed.

(** ** Relations maintained by a computation *)

Section preserves.
Context {S : Type} (R : S → S → Prop) `{!PreOrder R}.

Lemma preserves_ret {A} (a : A) : preserves R (mret a).
Proof. intros s. reflexivity. Qed.

Lemma preserves_raise {A} e : preserves R (raise (A := A) e).
Proof. intros s. reflexivity. Qed.

Lemma preserves_gets {A} (f : S → A) : preserves R (gets f).
Proof. intros s. reflexivity. Qed.

Lemma preserves_bind {A B} (m : M S A) (f : A → M S B) :
  preserves R m → (∀ a, preserves R (f a)) → preserves R (m ≫= f).
Proof.
  intros Hm Hf s. rewrite bind_run. specialize (Hm s).
  destruct (m s) as [[e|a] s1]; [done|].
  etrans; [exact Hm | apply Hf].
Qed.

Lemma preserves_for_each {A} (xs : list A) (body : A → M S unit) :
  (∀ x, preserves R (body x)) → preserves R (for_each xs body).
Proof.
  intros Hb. induction xs as [|x xs IH]; simpl.
  - apply preserves_ret.
  - apply preserves_bind; [apply Hb|]. intros _. apply IH.
Qed.

Lemma preserves_map_m {A B} (f : A → M S B) (xs : list A) :
  (∀ x, preserves R (f x)) → preserves R (map_m f xs).
Proof.
  intros Hf. induction xs as [|x xs IH]; simpl.
  - apply preserves_ret.
  - apply preserves_bind; [apply Hf|]. intros y.
    apply preserves_bind; [apply IH|]. intros ys. apply preserves_ret.
Qed.
End preserves.

(** One structural step: a bind, a return, a raise, or a case split on
    what the computation branches on. *)
Ltac preserves_step :=
  lazymatch goal with
  | |- preserves _ (mbind _ _) =>
      apply preserves_bind; [apply _| |intros ?]
  | |- preserves _ (mret _) => apply preserves_ret; apply _
  | |- preserves _ (raise _) => apply preserves_raise; apply _
  | |- preserves _ (_raise_assert_with_print _) => apply preserves_raise; apply _
  | |- preserves _ (gets _) => apply preserves_gets; apply _
  | |- preserves _ (for_each _ _) => apply preserves_for_each; [apply _|intros ?]
  | |- preserves _ (map_m _ _) => apply preserves_map_m; [apply _|intros ?]
  | |- preserves _ (getattr _ ?o) => destruct o; simpl
  | |- preserves _ (assert ?b _) => destruct b; simpl
  | |- preserves _ (index ?l ?i) => unfold index
  | |- preserves _ (match ?x with _ => _ end) => destruct x; simpl
  | |- preserves _ (if ?b then _ else _) => destruct b; simpl
  end.

(** Applies a preservation fact to the rest of a computation that has
    been run up to some state. *)
Ltac preserves_from_here R :=
  match goal with
  | |- R ?w (?m ?w).2 =>
      let Hm := fresh in cut (preserves R m); [intros Hm; apply Hm|]
  end.

Lemma narrow0_preserves (R : Env → Env → Prop) `{!PreOrder R} t start len :
  preserves R (narrow0 t start len).
Proof. unfold narrow0. repeat preserves_step. Qed.

Lemma view_infer_preserves {S} (R : S → S → Prop) `{!PreOrder R} t trailing :
  preserves R (view_infer t trailing).
Proof. unfold view_infer, infer_size. repeat preserves_step. Qed.

Lemma slice0_preserves {S} (R : S → S → Prop) `{!PreOrder R} t k :
  preserves R (slice0 t k).
Proof. unfold slice0. repeat preserves_step. Qed.

(** ** The unsharded view is never replaced *)

Global Instance keeps_view_preorder : PreOrder keeps_view.
Proof. split; [by intros w p | intros w1 w2 w3 H12 H23 p Hp; auto]. Qed.

Lemma keeps_view_lift_env {A} (m : M Env A) : preserves keeps_view (lift_env m).
Proof. intros w p. unfold lift_env. by destruct (m (env w)). Qed.

Lemma keeps_view_set_self f :
  (∀ s, _unsharded_param (f s) = _unsharded_param s) →
  preserves keeps_view (set_self f).
Proof. intros Hf w p. simpl. by rewrite Hf. Qed.

Ltac keeps_view_tac :=
  repeat first
    [ apply keeps_view_lift_env
    | apply keeps_view_set_self; done
    | apply narrow0_preserves; apply _
    | apply view_infer_preserves; apply _
    | preserves_step ].

Lemma init_unsharded_param_keeps_view `{Externals} :
  preserves keeps_view init_unsharded_param.
Proof.
  intros w. destruct (_unsharded_param (self w)) as [p|] eqn:Hup;
    [|intros p Hp; congruence].
  unfold init_unsharded_param. rewrite bind_run. simpl. rewrite Hup.
  preserves_from_here keeps_view.
  unfold _unflatten_all_gather_outputs, param_dtype_or_orig,
    clear_extensions_data.
  keeps_view_tac.
Qed.

Lemma run_call_keeps_view `{Externals} c : preserves keeps_view (run_call c).
Proof.
  destruct c; simpl; try apply init_unsharded_param_keeps_view;
    unfold init_dtype_attrs, init_all_gather_outputs, alloc_all_gather_outputs,
      free_unsharded_param, to_sharded, to_sharded_post_forward, to_unsharded,
      ignore_result, all_gather_inputs, unsharded_param, set_state,
      free_unsharded_param, _assert_in_states, to_sharded_post_forward_dtensor;
    keeps_view_tac.
Qed.

Lemma run_calls_keeps_view `{Externals} cs w : keeps_view w (run_calls cs w).
Proof.
  revert w. induction cs as [|c cs IH]; intros w; simpl; [reflexivity|].
  etrans; [apply (run_call_keeps_view c)|apply IH].
Qed.

(** ** State contracts *)

Lemma assert_in_states_ok (states : list ShardedState) (w : World) :
  sharded_state (self w) ∈ states → _assert_in_states states w = (inr tt, w).
Proof.
  intros Hin. unfold _assert_in_states. rewrite bind_run. simpl.
  by rewrite bool_decide_false by (by intros Hn).
Qed.

Lemma assert_in_states_fail (states : list ShardedState) (w : World) :
  sharded_state (self w) ∉ states →
  _assert_in_states states w
  = (inl (AssertionError (ExpectsStates states (sharded_state (self w)))), w).
Proof.
  intros Hin. unfold _assert_in_states. rewrite bind_run. simpl.
  by rewrite bool_decide_true.
Qed.

(** Runs a computation as far as it is determined. *)
Ltac mrun := repeat (rewrite bind_run; simpl).

(** Evaluates an example world to its value. *)
Ltac example_world w :=
  lazymatch goal with
  | |- match ?o with Some _ => _ | None => False end =>
      let E := fresh "E" in
      destruct o as [w|] eqn:E; [|by vm_compute in E];
      vm_compute in E; injection E as <-
  end.

(** C4, as stated, fails: a [DTensor] parameter in the [SHARDED] state
    does not get the state-contract assertion from
    [to_sharded_post_forward] but [NotImplementedError], which is raised
    before the state is looked at. *)
Lemma state_contract_dtensor_counterexample :
  match dtensor_world with
  | Some w =>
      sharded_state (self w) = SHARDED
      ∧ (to_sharded_post_forward w).1
        = inl (NotImplementedError
                 "Resharding to smaller mesh with TP is not supported yet")
      ∧ ¬ ∃ expected actual,
            (to_sharded_post_forward w).1
            = inl (AssertionError (ExpectsStates expected actual))
  | None => False
  end.
Proof.
  example_world w. split; [reflexivity|]. split; [reflexivity|].
  intros (expected & actual & Heq). vm_compute in Heq. discriminate Heq.
Qed.

(** C4 (amended): reading [all_gather_inputs] in the [UNSHARDED] state
    fails with the state-contract assertion, which names the expected
    states and the actual one; [to_sharded_post_forward] on a parameter
    that is not a [DTensor] fails with the same kind of assertion in
    every state other than [UNSHARDED]; on a [DTensor] parameter it fails
    with [NotImplementedError] in every state.  None of these failures
    changes the parameter, the heap or the log. *)
Theorem wrong_state_is_rejected `{Externals} (w : World) :
  (sharded_state (self w) = UNSHARDED →
   all_gather_inputs w
   = (inl (AssertionError
             (ExpectsStates [SHARDED; SHARDED_POST_FORWARD] UNSHARDED)), w))
  ∧ (sharded_state (self w) ≠ UNSHARDED → is_dtensor (self w) = false →
     to_sharded_post_forward w
     = (inl (AssertionError
               (ExpectsStates [UNSHARDED] (sharded_state (self w)))), w))
  ∧ (is_dtensor (self w) = true →
     to_sharded_post_forward w
     = (inl (NotImplementedError
               "Resharding to smaller mesh with TP is not supported yet"), w)).
Proof.
  split; [|split].
  - intros Hst. unfold all_gather_inputs.
    erewrite bind_inl; [reflexivity|].
    rewrite assert_in_states_fail; rewrite Hst; [done|].
    intros Hin. by repeat (apply elem_of_cons in Hin as [?|Hin]; [done|]);
      apply elem_of_nil in Hin.
  - intros Hst Hdt. unfold to_sharded_post_forward.
    rewrite bind_run. simpl. rewrite Hdt. simpl.
    rewrite bind_run. simpl.
    erewrite bind_inl; [reflexivity|].
    apply assert_in_states_fail.
    intros Hin. by apply list_elem_of_singleton in Hin.
  - intros Hdt. unfold to_sharded_post_forward.
    rewrite bind_run. simpl. rewrite Hdt. simpl.
    by rewrite bind_run.
Qed.

Lemma wrong_state_is_rejected_witness :
  let _ := toy 0 in
  match unsharded_world 0, small_world 0, dtensor_world with
  | Some wu, Some ws, Some wd =>
      all_gather_inputs wu
      = (inl (AssertionError
                (ExpectsStates [SHARDED; SHARDED_POST_FORWARD] UNSHARDED)), wu)
      ∧ to_sharded_post_forward ws
        = (inl (AssertionError (ExpectsStates [UNSHARDED] SHARDED)), ws)
      ∧ to_sharded_post_forward wd
        = (inl (NotImplementedError
                  "Resharding to smaller mesh with TP is not supported yet"), wd)
  | _, _, _ => False
  end.
Proof.
  intros ext.
  destruct (unsharded_world 0) as [wu|] eqn:Eu; [|by vm_compute in Eu].
  destruct (small_world 0) as [ws|] eqn:Es; [|by vm_compute in Es].
  destruct dtensor_world as [wd|] eqn:Ed; [|by vm_compute in Ed].
  vm_compute in Eu, Es, Ed.
  injection Eu as <-. injection Es as <-. injection Ed as <-.
  split; [|split].
  - match goal with
    | |- all_gather_inputs ?w = _ =>
        exact (proj1 (wrong_state_is_rejected (H := ext) w) eq_refl)
    end.
  - match goal with
    | |- to_sharded_post_forward ?w = _ =>
        exact (proj1 (proj2 (wrong_state_is_rejected (H := ext) w))
                 ltac:(vm_compute; discriminate) eq_refl)
    end.
  - match goal with
    | |- to_sharded_post_forward ?w = _ =>
        exact (proj2 (proj2 (wrong_state_is_rejected (H := ext) w)) eq_refl)
    end.
Defined.

(** ** Storage allocation and release *)

Lemma storage_size_set_storage_eq s bytes h :
  storage_size (set_storage s bytes h) s = length bytes.
Proof. unfold storage_size, storage_bytes. simpl. by rewrite lookup_insert_eq. Qed.

Lemma storage_size_set_storage_ne s s' bytes h :
  s ≠ s' → storage_size (set_storage s bytes h) s' = storage_size h s'.
Proof.
  intros Hne. unfold storage_size, storage_bytes. simpl.
  by rewrite lookup_insert_ne.
Qed.

Lemma free_storage_run (t : Tensor) (e : Env) :
  free_storage t e
  = (inr tt,
     if bool_decide (storage_size (heap e) (t_storage t) ≠ 0)
     then {| heap := set_storage (t_storage t) [] (heap e);
             log := log e ++ [EvResize (t_storage t) 0] |}
     else e).
Proof.
  unfold free_storage. rewrite bind_run. simpl.
  destruct (bool_decide _); [|done].
  unfold resize_. rewrite bind_run. simpl. by rewrite resize_0.
Qed.

Lemma free_storage_spec (t : Tensor) (e : Env) :
  ∃ e', free_storage t e = (inr tt, e')
    ∧ storage_size (heap e') (t_storage t) = 0
    ∧ (∀ s, storage_size (heap e) s = 0 → storage_size (heap e') s = 0)
    ∧ same_outside [t] (heap e) (heap e')
    ∧ (∃ evs, log e' = log e ++ evs)
    ∧ (storage_size (heap e) (t_storage t) = 0 → e' = e).
Proof.
  rewrite free_storage_run. eexists; split; [reflexivity|].
  case_bool_decide as Hsz; simpl.
  - split; [apply storage_size_set_storage_eq|].
    split.
    { intros s Hs. destruct (decide (t_storage t = s)) as [<-|Hne].
      - apply storage_size_set_storage_eq.
      - by rewrite storage_size_set_storage_ne. }
    split.
    { repeat split; try done. intros s Hs. simpl.
      rewrite lookup_insert_ne; [done|]. intros <-. apply Hs. by left. }
    split; [by eexists|]. intros Hz. done.
  - repeat split; try done. exists []. by rewrite app_nil_r.
Qed.

Lemma same_outside_trans ts1 ts2 ts h1 h2 h3 :
  ts1 ⊆ ts → ts2 ⊆ ts →
  same_outside ts1 h1 h2 → same_outside ts2 h2 h3 → same_outside ts h1 h3.
Proof.
  intros H1 H2 (Hp1 & Hm1 & Hn1 & Hs1) (Hp2 & Hm2 & Hn2 & Hs2).
  repeat split; try congruence.
  intros s Hs. rewrite Hs2, Hs1; [done| |].
  - intros Hin. apply Hs. apply list_elem_of_fmap in Hin as (t & -> & Ht).
    apply list_elem_of_fmap. eauto.
  - intros Hin. apply Hs. apply list_elem_of_fmap in Hin as (t & -> & Ht).
    apply list_elem_of_fmap. eauto.
Qed.

Lemma free_all_spec (ts : list Tensor) (e : Env) :
  ∃ e', for_each ts free_storage e = (inr tt, e')
    ∧ (∀ t, t ∈ ts → storage_size (heap e') (t_storage t) = 0)
    ∧ (∀ s, storage_size (heap e) s = 0 → storage_size (heap e') s = 0)
    ∧ same_outside ts (heap e) (heap e')
    ∧ (∃ evs, log e' = log e ++ evs)
    ∧ ((∀ t, t ∈ ts → storage_size (heap e) (t_storage t) = 0) → e' = e).
Proof.
  revert e. induction ts as [|t ts IH]; intros e; simpl.
  - exists e. repeat split; try done.
    + intros t Ht. by apply elem_of_nil in Ht.
    + exists []. by rewrite app_nil_r.
  - destruct (free_storage_spec t e)
      as (e1 & Hrun1 & Hz1 & Hkeep1 & Hout1 & [evs1 Hlog1] & Hid1).
    destruct (IH e1) as (e2 & Hrun2 & Hz2 & Hkeep2 & Hout2 & [evs2 Hlog2] & Hid2).
    exists e2. split; [by rewrite (bind_inr _ _ _ _ _ Hrun1)|].
    split.
    { intros t' Ht'. apply elem_of_cons in Ht' as [->|Ht']; [|by apply Hz2].
      by apply Hkeep2. }
    split; [by intros s Hs; apply Hkeep2, Hkeep1|].
    split.
    { eapply same_outside_trans; [| |exact Hout1|exact Hout2].
      - intros x Hx. apply list_elem_of_singleton in Hx as ->. by left.
      - intros x Hx. by right. }
    split; [exists (evs1 ++ evs2); by rewrite Hlog2, Hlog1, app_assoc|].
    intros Hall. rewrite Hid2.
    + apply Hid1, Hall. by left.
    + intros t' Ht'. apply Hkeep1, Hall. by right.
Qed.

Lemma free_unsharded_param_spec (w : World) :
  ∃ e', free_unsharded_param w = (inr tt, {| self := self w; env := e' |})
    ∧ (∀ t, t ∈ buffers (self w) → storage_size (heap e') (t_storage t) = 0)
    ∧ same_outside (buffers (self w)) (heap (env w)) (heap e')
    ∧ (∃ evs, log e' = log (env w) ++ evs)
    ∧ ((∀ t, t ∈ buffers (self w) →
          storage_size (heap (env w)) (t_storage t) = 0) → e' = env w).
Proof.
  destruct (free_all_spec (buffers (self w)) (env w))
    as (e' & Hrun & Hz & _ & Hout & Hlog & Hid).
  exists e'. split; [|done].
  unfold free_unsharded_param. rewrite bind_run. simpl.
  rewrite lift_env_run. unfold buffers in Hrun. by rewrite Hrun.
Qed.

Lemma numel_singleton n : numel [n] = n.
Proof. unfold numel. simpl. lia. Qed.

Lemma torch_empty_run size d dev (e : Env) :
  torch_empty size d dev e
  = (inr (empty_tensor (next_id (heap e)) size d dev),
     {| heap := set_storage (next_id (heap e))
                  (replicate (numel size * itemsize d) x00) (take_id (heap e));
        log := log e ++ [EvNewStorage (next_id (heap e))
                           (numel size * itemsize d)] |}).
Proof. reflexivity. Qed.

Lemma allocate_outputs_spec world_size dev (inputs : list (nat * dtype)) (e : Env) :
  ∃ e', map_m (λ '(n, d), torch_empty [n * world_size] d dev) inputs e
        = (inr (allocated_outputs (next_id (heap e)) world_size dev inputs), e')
    ∧ next_id (heap e') = next_id (heap e) + length inputs
    ∧ parameters (heap e') = parameters (heap e)
    ∧ modules (heap e') = modules (heap e)
    ∧ (∀ s, s < next_id (heap e) →
         storages (heap e') !! s = storages (heap e) !! s)
    ∧ (∀ k n d, inputs !! k = Some (n, d) →
         storages (heap e') !! (next_id (heap e) + k)
         = Some (replicate (n * world_size * itemsize d) x00))
    ∧ log e'
      = log e ++ imap (λ k '(n, d),
                         EvNewStorage (next_id (heap e) + k)
                           (n * world_size * itemsize d)) inputs.
Proof.
  revert e. induction inputs as [|[n d] inputs IH]; intros e.
  - exists e. simpl. repeat split; try done; try lia. by rewrite app_nil_r.
  - simpl. rewrite bind_run, torch_empty_run, numel_singleton.
    set (e1 := {| heap := _; log := _ |}).
    destruct (IH e1) as (e2 & Hrun & Hnext & Hpar & Hmod & Hold & Hnew & Hlog).
    exists e2. rewrite bind_run, Hrun. simpl.
    assert (∀ k, S (next_id (heap e) + k) = next_id (heap e) + S k) as Hshift
      by (intros; lia).
    split.
    { cbv [mret M_ret]. unfold allocated_outputs. simpl.
      rewrite Nat.add_0_r. do 3 f_equal.
      apply imap_ext. intros k [n' d'] _. simpl. by rewrite Hshift. }
    split; [simpl in Hnext; lia|].
    split; [by rewrite Hpar|]. split; [by rewrite Hmod|].
    split.
    { intros s Hs. rewrite Hold by (simpl; lia). simpl.
      rewrite lookup_insert_ne; [done|lia]. }
    split.
    { intros [|k] n' d' Hk; simpl in Hk.
      - injection Hk as -> ->. rewrite Nat.add_0_r.
        rewrite Hold by (simpl; lia). simpl.
        by rewrite lookup_insert_eq.
      - rewrite <- Hshift. by apply (Hnew k). }
    rewrite Hlog. simpl. rewrite <- app_assoc. simpl.
    rewrite Nat.add_0_r. do 2 f_equal.
    apply imap_ext. intros k [n' d'] _. simpl. by rewrite Hshift.
Qed.




(** ** Module bindings *)

Arguments bindings : simpl never.
Arguments bind_all : simpl never.

Lemma get_module_bind_parameter m name p h m' :
  custom_setattr (get_module (bind_parameter m name p h) m')
  = custom_setattr (get_module h m').
Proof.
  unfold get_module at 1. simpl.
  destruct (decide (m = m')) as [->|Hne].
  - by rewrite lookup_insert_eq.
  - by rewrite lookup_insert_ne.
Qed.

Lemma binding_event_bind_parameter m name p h p' b :
  binding_event (bind_parameter m name p h) p' b = binding_event h p' b.
Proof. unfold binding_event. by rewrite get_module_bind_parameter. Qed.

Lemma bound_parameter_bind_parameter m name p h m' name' :
  bound_parameter (bind_parameter m name p h) m' name'
  = if decide ((m, name) = (m', name')) then Some p
    else bound_parameter h m' name'.
Proof.
  unfold bound_parameter, get_module at 1. simpl.
  destruct (decide (m = m')) as [->|Hne].
  - rewrite lookup_insert_eq. simpl.
    destruct (decide (name = name')) as [->|Hne].
    + rewrite lookup_insert_eq. by rewrite decide_True.
    + rewrite lookup_insert_ne by done. rewrite decide_False; [done|congruence].
  - rewrite lookup_insert_ne by done. rewrite decide_False; [done|congruence].
Qed.

Lemma bind_all_nil p h : bind_all [] p h = h.
Proof. reflexivity. Qed.

Lemma bind_all_cons b bs p h :
  bind_all (b :: bs) p h = bind_all bs p (bind_parameter b.1 b.2 p h).
Proof. reflexivity. Qed.

Lemma unsafe_setattr_param_run m name p (e : Env) :
  unsafe_setattr_param m name p e
  = (inr tt, {| heap := bind_parameter m name p (heap e);
                log := log e ++ [binding_event (heap e) p (m, name)] |}).
Proof.
  unfold unsafe_setattr_param, binding_event. rewrite bind_run. simpl.
  by destruct (custom_setattr (get_module (heap e) m)).
Qed.

Lemma bind_each_run (bs : list (nat * string)) p (e : Env) :
  for_each bs (λ '(m, name), unsafe_setattr_param m name p) e
  = (inr tt, {| heap := bind_all bs p (heap e);
                log := log e ++ (binding_event (heap e) p <$> bs) |}).
Proof.
  revert e. induction bs as [|[m name] bs IH]; intros e; simpl.
  - by rewrite bind_all_nil, app_nil_r, env_eta.
  - rewrite bind_run, unsafe_setattr_param_run, IH, bind_all_cons. simpl.
    rewrite <- app_assoc. simpl. do 4 f_equal.
    apply list_fmap_ext. intros _ b _. apply binding_event_bind_parameter.
Qed.

Lemma setattr_on_modules_run info p (e : Env) :
  _setattr_on_modules info p e
  = (inr tt, {| heap := bind_all (bindings info) p (heap e);
                log := log e ++ (binding_event (heap e) p <$> bindings info) |}).
Proof.
  unfold _setattr_on_modules, bindings.
  rewrite bind_run, unsafe_setattr_param_run, bind_each_run, bind_all_cons. simpl.
  rewrite <- app_assoc. simpl. do 4 f_equal.
  apply list_fmap_ext. intros _ b _. apply binding_event_bind_parameter.
Qed.

Lemma bind_all_frame bs p h :
  storages (bind_all bs p h) = storages h
  ∧ parameters (bind_all bs p h) = parameters h
  ∧ next_id (bind_all bs p h) = next_id h.
Proof.
  revert h. induction bs as [|b bs IH]; intros h; [done|].
  rewrite bind_all_cons.
  destruct (IH (bind_parameter b.1 b.2 p h)) as (-> & -> & ->). done.
Qed.

Lemma bind_all_bound bs p h m name :
  (m, name) ∈ bs → bound_parameter (bind_all bs p h) m name = Some p.
Proof.
  revert h. induction bs as [|[m' name'] bs IH]; intros h Hin.
  - by apply elem_of_nil in Hin.
  - rewrite bind_all_cons. simpl.
    destruct (decide ((m, name) ∈ bs)) as [Hin'|Hnin]; [by apply IH|].
    apply elem_of_cons in Hin as [Heq|Hin]; [|done].
    injection Heq as <- <-. clear IH.
    assert (∀ h', bound_parameter h' m name = Some p →
                  bound_parameter (bind_all bs p h') m name = Some p) as Hkeep.
    { clear h. induction bs as [|[m' name'] bs IH]; intros h' Hb; [done|].
      rewrite bind_all_cons. simpl. apply IH.
      - intros Hin. apply Hnin. by right.
      - rewrite bound_parameter_bind_parameter. by case_decide. }
    apply Hkeep. rewrite bound_parameter_bind_parameter. by rewrite decide_True.
Qed.

Lemma bind_all_unbound bs p h m name :
  (m, name) ∉ bs → bound_parameter (bind_all bs p h) m name = bound_parameter h m name.
Proof.
  revert h. induction bs as [|[m' name'] bs IH]; intros h Hnin; [done|].
  rewrite bind_all_cons. simpl.
  rewrite IH by (intros Hin; apply Hnin; by right).
  rewrite bound_parameter_bind_parameter, decide_False; [done|].
  intros Heq. apply Hnin. rewrite Heq. by left.
Qed.

(** ** Gradient flags *)

Lemma deref_run p x (e : Env) :
  parameters (heap e) !! p = Some x → deref p e = (inr x, e).
Proof. intros Hp. unfold deref. rewrite bind_run. simpl. by rewrite Hp. Qed.

Lemma requires_grad__case p x flag (e : Env) :
  parameters (heap e) !! p = Some x →
  requires_grad_ p flag e
  = if flag && negb (is_floating_point (tl_dtype (data x)))
    then (inl (RuntimeError
                 "only Tensors of floating point dtype can require gradients"), e)
    else (inr tt,
          {| heap := set_parameter p {| data := data x; requires_grad := flag |}
                       (heap e);
             log := log e ++ [EvRequiresGrad p flag] |}).
Proof.
  intros Hp. unfold requires_grad_.
  rewrite bind_run, (deref_run _ _ _ Hp).
  by destruct (flag && negb (is_floating_point (tl_dtype (data x)))).
Qed.

Lemma requires_grad__run p x flag (e : Env) :
  parameters (heap e) !! p = Some x →
  is_floating_point (tl_dtype (data x)) = true →
  requires_grad_ p flag e
  = (inr tt, {| heap := set_parameter p {| data := data x; requires_grad := flag |}
                          (heap e);
                log := log e ++ [EvRequiresGrad p flag] |}).
Proof.
  intros Hp Hfp. rewrite (requires_grad__case _ _ _ _ Hp), Hfp.
  by rewrite andb_false_r.
Qed.

(** The one case in which [requires_grad_] refuses the flag of [s] for
    [d]: the flag is set on [s], not on [d], and [d] is of an integer
    dtype. *)
Lemma set_requires_grad_if_needed_case src dst s d (e : Env) :
  parameters (heap e) !! src = Some s →
  parameters (heap e) !! dst = Some d →
  set_requires_grad_if_needed src dst e
  = if flag_refused s d
    then (inl (RuntimeError
                 "only Tensors of floating point dtype can require gradients"), e)
    else (inr tt,
          if bool_decide (requires_grad s ≠ requires_grad d)
          then {| heap := set_parameter dst
                            {| data := data d; requires_grad := requires_grad s |}
                            (heap e);
                  log := log e ++ [EvRequiresGrad dst (requires_grad s)] |}
          else e).
Proof.
  intros Hs Hd. unfold set_requires_grad_if_needed, flag_refused.
  rewrite bind_run, (deref_run _ _ _ Hs).
  rewrite bind_run, (deref_run _ _ _ Hd).
  destruct (requires_grad s) eqn:Hrs, (requires_grad d) eqn:Hrd;
    simpl; try reflexivity;
    rewrite (requires_grad__case _ _ _ _ Hd); simpl;
    by destruct (is_floating_point (tl_dtype (data d))).
Qed.

Lemma set_requires_grad_if_needed_run src dst s d (e : Env) :
  parameters (heap e) !! src = Some s →
  parameters (heap e) !! dst = Some d →
  flag_refused s d = false →
  set_requires_grad_if_needed src dst e
  = (inr tt,
     if bool_decide (requires_grad s ≠ requires_grad d)
     then {| heap := set_parameter dst
                       {| data := data d; requires_grad := requires_grad s |}
                       (heap e);
             log := log e ++ [EvRequiresGrad dst (requires_grad s)] |}
     else e).
Proof.
  intros Hs Hd Hok.
  by rewrite (set_requires_grad_if_needed_case _ _ _ _ _ Hs Hd), Hok.
Qed.

(** ** Transition to the unsharded state *)

(** C9: [to_unsharded] first gives the view the shard's [requires_grad],
    calling [requires_grad_] exactly when the two flags differ.  The call
    is refused when it would set the flag on a view of an integer dtype:
    [to_unsharded] then raises [RuntimeError] and has changed nothing.
    Otherwise it binds the unsharded view under the owning module's
    name and, in the same call, under every shared module and name, so
    that each module that shares the parameter sees the view afterwards;
    the view's [requires_grad] has become the shard's.  Coming from
    [SHARDED_POST_FORWARD], the post-forward parameter and its data are
    released; otherwise they are left as they are. *)
Theorem to_unsharded_rebinds (w : World) (unsharded : nat)
    (shard view : nn_Parameter) :
  _unsharded_param (self w) = Some unsharded →
  parameters (heap (env w)) !! sharded_param (self w) = Some shard →
  parameters (heap (env w)) !! unsharded = Some view →
  (flag_refused shard view = true →
   to_unsharded w
   = (inl (RuntimeError
             "only Tensors of floating point dtype can require gradients"), w))
  ∧ (flag_refused shard view = false →
  ∃ w',
    to_unsharded w = (inr tt, w')
    ∧ (∀ m name, (m, name) ∈ bindings (_module_info (self w)) →
         bound_parameter (heap (env w')) m name = Some unsharded)
    ∧ parameters (heap (env w')) !! unsharded
      = Some {| data := data view; requires_grad := requires_grad shard |}
    ∧ log (env w')
      = log (env w)
        ++ (if bool_decide (requires_grad shard ≠ requires_grad view)
            then [EvRequiresGrad unsharded (requires_grad shard)] else [])
        ++ (binding_event (heap (env w)) unsharded
              <$> bindings (_module_info (self w)))
    ∧ sharded_state (self w') = UNSHARDED
    ∧ _unsharded_param (self w') = Some unsharded
    ∧ (if decide (sharded_state (self w) = SHARDED_POST_FORWARD)
       then _sharded_post_forward_param (self w') = None
            ∧ _sharded_post_forward_param_data (self w') = None
       else _sharded_post_forward_param (self w')
            = _sharded_post_forward_param (self w)
            ∧ _sharded_post_forward_param_data (self w')
              = _sharded_post_forward_param_data (self w))).
Proof.
  intros Hup Hshard Hview. destruct w as [s e]. simpl in *.
  unfold to_unsharded. rewrite bind_run. simpl. rewrite Hup.
  rewrite bind_run. simpl.
  rewrite bind_run, lift_env_run. simpl.
  rewrite (set_requires_grad_if_needed_case _ _ _ _ _ Hshard Hview).
  split; intros Hok; rewrite Hok; [done|]. simpl.
  rewrite bind_run, lift_env_run, setattr_on_modules_run. simpl.
  set (e1 := if bool_decide _ then _ else e).
  assert (modules (heap e1) = modules (heap e)) as Hmod
    by (subst e1; by case_bool_decide).
  assert (parameters (heap e1) !! unsharded
          = Some {| data := data view; requires_grad := requires_grad shard |})
    as Hpar.
  { subst e1. case_bool_decide as Hrg; simpl.
    - by rewrite lookup_insert_eq.
    - rewrite Hview. destruct view as [dv rv]. simpl in *. by rewrite Hrg. }
  assert (log e1 = log e ++ (if bool_decide (requires_grad shard ≠ requires_grad view)
            then [EvRequiresGrad unsharded (requires_grad shard)] else [])) as Hlog.
  { subst e1. destruct (bool_decide _); simpl;
      [reflexivity|symmetry; apply app_nil_r]. }
  assert (∀ b, binding_event (heap e1) unsharded b = binding_event (heap e) unsharded b)
    as Hev by (intros b; unfold binding_event, get_module; by rewrite Hmod).
  clearbody e1.
  destruct (decide (sharded_state s = SHARDED_POST_FORWARD)) as [Hst|Hst].
  - rewrite bind_run. simpl. eexists. split; [reflexivity|].
    cbn [self env heap log].
    split; [intros m name Hin; by apply bind_all_bound|].
    split; [by rewrite (proj1 (proj2 (bind_all_frame _ _ _)))|].
    split; [rewrite Hlog, <- app_assoc; do 2 f_equal; unfold bindings; simpl;
            f_equal; [apply Hev|];
            apply list_fmap_ext; intros _ b _; apply Hev|].
    done.
  - rewrite bind_run. simpl. eexists. split; [reflexivity|].
    cbn [self env heap log].
    split; [intros m name Hin; by apply bind_all_bound|].
    split; [by rewrite (proj1 (proj2 (bind_all_frame _ _ _)))|].
    split; [rewrite Hlog, <- app_assoc; do 2 f_equal; unfold bindings; simpl;
            f_equal; [apply Hev|];
            apply list_fmap_ext; intros _ b _; apply Hev|].
    done.
Qed.

Lemma to_unsharded_rebinds_witness :
  match gathered_world 0 with
  | Some w =>
      ∃ w', to_unsharded w = (inr tt, w')
        ∧ bound_parameter (heap (env w')) 5 "weight" = Some 103
        ∧ bound_parameter (heap (env w')) 6 "w" = Some 103
        ∧ sharded_state (self w') = UNSHARDED
  | None => False
  end.
Proof.
  example_world w.
  match goal with
  | |- ∃ w', to_unsharded ?w = _ ∧ _ =>
      destruct (proj2 (to_unsharded_rebinds w 103 (small_shard false)
                  {| data := Plain (tensor_on 102 [4; 2] float16 cuda0 false false);
                     requires_grad := true |}
                  eq_refl eq_refl eq_refl) eq_refl)
        as (w' & Hrun & Hbound & _ & _ & Hstate & _)
  end.
  exists w'. split; [exact Hrun|].
  split; [apply Hbound; vm_compute; by left|].
  split; [apply Hbound; vm_compute; right; by left|].
  exact Hstate.
Defined.

(** ** The shard across a round trip *)

Global Instance shard_kept_preorder : PreOrder shard_kept.
Proof.
  split.
  - by intros w.
  - intros w1 w2 w3 (Hd1 & Hp1 & Hb1 & Hv1 & Hs1) (Hd2 & Hp2 & Hb2 & Hv2 & Hs2).
    repeat split; try congruence.
    intros s Hs. rewrite Hs2, Hs1; [done|done|by rewrite Hb1].
Qed.

Lemma deref_case p (e : Env) :
  deref p e
  = match parameters (heap e) !! p with
    | Some x => (inr x, e)
    | None => (inl (RuntimeError "invalid object reference"), e)
    end.
Proof.
  unfold deref. rewrite bind_run. simpl.
  by destruct (parameters (heap e) !! p).
Qed.





Lemma tensor_elems_ext (h h' : Heap) (t : Tensor) :
  storage_bytes h' (t_storage t) = storage_bytes h (t_storage t) →
  tensor_elems h' t = tensor_elems h t.
Proof. intros Hb. unfold tensor_elems. by rewrite Hb. Qed.




(** ** Relations on the environment *)

Global Instance unchanged_preorder {S} : PreOrder (@unchanged S).
Proof. split; [by intros s|intros s1 s2 s3 H1 H2; unfold unchanged in *; congruence]. Qed.

Global Instance on_env_preorder (R : Env → Env → Prop) `{!PreOrder R} :
  PreOrder (on_env R).
Proof.
  split; [intros w; unfold on_env; reflexivity|].
  intros w1 w2 w3 H1 H2. unfold on_env in *. by etrans.
Qed.

Global Instance log_grows_preorder (P : Event → Prop) : PreOrder (log_grows P).
Proof.
  split.
  - intros e. exists []. by rewrite app_nil_r.
  - intros e1 e2 e3 (evs1 & H1 & HP1) (evs2 & H2 & HP2).
    exists (evs1 ++ evs2). split; [by rewrite H2, H1, app_assoc|].
    by apply Forall_app.
Qed.

Lemma on_env_lift_env (R : Env → Env → Prop) {A} (m : M Env A) :
  preserves R m → preserves (on_env R) (lift_env m).
Proof. intros Hm w. unfold on_env. rewrite lift_env_run. apply Hm. Qed.

Lemma on_env_set_self (R : Env → Env → Prop) `{!Reflexive R} f :
  preserves (on_env R) (set_self f).
Proof. intros w. unfold on_env. simpl. reflexivity. Qed.

Lemma log_grows_emit (P : Event → Prop) ev : P ev → preserves (log_grows P) (emit ev).
Proof. intros HP e. exists [ev]. split; [done|]. by apply Forall_singleton. Qed.

Lemma log_grows_modify_heap (P : Event → Prop) f :
  preserves (log_grows P) (modify_heap f).
Proof. intros e. exists []. simpl. by rewrite app_nil_r. Qed.

Lemma log_grows_fresh (P : Event → Prop) : preserves (log_grows P) fresh.
Proof. intros e. exists []. simpl. by rewrite app_nil_r. Qed.

Lemma log_grows_lift_heap (P : Event → Prop) {A} (m : M Heap A) :
  preserves (log_grows P) (lift_heap m).
Proof. intros e. rewrite lift_heap_run. exists []. simpl. by rewrite app_nil_r. Qed.

(** Steps through a computation on the environment or on the world,
    leaving the side conditions on emitted events to [solve_event]. *)
Ltac log_grows_tac solve_event :=
  repeat first
    [ apply on_env_lift_env
    | apply on_env_set_self; apply _
    | apply log_grows_emit; solve_event
    | apply log_grows_modify_heap
    | apply log_grows_fresh
    | apply log_grows_lift_heap
    | apply narrow0_preserves; apply _
    | apply view_infer_preserves; apply _
    | apply slice0_preserves; apply _
    | preserves_step ].

(** Read-only computations. *)
Ltac unchanged_tac :=
  repeat first
    [ apply narrow0_preserves; apply _
    | apply view_infer_preserves; apply _
    | apply slice0_preserves; apply _
    | preserves_step ].

Lemma deref_unchanged p : preserves unchanged (deref p).
Proof. unfold deref. unchanged_tac. Qed.

Lemma sharded_local_tensor_unchanged s : preserves unchanged (_sharded_local_tensor s).
Proof.
  unfold _sharded_local_tensor.
  apply preserves_bind; [apply _|apply deref_unchanged|]. intros ?. unchanged_tac.
Qed.

Lemma as_strided_unchanged t size stride : preserves unchanged (as_strided t size stride).
Proof. unfold as_strided. unchanged_tac. Qed.

Lemma lift_env_unchanged {A} (m : M Env A) :
  preserves unchanged m → preserves unchanged (lift_env m).
Proof.
  intros Hm w. unfold unchanged. rewrite lift_env_run. simpl.
  rewrite (Hm (env w)). apply world_eta.
Qed.

Lemma unflatten_unchanged : preserves unchanged _unflatten_all_gather_outputs.
Proof. unfold _unflatten_all_gather_outputs. unchanged_tac. Qed.

Lemma param_dtype_or_orig_unchanged : preserves unchanged param_dtype_or_orig.
Proof. unfold param_dtype_or_orig. unchanged_tac. Qed.

(** From a run to the relation between its two states. *)
Lemma preserves_run {S A} (R : S → S → Prop) (m : M S A) s r s' :
  preserves R m → m s = (r, s') → R s s'.
Proof. intros Hm Hrun. specialize (Hm s). by rewrite Hrun in Hm. Qed.

Lemma unchanged_run {S A} (m : M S A) s r s' :
  preserves unchanged m → m s = (r, s') → s' = s.
Proof. intros Hm Hrun. exact (preserves_run unchanged m s r s' Hm Hrun). Qed.

(** ** Constructing the unsharded view *)

Ltac reassembly_event_tac :=
  solve [ left; eauto | right; eauto 10 ].

Lemma alloc_storage_log_grows p t :
  preserves (log_grows (reassembly_event p)) (alloc_storage t).
Proof.
  unfold alloc_storage, resize_. log_grows_tac reassembly_event_tac.
Qed.

Lemma later_call_log `{Externals} (w : World) (p : nat) :
  _unsharded_param (self w) = Some p →
  on_env (log_grows (reassembly_event p)) w (init_unsharded_param w).2.
Proof.
  intros Hup. unfold init_unsharded_param. rewrite bind_run. simpl. rewrite Hup.
  preserves_from_here (on_env (log_grows (reassembly_event p))).
  unfold _unflatten_all_gather_outputs, param_dtype_or_orig,
    clear_extensions_data, call_post_all_gather, _sharded_local_tensor, deref.
  log_grows_tac reassembly_event_tac.
  all: try apply alloc_storage_log_grows.
Qed.

Lemma later_call_noop `{Externals} (w : World) (p : nat) inner :
  _unsharded_param (self w) = Some p →
  (_sharded_local_tensor (self w) (env w)).1 = inr inner →
  t_has_post inner = false →
  init_unsharded_param w = (inr tt, w).
Proof.
  intros Hup Hinner Hpost. unfold init_unsharded_param.
  rewrite bind_run. simpl. rewrite Hup.
  rewrite bind_run, lift_env_run.
  destruct (_sharded_local_tensor (self w) (env w)) as [r e1] eqn:Hrun.
  simpl in Hinner. subst r.
  apply unchanged_run in Hrun as ->; [|apply sharded_local_tensor_unchanged].
  simpl. rewrite Hpost. simpl. by rewrite world_eta.
Qed.

Lemma Parameter_new_case x (e : Env) :
  Parameter_new x e
  = if is_floating_point (tl_dtype x)
    then (inr (next_id (heap e)),
          {| heap := set_parameter (next_id (heap e))
                       {| data := x; requires_grad := true |} (take_id (heap e));
             log := log e ++ [EvParameter (next_id (heap e)) x] |})
    else (inl (RuntimeError
                 "Only Tensors of floating point and complex dtype can require gradients"),
          e).
Proof. unfold Parameter_new. by destruct (is_floating_point (tl_dtype x)). Qed.

Lemma Parameter_new_run x (e : Env) :
  is_floating_point (tl_dtype x) = true →
  Parameter_new x e
  = (inr (next_id (heap e)),
     {| heap := set_parameter (next_id (heap e))
                  {| data := x; requires_grad := true |} (take_id (heap e));
        log := log e ++ [EvParameter (next_id (heap e)) x] |}).
Proof. intros Hfp. by rewrite Parameter_new_case, Hfp. Qed.

Lemma Parameter_new_inv x (e e' : Env) p :
  Parameter_new x e = (inr p, e') → is_floating_point (tl_dtype x) = true.
Proof.
  rewrite Parameter_new_case. by destruct (is_floating_point (tl_dtype x)).
Qed.

Lemma first_call_constructs `{Externals} (w w' : World) :
  _unsharded_param (self w) = None →
  init_unsharded_param w = (inr tt, w') →
  ∃ p value flag pre,
    _unsharded_param (self w') = Some p
    ∧ log (env w') = log (env w) ++ pre ++ [EvParameter p value; EvRequiresGrad p flag]
    ∧ Forall (λ ev, is_parameter_event ev = false) pre
    ∧ parameters (heap (env w')) !! p = Some {| data := value; requires_grad := flag |}.
Proof.
  intros Hnone Hrun. unfold init_unsharded_param in Hrun.
  rewrite bind_run in Hrun. simpl in Hrun. rewrite Hnone in Hrun.
  apply bind_inv in Hrun as (inner & w1 & Hinner & Hrun).
  apply unchanged_run in Hinner as ->;
    [|apply lift_env_unchanged, sharded_local_tensor_unchanged].
  apply bind_inv in Hrun as (ut & w2 & Hut & Hrun).
  assert (on_env (log_grows (λ ev, is_parameter_event ev = false)) w w2)
    as (pre & Hpre & HP).
  { eapply preserves_run; [|exact Hut].
    unfold _unflatten_all_gather_outputs, param_dtype_or_orig,
      clear_extensions_data, call_post_all_gather.
    log_grows_tac ltac:(done). }
  clear Hut.
  apply bind_inv in Hrun as (up & w3 & Hup & Hrun).
  apply unchanged_run in Hup as ->;
    [|apply lift_env_unchanged, as_strided_unchanged].
  apply bind_inv in Hrun as (value & w4 & Hval & Hrun).
  apply unchanged_run in Hval as ->; [|unchanged_tac].
  rewrite bind_run, lift_env_run, Parameter_new_case in Hrun.
  destruct (is_floating_point (tl_dtype value)) eqn:Hfp; [|done].
  simpl in Hrun.
  rewrite bind_run in Hrun. simpl in Hrun.
  apply bind_inv in Hrun as (sharded & w5 & Hsh & Hrun).
  apply unchanged_run in Hsh as ->;
    [|apply lift_env_unchanged, deref_unchanged].
  rewrite lift_env_run in Hrun. simpl in Hrun.
  erewrite requires_grad__run in Hrun;
    [|simpl; apply lookup_insert_eq|exact Hfp].
  simpl in Hrun. injection Hrun as <-. simpl.
  eexists _, _, _, pre. split; [reflexivity|].
  split; [by rewrite Hpre, <- !app_assoc|].
  split; [done|]. by rewrite lookup_insert_eq.
Qed.

Lemma call_post_all_gather_run `{Externals} inner outputs metadata d out (e : Env) :
  call_post_all_gather inner outputs metadata d out e
  = ((fsdp_post_all_gather inner outputs metadata d out (heap e)).1,
     {| heap := (fsdp_post_all_gather inner outputs metadata d out (heap e)).2;
        log := log e ++ [EvPostAllGather inner outputs metadata d out] |}).
Proof.
  unfold call_post_all_gather. rewrite bind_run. simpl.
  by rewrite lift_heap_run.
Qed.

Lemma alloc_storage_resizes t : preserves (log_grows is_resize_event) (alloc_storage t).
Proof.
  unfold alloc_storage, resize_.
  log_grows_tac ltac:(unfold is_resize_event; eauto).
Qed.

Lemma later_call_reassembles `{Externals} (w w' : World) (p : nat) inner :
  _unsharded_param (self w) = Some p →
  (_sharded_local_tensor (self w) (env w)).1 = inr inner →
  t_has_post inner = true →
  init_unsharded_param w = (inr tt, w') →
  ∃ resizes outputs metadata d,
    log (env w')
    = log (env w) ++ resizes
      ++ [EvPostAllGather inner outputs metadata d (Some p)]
    ∧ Forall is_resize_event resizes.
Proof.
  intros Hup Hinner Hpost Hrun. unfold init_unsharded_param in Hrun.
  rewrite bind_run in Hrun. simpl in Hrun. rewrite Hup in Hrun.
  rewrite bind_run, lift_env_run in Hrun.
  destruct (_sharded_local_tensor (self w) (env w)) as [r e1] eqn:Hloc.
  simpl in Hinner. subst r.
  apply unchanged_run in Hloc as ->; [|apply sharded_local_tensor_unchanged].
  simpl in Hrun. rewrite Hpost in Hrun. simpl in Hrun.
  apply bind_inv in Hrun as ([] & w1 & Halloc & Hrun).
  assert (on_env (log_grows is_resize_event) w w1) as (resizes & Hres & HP).
  { rewrite <- (world_eta w). eapply preserves_run; [|exact Halloc].
    apply on_env_lift_env, preserves_for_each; [apply _|].
    apply alloc_storage_resizes. }
  clear Halloc.
  apply bind_inv in Hrun as (outputs & w2 & Hout & Hrun).
  apply unchanged_run in Hout as ->; [|apply unflatten_unchanged].
  apply bind_inv in Hrun as (ext & w3 & Hext & Hrun).
  apply unchanged_run in Hext as ->; [|unchanged_tac].
  apply bind_inv in Hrun as (d & w4 & Hd & Hrun).
  apply unchanged_run in Hd as ->; [|apply param_dtype_or_orig_unchanged].
  apply bind_inv in Hrun as (r & w5 & Hcall & Hrun).
  rewrite lift_env_run, call_post_all_gather_run in Hcall. simpl in Hcall.
  injection Hcall as _ <-.
  assert (on_env (log_grows (λ _, False)) 
            {| self := self w1;
               env := {| heap := (fsdp_post_all_gather inner outputs
                                    (all_gather_metadata ext) d (Some p)
                                    (heap (env w1))).2;
                         log := log (env w1)
                                ++ [EvPostAllGather inner outputs
                                      (all_gather_metadata ext) d (Some p)] |} |}
            w') as (evs & Hlog & Hnone).
  { eapply preserves_run; [|exact Hrun].
    unfold clear_extensions_data. log_grows_tac ltac:(done). }
  destruct evs as [|ev evs]; [|by apply Forall_cons in Hnone as [[] _]].
  rewrite app_nil_r in Hlog. simpl in Hlog.
  exists resizes, outputs, (all_gather_metadata ext), d.
  split; [|done]. by rewrite Hlog, Hres, <- app_assoc.
Qed.

Lemma length_make_contiguous_strides_for size :
  length (make_contiguous_strides_for size) = length size.
Proof. induction size as [|n size IH]; simpl; [done|by rewrite IH]. Qed.

Lemma construct_view_refused {A} (value : TensorLike)
    (rest : nat → M World A) (w : World) :
  is_floating_point (tl_dtype value) = false →
  (lift_env (Parameter_new value) ≫= rest) w
  = (inl (RuntimeError
            "Only Tensors of floating point and complex dtype can require gradients"),
     w).
Proof.
  intros Hfp. destruct w as [s e].
  by rewrite bind_run, lift_env_run, Parameter_new_case, Hfp.
Qed.

Lemma construct_view_tail (value : TensorLike) (shard : nat) (w : World) :
  is_floating_point (tl_dtype value) = true →
  is_Some (parameters (heap (env w)) !! shard) →
  ∃ w',
    (lift_env (Parameter_new value)
     ≫= λ p, set_self (set_unsharded_param (Some p))
     ≫= λ _, lift_env (deref shard)
     ≫= λ sharded, lift_env (requires_grad_ p (requires_grad sharded))) w
    = (inr tt, w').
Proof.
  intros Hfp [x Hx]. destruct w as [s e]. simpl in *.
  rewrite bind_run, lift_env_run, Parameter_new_run by done. simpl.
  rewrite bind_run. simpl. rewrite bind_run, lift_env_run, deref_case. simpl.
  set (y := {| data := value; requires_grad := true |}).
  assert (∃ z, <[next_id (heap e) := y]> (parameters (heap e)) !! shard = Some z)
    as [z ->].
  { destruct (decide (next_id (heap e) = shard)) as [<-|Hne].
    - exists y. apply lookup_insert_eq.
    - exists x. by rewrite lookup_insert_ne. }
  simpl. rewrite lift_env_run. simpl.
  erewrite requires_grad__run; [|simpl; apply lookup_insert_eq|exact Hfp].
  simpl. by eexists.
Qed.

(** The first call for the default representation, its one output being
    allocated: it returns when the output is of a floating point dtype,
    and otherwise [nn.Parameter] refuses the output and nothing has
    changed. *)
Lemma first_call_default_run `{Externals} (w : World) d flag out :
  _unsharded_param (self w) = None →
  parameters (heap (env w)) !! sharded_param (self w)
  = Some {| data := Dist d; requires_grad := flag |} →
  t_has_post (_local_tensor d) = false →
  all_gather_outputs (self w) = [out] →
  extent 0 (_orig_size (self w)) (make_contiguous_strides_for (_orig_size (self w)))
    * itemsize (t_dtype out) ≤ storage_size (heap (env w)) (t_storage out) →
  (is_dtensor (self w) = true → is_Some (_tp_spec (self w))) →
  if is_floating_point (t_dtype out)
  then ∃ w', init_unsharded_param w = (inr tt, w')
  else init_unsharded_param w
       = (inl (RuntimeError
                 "Only Tensors of floating point and complex dtype can require gradients"),
          w).
Proof.
  intros Hnone Hsh Hpost Hout Hfit Htp.
  destruct w as [s e]. simpl in *.
  assert (_sharded_local_tensor s e = (inr (_local_tensor d), e)) as Hloc.
  { unfold _sharded_local_tensor. by rewrite bind_run, (deref_run _ _ _ Hsh). }
  unfold init_unsharded_param. rewrite bind_run. simpl. rewrite Hnone.
  rewrite bind_run, lift_env_run. cbn [self env]. rewrite Hloc.
  simpl. rewrite Hpost. simpl.
  rewrite Hout. simpl. rewrite bind_run. simpl.
  rewrite bind_run, lift_env_run. unfold as_strided.
  rewrite bind_run. simpl.
  rewrite decide_True by (by rewrite length_make_contiguous_strides_for).
  rewrite decide_True by done. simpl.
  destruct (is_floating_point (t_dtype out)) eqn:Hfp;
    destruct (is_dtensor s) eqn:Hdt.
  - destruct (Htp eq_refl) as [tp Htp']. rewrite Htp'. simpl.
    rewrite bind_run. simpl. apply construct_view_tail; simpl; eauto.
  - rewrite bind_run. simpl. apply construct_view_tail; simpl; eauto.
  - destruct (Htp eq_refl) as [tp Htp']. rewrite Htp'. simpl.
    rewrite bind_run. simpl. by apply construct_view_refused.
  - rewrite bind_run. simpl. by apply construct_view_refused.
Qed.

(** ** Views *)

Lemma numel_app l k : numel (l ++ k) = numel l * numel k.
Proof. induction l as [|x l IH]; simpl; [lia|]. rewrite IH. lia. Qed.

Lemma numel_reverse l : numel (reverse l) = numel l.
Proof.
  induction l as [|x l IH]; [done|].
  rewrite reverse_cons, numel_app, IH. simpl. lia.
Qed.

Lemma numel_nonzero l : numel l ≠ 0 ↔ Forall (λ v, 1 ≤ v) l.
Proof.
  induction l as [|x l IH]; simpl.
  - split; [constructor|lia].
  - rewrite Forall_cons, <- IH. nia.
Qed.

Lemma view_chunk_ones rview base acc :
  Forall (λ v, 1 ≤ v) rview →
  ∃ rview' acc',
    view_chunk rview 1 base 1 acc = (rview', 1, acc')
    ∧ Forall (λ v, 1 ≤ v) rview' ∧ numel rview' = numel rview.
Proof.
  intros Hpos. revert acc.
  induction Hpos as [|v rest Hv Hrest IH]; intros acc; simpl.
  { by exists [], acc. }
  case_decide as Hc.
  - assert (v = 1) as -> by lia. simpl.
    destruct (IH (1 * base :: acc)) as (rview' & acc' & Heq & Hpos' & Hn).
    simpl in Heq. rewrite Heq.
    exists rview', acc'. split; [done|]. split; [done|]. lia.
  - exists (v :: rest), acc. split; [done|]. split; [by constructor|done].
Qed.

Lemma view_chunk_all rview T base vn acc :
  Forall (λ v, 1 ≤ v) rview → 1 ≤ T → vn * numel rview = T →
  ∃ acc', view_chunk rview T base vn acc = ([], T, acc').
Proof.
  intros Hpos HT. revert vn acc.
  induction Hpos as [|v rest Hv Hrest IH]; intros vn acc Hn; simpl in *.
  { exists acc. f_equal. f_equal. lia. }
  apply numel_nonzero in Hrest as Hnr.
  case_decide as Hc.
  - apply IH. by rewrite <- Nat.mul_assoc.
  - exfalso.
    assert (2 * 1 ≤ v * numel rest) by (apply Nat.mul_le_mono; lia).
    assert (vn * 2 ≤ vn * (v * numel rest)) by (apply Nat.mul_le_mono_l; lia).
    lia.
Qed.

Lemma contig_rev_snoc P l n s :
  contig_rev P (l ++ [(n, s)])
  ↔ contig_rev P l ∧ (n ≠ 1 → s = P * numel l.*1).
Proof.
  revert P. induction l as [|[n' s'] l IH]; intros P; simpl.
  - rewrite Nat.mul_1_r. tauto.
  - rewrite IH, Nat.mul_assoc. tauto.
Qed.

Lemma compute_stride_from_contig rold :
  ∀ rview base tn acc P,
    rold ≠ [] →
    Forall (λ x, 1 ≤ x.1) rold → Forall (λ v, 1 ≤ v) rview →
    contig_rev P rold → 1 ≤ tn →
    base * tn = P ∨ (tn = 1 ∧ P = 1 ∧ ∃ s rest, rold = (1, s) :: rest) →
    numel rview = tn * numel rold.*1 →
    is_Some (compute_stride_from rold rview base tn acc).
Proof.
  induction rold as [|[n s] rest IH];
    intros rview base tn acc P Hne Hpos Hview Hcontig Htn Hphase Hnumel;
    [done|].
  apply Forall_cons in Hpos as [Hn Hpos]. simpl in Hn.
  destruct Hcontig as [Hs Hcontig].
  cbn [compute_stride_from]. cbn zeta.
  destruct rest as [|[n' s'] rest'].
  - destruct (view_chunk_all rview (tn * n) base 1 acc) as [acc' ->];
      [done|nia|simpl in *; lia|].
    by rewrite decide_True.
  - destruct Hcontig as [Hs' Hcontig'].
    case_bool_decide as Hbreak.
    + destruct Hbreak as [Hn' Hne'].
      specialize (Hs' Hn').
      destruct Hphase as [Hphase|(-> & -> & s0 & rest0 & [= -> _ _])];
        [exfalso; apply Hne'; rewrite Hs'; nia|].
      simpl. destruct (view_chunk_ones rview base acc Hview)
        as (rview' & acc' & -> & Hview' & Hn'').
      rewrite decide_True by done.
      apply (IH rview' s' 1 acc' (1 * 1)); try done.
      * left. simpl in *. lia.
      * rewrite Hn'', Hnumel. simpl. lia.
    + apply (IH rview base (tn * n) acc (P * n)); try done.
      * nia.
      * destruct Hphase as [Hphase|(-> & -> & s0 & rest0 & [= -> _ _])];
          [left; nia|].
        destruct (decide (n' = 1)) as [->|Hn'].
        -- right. simpl. split; [done|]. split; [done|]. by eexists _, _.
        -- left. specialize (Hs' Hn').
           assert (s' = 1 * 1 * base) as Hb
             by (destruct (decide (s' = 1 * 1 * base)); [done|by destruct Hbreak]).
           simpl in *. lia.
      * rewrite Hnumel. simpl. lia.
Qed.

Lemma contiguous_from_spec size stride e :
  contiguous_from size stride = Some e →
  length stride = length size ∧ e = numel size
  ∧ contig_rev 1 (reverse (zip size stride)).
Proof.
  revert stride e. induction size as [|n size IH]; intros [|st stride] e He;
    simpl in He; try done.
  { by injection He as <-. }
  destruct (contiguous_from size stride) as [e'|] eqn:He'; [|done].
  simpl in He. destruct (IH _ _ He') as (Hlen & -> & Hc).
  assert ((reverse (zip size stride)).*1 = reverse size) as Hfst.
  { rewrite fmap_reverse. f_equal. apply fst_zip. lia. }
  simpl. rewrite reverse_cons, contig_rev_snoc, Hfst, numel_reverse.
  case_decide as Hn.
  - injection He as <-. subst n. split; [by rewrite Hlen|].
    split; [lia|]. split; [done|]. done.
  - case_decide as Hst; [|done]. injection He as <-.
    split; [by rewrite Hlen|]. split; [done|]. split; [done|].
    intros _. lia.
Qed.

(** A contiguous tensor has a view of every shape with as many elements. *)
Lemma compute_stride_contiguous size stride newshape :
  numel size = 0 ∨ is_Some (contiguous_from size stride) →
  numel newshape = numel size →
  is_Some (compute_stride size stride newshape).
Proof.
  intros Hc Hnumel. unfold compute_stride.
  case_decide as Hnil; [done|].
  case_decide as Hz; [by case_decide|].
  destruct Hc as [?|[e He]]; [done|].
  apply contiguous_from_spec in He as (Hlen & _ & Hcontig).
  destruct size as [|n0 size0] using rev_ind; [done|]. clear IHsize0.
  destruct stride as [|s0 stride0] using rev_ind;
    [rewrite length_app in Hlen; simpl in Hlen; lia|]. clear IHstride0.
  rewrite !length_app in Hlen. simpl in Hlen.
  rewrite zip_with_app in Hcontig |- * by lia.
  change (zip_with pair [n0] [s0]) with [(n0, s0)] in *.
  rewrite reverse_snoc in Hcontig |- *. rewrite last_snoc.
  change (default 0 (Some s0)) with s0.
  apply numel_nonzero in Hz as Hpos.
  apply (compute_stride_from_contig _ _ _ _ _ 1); try done.
  - constructor.
    + apply Forall_app in Hpos as [_ Hpos]. simpl.
      by eapply Forall_inv in Hpos.
    + apply Forall_reverse, Forall_forall. intros [n s] Hin.
      apply elem_of_zip_l in Hin. simpl.
      apply Forall_app in Hpos as [Hpos _].
      by eapply Forall_forall in Hpos.
  - apply Forall_reverse, numel_nonzero. by rewrite Hnumel.
  - destruct (decide (n0 = 1)) as [->|Hn0].
    + right. split; [done|]. split; [done|]. by eexists _, _.
    + left. destruct Hcontig as [Hs _]. rewrite (Hs Hn0). lia.
  - rewrite numel_reverse, Hnumel, numel_app. simpl.
    rewrite fmap_reverse, numel_reverse, fst_zip by lia. lia.
Qed.

Lemma exact_rev_snoc P l n s :
  exact_rev P (l ++ [(n, s)]) ↔ exact_rev P l ∧ s = P * numel l.*1.
Proof.
  revert P. induction l as [|[n' s'] l IH]; intros P; simpl.
  - rewrite Nat.mul_1_r. tauto.
  - rewrite IH, Nat.mul_assoc. tauto.
Qed.

Lemma compute_stride_from_exact rold :
  ∀ tn N,
    rold ≠ [] → Forall (λ x, 1 ≤ x.1) rold → exact_rev tn rold → 1 ≤ tn →
    N = tn * numel rold.*1 →
    compute_stride_from rold [N] 1 tn [] = Some [1].
Proof.
  induction rold as [|[n s] rest IH]; intros tn N Hne Hpos Hexact Htn HN;
    [done|].
  apply Forall_cons in Hpos as [Hn Hpos]. simpl in Hn.
  destruct Hexact as [Hs Hexact].
  cbn [compute_stride_from]. cbn zeta.
  destruct rest as [|[n' s'] rest'].
  - simpl in HN. rewrite Nat.mul_1_r in HN. subst N.
    cbn [view_chunk].
    rewrite decide_True by (destruct (decide (tn * n = 1)); [by right|left; nia]).
    cbn [view_chunk]. rewrite Nat.mul_1_l, decide_True by done.
    by rewrite Nat.mul_1_l.
  - destruct Hexact as [Hs' Hexact'].
    rewrite bool_decide_false by (intros [_ Hne']; apply Hne'; lia).
    apply IH; try done.
    + nia.
    + rewrite HN. simpl. lia.
Qed.

Lemma numel_cons n size : numel (n :: size) = n * numel size.
Proof. reflexivity. Qed.

Lemma numel_max_1 size : numel size ≠ 0 → Nat.max 1 <$> size = size.
Proof.
  induction size as [|n size IH]; [done|]. rewrite numel_cons. intros Hn.
  rewrite fmap_cons, IH by lia. f_equal. lia.
Qed.

Lemma exact_rev_contiguous size :
  numel size ≠ 0 →
  exact_rev 1 (reverse (zip size (make_contiguous_strides_for size))).
Proof.
  induction size as [|n size IH]; [done|]. intros Hn.
  assert (numel size ≠ 0) as Hn' by (simpl in Hn; lia).
  cbn [make_contiguous_strides_for zip_with].
  rewrite reverse_cons, exact_rev_snoc. split; [by apply IH|].
  rewrite numel_max_1 by done.
  rewrite fmap_reverse, numel_reverse, fst_zip; [lia|].
  clear. induction size; simpl; lia.
Qed.

Lemma last_make_contiguous_strides_for size :
  size ≠ [] → last (make_contiguous_strides_for size) = Some 1.
Proof.
  induction size as [|n [|m size] IH]; [done|done|]. intros _.
  change (make_contiguous_strides_for (n :: m :: size))
    with (numel (Nat.max 1 <$> m :: size)
            :: make_contiguous_strides_for (m :: size)).
  rewrite last_cons, IH by done. done.
Qed.

(** The flat view of a tensor with the strides of a contiguous one. *)
Lemma compute_stride_flat size :
  compute_stride size (make_contiguous_strides_for size) [numel size] = Some [1].
Proof.
  unfold compute_stride.
  case_decide as Hnil; [done|].
  case_decide as Hz.
  { case_decide as Heq; [|done].
    destruct size as [|n [|m size]]; try done. }
  rewrite last_make_contiguous_strides_for by done.
  change (default 0 (Some 1)) with 1.
  change (reverse [numel size]) with [numel size].
  apply compute_stride_from_exact; try done.
  - intros Hrev. apply (f_equal reverse) in Hrev.
    rewrite reverse_involutive in Hrev.
    destruct size; [done|]. simpl in Hrev. done.
  - apply Forall_reverse, Forall_forall. intros [n s] Hin.
    apply elem_of_zip_l in Hin. simpl.
    apply numel_nonzero in Hz. by eapply Forall_forall in Hz.
  - by apply exact_rev_contiguous.
  - rewrite fmap_reverse, numel_reverse, fst_zip; [lia|].
    clear. induction size; simpl; lia.
Qed.

Lemma is_contiguous_spec (t : Tensor) :
  is_contiguous t = true
  ↔ numel (t_size t) = 0 ∨ is_Some (contiguous_from (t_size t) (t_stride t)).
Proof.
  unfold is_contiguous. rewrite orb_true_iff, !bool_decide_eq_true. tauto.
Qed.

Lemma view_flat_case {S} (t : Tensor) (s : S) :
  view_flat t s
  = match flat_view t with
    | Some v => (inr v, s)
    | None =>
        (inl (RuntimeError
                "view size is not compatible with input tensor's size and stride"),
         s)
    end.
Proof.
  unfold view_flat, view_infer, infer_size, flat_view.
  change (numel []) with 1.
  rewrite (bool_decide_true (0 < 1 ∧ _)) by (rewrite Nat.mod_1_r; lia).
  rewrite orb_true_r, decide_False by lia.
  rewrite bind_run. cbn [mret M_ret]. rewrite Nat.div_1_r.
  by destruct (compute_stride _ _ _).
Qed.




(** ** The all-gather inputs *)


Lemma sharded_local_tensor_run (s : FSDPParam) (e : Env) d flag :
  parameters (heap e) !! sharded_param s
  = Some {| data := Dist d; requires_grad := flag |} →
  _sharded_local_tensor s e = (inr (_local_tensor d), e).
Proof.
  intros Hsh. unfold _sharded_local_tensor.
  by rewrite bind_run, (deref_run _ _ _ Hsh).
Qed.


Lemma length_read_elem bytes isz pos : length (read_elem bytes isz pos) = isz.
Proof. unfold read_elem. apply length_resize. Qed.






(** ** The post-forward reshard *)

Lemma length_list_bind {A B} (f : A → list B) (l : list A) k :
  (∀ x, length (f x) = k) → length (l ≫= f) = length l * k.
Proof.
  intros Hf. induction l as [|x l IH]; [done|].
  rewrite bind_cons, length_app, Hf, IH. simpl. lia.
Qed.

Lemma length_indices size : length (indices size) = numel size.
Proof.
  induction size as [|n size IH]; [done|]. simpl.
  rewrite (length_list_bind _ _ (numel size)).
  - by rewrite length_seq.
  - intros i. by rewrite length_fmap.
Qed.










(** ** The chunk partitioner *)

Lemma ceil_div_covers n d : 0 < d → n ≤ ceil_div n d * d.
Proof.
  intros Hd. unfold ceil_div.
  pose proof (Nat.div_mod_eq (n + d - 1) d) as Heq.
  pose proof (Nat.mod_upper_bound (n + d - 1) d). nia.
Qed.

Lemma ceil_div_tight n d : 0 < d → 0 < n → (ceil_div n d - 1) * d < n.
Proof.
  intros Hd Hn. unfold ceil_div.
  pose proof (Nat.div_mod_eq (n + d - 1) d) as Heq.
  pose proof (Nat.mod_upper_bound (n + d - 1) d). nia.
Qed.

Lemma ceil_div_pos n d : 0 < d → 0 < n → 0 < ceil_div n d.
Proof.
  intros Hd Hn. pose proof (ceil_div_covers n d Hd). nia.
Qed.

Lemma ceil_div_zero d : ceil_div 0 d = 0.
Proof.
  unfold ceil_div. destruct d as [|d]; [done|].
  apply Nat.div_small. lia.
Qed.

Lemma chunk_rows_unfold n chunks :
  chunk_rows n chunks
  = if decide (ceil_div n chunks = 0) then replicate chunks 0
    else (λ i, Nat.min (ceil_div n chunks) (n - i * ceil_div n chunks))
           <$> seq 0 (ceil_div n (ceil_div n chunks)).
Proof. reflexivity. Qed.

Lemma length_chunk_rows n chunks :
  0 < chunks → 1 ≤ length (chunk_rows n chunks) ≤ chunks.
Proof.
  intros Hc. rewrite chunk_rows_unfold.
  destruct (decide (ceil_div n chunks = 0)) as [Hz|Hnz].
  - rewrite length_replicate. lia.
  - rewrite length_fmap, length_seq.
    assert (0 < n) as Hn.
    { destruct n; [|lia]. by rewrite ceil_div_zero in Hnz. }
    pose proof (ceil_div_covers n chunks Hc).
    pose proof (ceil_div_pos n (ceil_div n chunks) ltac:(lia) Hn).
    pose proof (ceil_div_tight n (ceil_div n chunks) ltac:(lia) Hn).
    split; [lia|]. nia.
Qed.

Lemma length_padded_chunk_rows n chunks :
  0 < chunks → length (padded_chunk_rows n chunks) = chunks.
Proof.
  intros Hc. unfold padded_chunk_rows.
  rewrite length_app, length_replicate.
  pose proof (length_chunk_rows n chunks Hc). lia.
Qed.

Lemma lookup_padded_chunk_rows n chunks k :
  k < chunks →
  padded_chunk_rows n chunks !! k
  = Some (Nat.min (ceil_div n chunks) (n - k * ceil_div n chunks)).
Proof.
  intros Hk. unfold padded_chunk_rows.
  rewrite chunk_rows_unfold.
  destruct (decide (ceil_div n chunks = 0)) as [Hz|Hnz].
  - rewrite length_replicate, Nat.sub_diag, app_nil_r.
    rewrite lookup_replicate_2 by done. rewrite Hz. done.
  - set (c := ceil_div n chunks) in *.
    assert (0 < n) as Hn.
    { destruct n; [|lia]. subst c. by rewrite ceil_div_zero in Hnz. }
    destruct (decide (k < ceil_div n c)) as [Hlt|Hge].
    + rewrite lookup_app_l by (by rewrite length_fmap, length_seq).
      rewrite list_lookup_fmap, lookup_seq_lt by done. done.
    + rewrite lookup_app_r by (rewrite length_fmap, length_seq; lia).
      rewrite length_fmap, length_seq.
      rewrite lookup_replicate_2.
      2:{ pose proof (length_chunk_rows n chunks ltac:(lia)) as Hlen.
          rewrite chunk_rows_unfold, decide_False in Hlen by done.
          rewrite length_fmap, length_seq in Hlen. fold c in Hlen. lia. }
      f_equal. pose proof (ceil_div_covers n c ltac:(lia)). nia.
Qed.

Lemma sum_chunks c : 0 < c → ∀ len n, n ≤ len * c →
  sum_list ((λ i, Nat.min c (n - i * c)) <$> seq 0 len) = n.
Proof.
  intros Hc len. induction len as [|len IH]; intros n Hn; simpl; [lia|].
  rewrite <- fmap_S_seq, <- list_fmap_compose.
  erewrite list_fmap_ext; [rewrite (IH (n - c)) by lia|]; [lia|].
  intros _ i _. simpl. f_equal. lia.
Qed.

Lemma sum_padded_chunk_rows n chunks :
  0 < chunks → sum_list (padded_chunk_rows n chunks) = n.
Proof.
  intros Hc. unfold padded_chunk_rows.
  rewrite sum_list_with_app, sum_list_replicate, Nat.mul_0_r, Nat.add_0_r.
  rewrite chunk_rows_unfold.
  destruct (decide (ceil_div n chunks = 0)) as [Hz|Hnz].
  - rewrite sum_list_replicate.
    pose proof (ceil_div_covers n chunks Hc). nia.
  - apply sum_chunks; [lia|].
    apply ceil_div_covers. lia.
Qed.

(** ** Construction *)

Global Instance same_objects_preorder : PreOrder same_objects.
Proof.
  split; [by intros e|].
  intros e1 e2 e3 [Hp1 Hm1] [Hp2 Hm2]. split; congruence.
Qed.

Lemma same_objects_emit ev : preserves same_objects (emit ev).
Proof. by intros e. Qed.

Lemma same_objects_fresh : preserves same_objects fresh.
Proof. by intros e. Qed.

Lemma same_objects_set_storage s bytes :
  preserves same_objects (modify_heap (set_storage s bytes)).
Proof. by intros e. Qed.

Ltac same_objects_tac :=
  repeat first
    [ apply same_objects_emit
    | apply same_objects_fresh
    | apply same_objects_set_storage
    | apply narrow0_preserves; apply _
    | apply view_infer_preserves; apply _
    | apply slice0_preserves; apply _
    | preserves_step ].

Lemma new_zeros_same_objects t size : preserves same_objects (new_zeros t size).
Proof. unfold new_zeros, new_storage. same_objects_tac. Qed.

Lemma torch_chunk_preserves {S} (R : S → S → Prop) `{!PreOrder R} t chunks :
  preserves R (torch_chunk t chunks).
Proof. unfold torch_chunk. repeat preserves_step. Qed.

Lemma chunk_with_empty_same_objects t chunks :
  preserves same_objects (_chunk_with_empty t chunks).
Proof.
  unfold _chunk_with_empty.
  apply preserves_bind; [apply _|apply torch_chunk_preserves; apply _|].
  intros cs. same_objects_tac.
Qed.

Lemma torch_chunk_inv {S} t chunks (s s' : S) cs :
  torch_chunk t chunks s = (inr cs, s') →
  ∃ n rest st sts,
    t_size t = n :: rest ∧ t_stride t = st :: sts ∧ 0 < chunks ∧ s' = s
    ∧ cs = imap (λ i rows,
                   with_view t (t_offset t + i * ceil_div n chunks * st)
                     (rows :: rest) (t_stride t))
                (chunk_rows n chunks).
Proof.
  unfold torch_chunk. destruct (t_size t) as [|n rest]; [done|].
  destruct (t_stride t) as [|st sts]; [done|].
  destruct (decide (chunks = 0)); [done|]. intros Heq.
  injection Heq as <- <-. exists n, rest, st, sts.
  repeat split; try done. lia.
Qed.

Lemma new_empties_spec c0 (l : list nat) (e : Env) :
  ∃ ts e', map_m (λ _, new_empty c0 [0]) l e = (inr ts, e')
    ∧ length ts = length l
    ∧ Forall (λ t, same_kind c0 t ∧ t_size t = [0]) ts.
Proof.
  revert e. induction l as [|x l IH]; intros e; simpl.
  - by exists [], e.
  - rewrite bind_run.
    destruct (new_empty c0 [0] e) as [[ex|t] e1] eqn:Hnew; [done|].
    destruct (IH e1) as (ts & e2 & Hrun & Hlen & Hall).
    rewrite bind_run, Hrun. simpl. exists (t :: ts), e2.
    split; [done|]. split; [simpl; by rewrite Hlen|].
    apply Forall_cons. split; [|done].
    unfold new_empty, new_zeros in Hnew. rewrite bind_run in Hnew.
    destruct (new_storage _ e) as [[?|sid] ?]; [done|].
    injection Hnew as <- <-. done.
Qed.

Lemma chunk_with_empty_inv t chunks (e e' : Env) cs :
  _chunk_with_empty t chunks e = (inr cs, e') →
  ∃ n trailing,
    t_size t = n :: trailing ∧ 0 < chunks ∧ length cs = chunks
    ∧ same_objects e e'
    ∧ ∀ k ck, cs !! k = Some ck →
        same_kind t ck
        ∧ ∃ rows, padded_chunk_rows n chunks !! k = Some rows
            ∧ (t_size ck = rows :: trailing
               ∨ (t_size ck = [0] ∧ rows = 0 ∧ 0 < k)).
Proof.
  intros Hrun.
  pose proof (preserves_run same_objects _ _ _ _
                (chunk_with_empty_same_objects t chunks) Hrun) as Hobj.
  unfold _chunk_with_empty in Hrun.
  apply bind_inv in Hrun as (real & e1 & Hreal & Hrun).
  apply torch_chunk_inv in Hreal as (n & rest & st & sts & Hsz & Hstr & Hc & He & ->).
  subst e1.
  exists n, rest. split; [done|]. split; [done|].
  pose proof (length_chunk_rows n chunks Hc) as Hlen.
  set (mk := λ i rows, with_view t (t_offset t + i * ceil_div n chunks * st)
                         (rows :: rest) (t_stride t)) in *.
  assert (∀ k ck, imap mk (chunk_rows n chunks) !! k = Some ck →
            same_kind t ck
            ∧ ∃ rows, padded_chunk_rows n chunks !! k = Some rows
                ∧ t_size ck = rows :: rest) as Hreal.
  { intros k ck Hk. rewrite list_lookup_imap in Hk.
    destruct (chunk_rows n chunks !! k) as [rows|] eqn:Hrows; [|done].
    injection Hk as <-. split; [done|]. exists rows. split; [|done].
    unfold padded_chunk_rows. rewrite lookup_app_l; [done|].
    by eapply lookup_lt_Some. }
  rewrite length_imap in Hrun.
  destruct (decide (length (chunk_rows n chunks) < chunks)) as [Hlt|Hge].
  - apply bind_inv in Hrun as (c0 & e2 & Hc0 & Hrun).
    unfold index in Hc0.
    destruct (imap mk (chunk_rows n chunks) !! 0) as [c0'|] eqn:H0; [|done].
    injection Hc0 as <- <-.
    destruct (Hreal 0 c0' H0) as (Hkind0 & _).
    destruct (new_empties_spec c0' (seq 0 (chunks - length (chunk_rows n chunks))) e)
      as (ts & e3 & Hts & Hlts & Hall).
    rewrite bind_run, Hts in Hrun. simpl in Hrun. injection Hrun as <- <-.
    rewrite length_seq in Hlts.
    split; [rewrite length_app, length_imap; lia|]. split; [done|].
    intros k ck Hk.
    destruct (decide (k < length (chunk_rows n chunks))) as [Hk'|Hk'].
    + rewrite lookup_app_l in Hk by (by rewrite length_imap).
      destruct (Hreal k ck Hk) as (? & rows & ? & ?). eauto 10.
    + rewrite lookup_app_r in Hk by (rewrite length_imap; lia).
      rewrite length_imap in Hk.
      rewrite Forall_forall in Hall.
      destruct (Hall ck) as [Hkind Hsize]; [by eapply list_elem_of_lookup_2|].
      split.
      { destruct Hkind0 as (?&?&?&?), Hkind as (?&?&?&?).
        repeat split; congruence. }
      exists 0. split.
      * unfold padded_chunk_rows. rewrite lookup_app_r by lia.
        apply lookup_replicate_2. apply lookup_lt_Some in Hk. lia.
      * right. repeat split; [done|lia].
  - injection Hrun as <- <-.
    split; [rewrite length_imap; lia|]. split; [done|].
    intros k ck Hk. destruct (Hreal k ck Hk) as (? & rows & ? & ?). eauto 10.
Qed.

Lemma dtensor_placements_unchanged `{Externals} info spec :
  preserves unchanged (dtensor_placements info spec).
Proof.
  unfold dtensor_placements, list_assign. unchanged_tac.
Qed.

Lemma min_chunk_rows n chunks k rows :
  padded_chunk_rows n chunks !! k = Some rows → rows ≤ ceil_div n chunks.
Proof.
  intros Hk. destruct (decide (0 < chunks)) as [Hc|Hc].
  - rewrite lookup_padded_chunk_rows in Hk.
    + injection Hk as <-. lia.
    + apply lookup_lt_Some in Hk. by rewrite length_padded_chunk_rows in Hk.
  - assert (chunks = 0) as -> by lia. by destruct k.
Qed.

Lemma init_sharded_param_inv `{Externals} mi info pf param dev (e e' : Env) s :
  _init_sharded_param mi info pf param dev e = (inr s, e') →
  (tl_device (data param) = dev ∨ dev_type (tl_device (data param)) = "meta")
  ∧ ∃ n trailing rows d,
      t_size (local_of (data param)) = n :: trailing
      ∧ 0 < shard_mesh_size info
      ∧ padded_chunk_rows n (shard_mesh_size info) !! shard_mesh_rank info
        = Some rows
      ∧ sharded_size s = rows :: trailing
      ∧ padded_sharded_param_size s
        = ceil_div n (shard_mesh_size info) :: trailing
      ∧ parameters (heap e') !! sharded_param s
        = Some {| data := Dist d; requires_grad := requires_grad param |}
      ∧ same_kind (local_of (data param)) (_local_tensor d)
      ∧ t_size (_local_tensor d) = rows :: trailing
      ∧ _orig_size s = t_size (local_of (data param))
      ∧ sharded_state s = SHARDED
      ∧ all_gather_outputs s = []
      ∧ _unsharded_inner_tensors s = []
      ∧ _unsharded_param s = None
      ∧ _extensions_data s = None
      ∧ post_forward_mesh_info s = pf
      ∧ mesh_info s = info
      ∧ _module_info s = mi.
Proof.
  intros Hrun. unfold _init_sharded_param in Hrun.
  apply bind_inv in Hrun as ([] & e0 & Hdev & Hrun).
  assert ((tl_device (data param) = dev
           ∨ dev_type (tl_device (data param)) = "meta") ∧ e0 = e) as [Hdevice ->].
  { destruct (bool_decide (tl_device (data param) ≠ dev)) eqn:H1;
      destruct (bool_decide (dev_type (tl_device (data param)) ≠ "meta")) eqn:H2;
      simpl in Hdev; try done; injection Hdev as <-; split; try done.
    - right. apply bool_decide_eq_false in H2. by apply dec_stable.
    - left. apply bool_decide_eq_false in H1. by apply dec_stable.
    - left. apply bool_decide_eq_false in H1. by apply dec_stable. }
  split; [done|]. clear Hdev.
  apply bind_inv in Hrun as ([[[tp gm] gp] pd] & e1 & Hpl & Hrun).
  assert (e1 = e ∧ pd = local_of (data param)) as [-> ->].
  { destruct (data param) as [t|d].
    - by injection Hpl as <- <- <- <- <-.
    - apply bind_inv in Hpl as ([gm' gp'] & e2 & Hdp & Hpl).
      apply unchanged_run in Hdp as ->; [|apply dtensor_placements_unchanged].
      by injection Hpl as <- <- <- <- <-. }
  clear Hpl.
  apply bind_inv in Hrun as (chunks & e1 & Hchunks & Hrun).
  apply chunk_with_empty_inv in Hchunks
    as (n & trailing & Hsz & HW & Hlen & _ & Hchunk).
  apply bind_inv in Hrun as (chunk & e2 & Hidx & Hrun).
  unfold index in Hidx.
  destruct (chunks !! shard_mesh_rank info) as [chunk'|] eqn:Hr; [|done].
  injection Hidx as <- <-.
  apply bind_inv in Hrun as (chunk0 & e2 & Hidx & Hrun).
  unfold index in Hidx.
  destruct (chunks !! 0) as [chunk0'|] eqn:H0; [|done].
  injection Hidx as <- <-.
  destruct (Hchunk _ _ Hr) as (Hkind & rows & Hrows & Hsize).
  destruct (Hchunk _ _ H0) as (Hkind0 & rows0 & Hrows0 & Hsize0).
  rewrite lookup_padded_chunk_rows in Hrows0 by done.
  rewrite Nat.mul_0_l, Nat.sub_0_r in Hrows0.
  assert (rows0 = ceil_div n (shard_mesh_size info)) as ->.
  { injection Hrows0 as <-. 
    destruct (decide (n = 0)) as [->|Hn]; [by rewrite ceil_div_zero|].
    pose proof (ceil_div_tight n (shard_mesh_size info) HW ltac:(lia)). nia. }
  destruct Hsize0 as [Hsize0|(_ & _ & Hk0)]; [|lia].
  pose proof (min_chunk_rows _ _ _ _ Hrows) as Hle.
  rewrite Hsize0 in Hrun.
  apply bind_inv in Hrun as (padded & e2 & Hpad & Hrun).
  assert (∃ sid, padded = on_storage (local_of (data param)) sid
                            (ceil_div n (shard_mesh_size info) :: trailing))
    as [sid ->].
  { unfold new_zeros in Hpad. apply bind_inv in Hpad as (sid & e3 & _ & Hpad).
    injection Hpad as <- <-. by eexists. }
  clear Hpad.
  apply bind_inv in Hrun as ([] & e3 & _ & Hrun).
  apply bind_inv in Hrun as (flat & e4 & Hflat & Hrun).
  apply unchanged_run in Hflat as ->; [|apply view_infer_preserves; apply _].
  apply bind_inv in Hrun as (rows' & e4 & Hrows' & Hrun).
  assert (rows' = rows ∧ e4 = e3) as [-> ->].
  { unfold size0, index in Hrows'.
    destruct Hsize as [Hsize|(Hsize & -> & _)]; rewrite Hsize in Hrows';
      simpl in Hrows'; by injection Hrows' as <- <-. }
  apply bind_inv in Hrun as (loc & e4 & Hloc & Hrun).
  unfold slice0 in Hloc. simpl in Hloc. injection Hloc as <- <-.
  rewrite Nat.min_l in Hrun by done.
  apply bind_inv in Hrun as (dtensor & e4 & Hdt & Hrun).
  unfold to_sharded_dtensor in Hdt.
  apply bind_inv in Hdt as ([] & e5 & Hcheck & Hdt).
  match type of Hcheck with
  | context [bool_decide ?P] => destruct (bool_decide P) eqn:Hshape
  end; [done|].
  apply bool_decide_eq_false in Hshape. apply dec_stable in Hshape.
  simpl in Hshape. injection Hcheck as <-. injection Hdt as <- <-.
  rewrite bind_run, Parameter_new_case in Hrun.
  match type of Hrun with
  | context [is_floating_point ?dt] => destruct (is_floating_point dt) eqn:Hfp
  end; [|done].
  simpl in Hrun.
  rewrite bind_run in Hrun.
  erewrite requires_grad__run in Hrun;
    [|simpl; apply lookup_insert_eq|exact Hfp].
  simpl in Hrun.
  rewrite bind_run, setattr_on_modules_run in Hrun. simpl in Hrun.
  injection Hrun as <- <-. simpl.
  exists n, trailing, rows. eexists.
  split; [done|]. split; [done|]. split; [done|]. split; [by rewrite <- Hshape|].
  split; [done|].
  split.
  { rewrite (proj1 (proj2 (bind_all_frame _ _ _))). simpl.
    rewrite insert_insert_eq. apply lookup_insert_eq. }
  simpl. repeat split; try done.
Qed.

Lemma init_extensions_run (s : FSDPParam) (e : Env) d flag :
  parameters (heap e) !! sharded_param s
  = Some {| data := Dist d; requires_grad := flag |} →
  let inner := _local_tensor d in
  _init_extensions s e
  = if bool_decide (t_has_pre inner ≠ t_has_post inner)
    then (inl (AssertionError BothHooksRequired), e)
    else if t_has_pre inner
    then if bool_decide (padded_sharded_param_size s ≠ t_size inner)
         then (inl (NotImplementedError
                      "FSDP all-gather extensions require even sharding on dim-0."),
               e)
         else (inr (set_unsharded_inner_tensors []
                      (set_extensions_data
                         (Some {| all_gather_metadata := None;
                                  all_gather_input_sizes := [] |}) s)), e)
    else (inr (set_unsharded_inner_tensors [] s), e).
Proof.
  intros Hsh inner. unfold _init_extensions.
  rewrite bind_run, (sharded_local_tensor_run _ _ _ _ Hsh). fold inner.
  rewrite bind_run.
  destruct (bool_decide (t_has_pre inner ≠ t_has_post inner)); [done|].
  simpl. destruct (t_has_pre inner); [|done].
  rewrite bind_run, bind_run, (sharded_local_tensor_run _ _ _ _ Hsh).
  fold inner. rewrite bind_run.
  by destruct (bool_decide (padded_sharded_param_size s ≠ t_size inner)).
Qed.

Lemma init_post_forward_metadata_inv s param (e e' : Env) s' :
  _init_sharded_post_forward_param_metadata s param e = (inr s', e') →
  same_objects e e'
  ∧ ∃ size, s' = set_contiguous_sharded_post_forward_stride
                   (Some (make_contiguous_strides_for size))
                   (set_sharded_post_forward_size (Some size) s).
Proof.
  intros Hrun. unfold _init_sharded_post_forward_param_metadata in Hrun.
  apply bind_inv in Hrun as (info & e1 & Hinfo & Hrun).
  apply unchanged_run in Hinfo as ->; [|unchanged_tac].
  apply bind_inv in Hrun as (chunks & e1 & Hchunks & Hrun).
  apply (preserves_run same_objects) in Hchunks;
    [|apply chunk_with_empty_same_objects].
  apply bind_inv in Hrun as (chunk & e2 & Hidx & Hrun).
  apply unchanged_run in Hidx as ->; [|unchanged_tac].
  injection Hrun as <- <-. split; [done|]. by eexists.
Qed.

Lemma init_inv `{Externals} param mi info pf dev mp (e e' : Env) s :
  __init__ param mi info pf dev mp e = (inr s, e') →
  (tl_device (data param) = dev ∨ dev_type (tl_device (data param)) = "meta")
  ∧ t_has_pre (local_of (data param)) = t_has_post (local_of (data param))
  ∧ ∃ n trailing rows d,
      t_size (local_of (data param)) = n :: trailing
      ∧ 0 < shard_mesh_size info
      ∧ padded_chunk_rows n (shard_mesh_size info) !! shard_mesh_rank info
        = Some rows
      ∧ (t_has_pre (local_of (data param)) = true →
         rows = ceil_div n (shard_mesh_size info))
      ∧ sharded_size s = rows :: trailing
      ∧ padded_sharded_param_size s
        = ceil_div n (shard_mesh_size info) :: trailing
      ∧ parameters (heap e') !! sharded_param s
        = Some {| data := Dist d; requires_grad := requires_grad param |}
      ∧ same_kind (local_of (data param)) (_local_tensor d)
      ∧ t_size (_local_tensor d) = rows :: trailing
      ∧ sharded_state s = SHARDED
      ∧ all_gather_outputs s = []
      ∧ _unsharded_inner_tensors s = []
      ∧ _unsharded_param s = None.
Proof.
  intros Hrun. unfold __init__ in Hrun.
  apply bind_inv in Hrun as (s1 & e1 & Hs1 & Hrun).
  apply init_sharded_param_inv in Hs1
    as (Hdev & n & trailing & rows & d & Hsz & HW & Hrows & Hss & Hpad & Hpar
        & Hkind & Hlsz & Horig & Hst & Hago & Hinner & Hup & Hext & Hpf & _).
  apply bind_inv in Hrun as (s2 & e2 & Hs2 & Hrun).
  assert (same_objects e1 e2
          ∧ sharded_param s2 = sharded_param s1
          ∧ sharded_size s2 = sharded_size s1
          ∧ padded_sharded_param_size s2 = padded_sharded_param_size s1
          ∧ sharded_state s2 = sharded_state s1
          ∧ _unsharded_param s2 = _unsharded_param s1) as (Hobj & Hsp & Hss2 & Hpad2 & Hst2 & Hup2).
  { destruct (post_forward_mesh_info s1).
    - apply init_post_forward_metadata_inv in Hs2 as (Hobj & size & ->). done.
    - injection Hs2 as <- <-. done. }
  clear Hs2.
  assert (parameters (heap e2) !! sharded_param s2
          = Some {| data := Dist d; requires_grad := requires_grad param |}) as Hpar2.
  { destruct Hobj as [-> _]. by rewrite Hsp. }
  apply bind_inv in Hrun as (s3 & e3 & Hs3 & Hrun).
  rewrite (init_extensions_run _ _ _ _ Hpar2) in Hs3. simpl in Hs3.
  injection Hrun as <- <-.
  destruct Hkind as (Hdty & Hdv & Hpre & Hpost).
  case_bool_decide as Hflags; [done|].
  split; [done|]. split; [congruence|].
  exists n, trailing, rows, d.
  destruct (t_has_pre (_local_tensor d)) eqn:Hhas.
  - case_bool_decide as Hshape; [done|].
    injection Hs3 as <- <-. simpl.
    rewrite Hpad2, Hpad, Hlsz in Hshape. injection Hshape as Hshape.
    rewrite Hss2, Hpad2, Hst2, Hup2.
    repeat split; try done; try congruence.
  - injection Hs3 as <- <-. simpl.
    rewrite Hss2, Hpad2, Hst2, Hup2.
    repeat split; try done; try congruence.
Qed.

(** ** Which exceptions a computation raises *)

Section raises_only.
Context {S : Type} (P : Exn → Prop).

Lemma raises_only_ret {A} (a : A) : raises_only (S := S) P (mret a).
Proof. by intros s e. Qed.

Lemma raises_only_raise {A} e : P e → raises_only (S := S) P (raise (A := A) e).
Proof. intros HP s e' [= <-]. done. Qed.

Lemma raises_only_gets {A} (f : S → A) : raises_only P (gets f).
Proof. by intros s e. Qed.

Lemma raises_only_modify (f : S → S) : raises_only P (modify f).
Proof. by intros s e. Qed.

Lemma raises_only_bind {A B} (m : M S A) (f : A → M S B) :
  raises_only P m → (∀ a, raises_only P (f a)) → raises_only P (m ≫= f).
Proof.
  intros Hm Hf s e. rewrite bind_run. specialize (Hm s).
  destruct (m s) as [[e'|a] s1]; simpl.
  - intros [= <-]. by apply Hm.
  - apply Hf.
Qed.

Lemma raises_only_for_each {A} (xs : list A) (body : A → M S unit) :
  (∀ x, raises_only P (body x)) → raises_only P (for_each xs body).
Proof.
  intros Hb. induction xs as [|x xs IH]; simpl.
  - apply raises_only_ret.
  - apply raises_only_bind; [apply Hb|]. intros _. apply IH.
Qed.

Lemma raises_only_map_m {A B} (f : A → M S B) (xs : list A) :
  (∀ x, raises_only P (f x)) → raises_only P (map_m f xs).
Proof.
  intros Hf. induction xs as [|x xs IH]; simpl.
  - apply raises_only_ret.
  - apply raises_only_bind; [apply Hf|]. intros y.
    apply raises_only_bind; [apply IH|]. intros ys. apply raises_only_ret.
Qed.
End raises_only.

Lemma raises_only_fresh P : raises_only P fresh.
Proof. by intros s e. Qed.

Ltac raises_only_tac solve_exn :=
  repeat first
    [ apply raises_only_fresh
    | lazymatch goal with
      | |- raises_only _ (mbind _ _) => apply raises_only_bind; [|intros ?]
      | |- raises_only _ (mret _) => apply raises_only_ret
      | |- raises_only _ (raise _) => apply raises_only_raise; solve_exn
      | |- raises_only _ (_raise_assert_with_print _) =>
          apply raises_only_raise; solve_exn
      | |- raises_only _ (gets _) => apply raises_only_gets
      | |- raises_only _ (modify _) => apply raises_only_modify
      | |- raises_only _ (modify_heap _) => apply raises_only_modify
      | |- raises_only _ (emit _) => apply raises_only_modify
      | |- raises_only _ (for_each _ _) => apply raises_only_for_each; intros ?
      | |- raises_only _ (map_m _ _) => apply raises_only_map_m; intros ?
      | |- raises_only _ (getattr _ ?o) => destruct o; simpl
      | |- raises_only _ (assert ?b _) => destruct b; simpl
      | |- raises_only _ (match ?x with _ => _ end) => destruct x; simpl
      | |- raises_only _ (if ?b then _ else _) => destruct b; simpl
      end ].

Ltac not_device_mismatch_tac := intros ? ?; discriminate.

Lemma chunk_with_empty_raises t chunks :
  raises_only not_device_mismatch (_chunk_with_empty t chunks).
Proof.
  unfold _chunk_with_empty, torch_chunk, index, new_empty, new_zeros, new_storage.
  raises_only_tac not_device_mismatch_tac.
Qed.

Lemma sharded_local_tensor_raises s :
  raises_only not_device_mismatch (_sharded_local_tensor s).
Proof.
  unfold _sharded_local_tensor, deref.
  raises_only_tac not_device_mismatch_tac.
Qed.

Lemma init_no_device_mismatch `{Externals} param mi info pf dev mp :
  bool_decide (tl_device (data param) ≠ dev)
  && bool_decide (dev_type (tl_device (data param)) ≠ "meta") = false →
  raises_only not_device_mismatch (__init__ param mi info pf dev mp).
Proof.
  intros Hcond. unfold __init__, _init_sharded_param. rewrite Hcond.
  unfold _init_sharded_post_forward_param_metadata, _init_extensions,
    dtensor_placements, list_assign, to_sharded_dtensor, size0, slice0,
    view_flat, view_infer, infer_size, copy_, Parameter_new, requires_grad_,
    deref,
    _setattr_on_modules, unsafe_setattr_param, index, new_zeros, new_storage.
  raises_only_tac not_device_mismatch_tac;
    try apply chunk_with_empty_raises; try apply sharded_local_tensor_raises.
Qed.

Lemma init_device_mismatch `{Externals} param mi info pf dev mp (e : Env) :
  tl_device (data param) ≠ dev →
  dev_type (tl_device (data param)) ≠ "meta" →
  __init__ param mi info pf dev mp e
  = (inl (AssertionError (DeviceMismatch dev (tl_device (data param)))), e).
Proof.
  intros Hne Hmeta. unfold __init__, _init_sharded_param.
  rewrite !bind_run. by rewrite !bool_decide_true by done.
Qed.

(** C10: the device check of construction exempts meta tensors.  A
    parameter on the meta device never gets the device-mismatch error,
    whatever the target device; the error is raised exactly when the
    parameter's device differs from the target device and is not of type
    "meta", and then it is the first thing construction does. *)
Theorem device_check_exempts_meta `{Externals} (param : nn_Parameter)
    (mi : ParamModuleInfo) (info : FSDPMeshInfo) (pf : option FSDPMeshInfo)
    (dev : Device) (mp : MixedPrecisionPolicy) (e : Env) :
  let param_device := tl_device (data param) in
  (dev_type param_device = "meta" →
   ∀ expected got,
     (__init__ param mi info pf dev mp e).1
     ≠ inl (AssertionError (DeviceMismatch expected got)))
  ∧ ((∃ expected got,
        (__init__ param mi info pf dev mp e).1
        = inl (AssertionError (DeviceMismatch expected got)))
     ↔ param_device ≠ dev ∧ dev_type param_device ≠ "meta")
  ∧ (param_device ≠ dev → dev_type param_device ≠ "meta" →
     __init__ param mi info pf dev mp e
     = (inl (AssertionError (DeviceMismatch dev param_device)), e)).
Proof.
  intros param_device.
  assert (∀ expected got,
            (__init__ param mi info pf dev mp e).1
            = inl (AssertionError (DeviceMismatch expected got)) →
            param_device ≠ dev ∧ dev_type param_device ≠ "meta") as Honly.
  { intros expected got Hraise.
    destruct (bool_decide (param_device ≠ dev)
              && bool_decide (dev_type param_device ≠ "meta")) eqn:Hcond.
    - apply andb_true_iff in Hcond as [H1 H2].
      by apply bool_decide_eq_true in H1, H2.
    - by destruct (init_no_device_mismatch param mi info pf dev mp Hcond
                     e _ Hraise expected got). }
  split; [|split].
  - intros Hmeta expected got Hraise.
    by destruct (Honly expected got Hraise) as [_ Hnot].
  - split.
    + intros (expected & got & Hraise). by eapply Honly.
    + intros [Hne Hmeta]. exists dev, param_device.
      by rewrite init_device_mismatch.
  - apply init_device_mismatch.
Qed.

Lemma device_check_exempts_meta_witness :
  let on_meta := tensor_on 0 [4; 2] float16 meta_device false false in
  let on_cpu := tensor_on 0 [4; 2] float16
                  {| dev_type := "cpu"; dev_index := None |} false false in
  (∀ expected got,
     (construct (toy 0) on_meta 2 1).1
     ≠ inl (AssertionError (DeviceMismatch expected got)))
  ∧ construct (toy 0) on_cpu 2 1
    = (inl (AssertionError
              (DeviceMismatch cuda0 {| dev_type := "cpu"; dev_index := None |})),
       env0 16).
Proof.
  intros on_meta on_cpu. unfold construct. split.
  - apply (proj1 (device_check_exempts_meta (H := toy 0) _ _ _ _ _ _ _)).
    reflexivity.
  - exact (proj2 (proj2 (device_check_exempts_meta (H := toy 0)
                           {| data := Plain on_cpu; requires_grad := true |}
                           shared_weight (fsdp_mesh 2 1) None cuda0 no_policy
                           (env0 16)))
             ltac:(discriminate) ltac:(discriminate)).
Defined.

(** C7: construction fails when the shard's class defines exactly one of
    the two all-gather hooks, and when it defines both but this rank's
    chunk is not a full one, so that the padded size differs from the
    local shard's size.  Both errors come from [_init_extensions], which
    runs inside [__init__]: with one hook it raises the assertion that
    both are required, with uneven sharding [NotImplementedError]. *)
Theorem construction_rejects_broken_extensions `{Externals}
    (param : nn_Parameter) (mi : ParamModuleInfo) (info : FSDPMeshInfo)
    (pf : option FSDPMeshInfo) (dev : Device) (mp : MixedPrecisionPolicy)
    (e : Env) :
  let local_tensor := local_of (data param) in
  (t_has_pre local_tensor ≠ t_has_post local_tensor →
   is_error (__init__ param mi info pf dev mp e).1)
  ∧ (∀ n trailing rows,
       t_has_pre local_tensor = true → t_has_post local_tensor = true →
       t_size local_tensor = n :: trailing →
       padded_chunk_rows n (shard_mesh_size info) !! shard_mesh_rank info
       = Some rows →
       rows ≠ ceil_div n (shard_mesh_size info) →
       is_error (__init__ param mi info pf dev mp e).1)
  ∧ (∀ s e1 d flag,
       parameters (heap e1) !! sharded_param s
       = Some {| data := Dist d; requires_grad := flag |} →
       (t_has_pre (_local_tensor d) ≠ t_has_post (_local_tensor d) →
        _init_extensions s e1 = (inl (AssertionError BothHooksRequired), e1))
       ∧ (t_has_pre (_local_tensor d) = true →
          t_has_post (_local_tensor d) = true →
          padded_sharded_param_size s ≠ t_size (_local_tensor d) →
          _init_extensions s e1
          = (inl (NotImplementedError
                    "FSDP all-gather extensions require even sharding on dim-0."),
             e1))).
Proof.
  intros local_tensor. split; [|split].
  - intros Hflags.
    destruct (__init__ param mi info pf dev mp e) as [[ex|s] e'] eqn:Hrun;
      [done|].
    by apply init_inv in Hrun as (_ & Heq & _).
  - intros n trailing rows Hpre Hpost Hsz Hrows Huneven.
    destruct (__init__ param mi info pf dev mp e) as [[ex|s] e'] eqn:Hrun;
      [done|].
    apply init_inv in Hrun
      as (_ & _ & n' & trailing' & rows' & d & Hsz' & _ & Hrows' & Heven & _).
    fold local_tensor in Hsz', Heven. rewrite Hsz in Hsz'.
    injection Hsz' as <- <-. rewrite Hrows in Hrows'. injection Hrows' as <-.
    by specialize (Heven Hpre).
  - intros s e1 d flag Hsh.
    rewrite (init_extensions_run _ _ _ _ Hsh). split.
    + intros Hflags. by rewrite bool_decide_true.
    + intros Hpre Hpost Hshape.
      rewrite bool_decide_false by (rewrite Hpre, Hpost; by intros Hne).
      rewrite Hpre. by rewrite bool_decide_true.
Qed.

Lemma construction_rejects_broken_extensions_witness :
  is_error (construct (toy 1)
              (tensor_on 0 [4; 2] float16 cuda0 true false) 2 1).1
  ∧ is_error (construct (toy 1)
                (tensor_on 0 [10; 4] float16 cuda0 true true) 3 2).1.
Proof.
  unfold construct. split.
  - apply (proj1 (construction_rejects_broken_extensions (H := toy 1)
                    _ _ _ _ _ _ _)).
    discriminate.
  - apply (proj1 (proj2 (construction_rejects_broken_extensions (H := toy 1)
                           _ _ _ _ _ _ _)) 10 [4] 2);
      try reflexivity.
    vm_compute. discriminate.
Defined.

(** ** Chunk shapes *)

Lemma chunk_with_empty_total t chunks n trailing st sts (e : Env) :
  t_size t = n :: trailing → t_stride t = st :: sts → 0 < chunks →
  ∃ cs e', _chunk_with_empty t chunks e = (inr cs, e').
Proof.
  intros Hsz Hstr Hc. unfold _chunk_with_empty, torch_chunk.
  rewrite Hsz, Hstr, decide_False by lia. rewrite bind_run. simpl.
  rewrite length_imap.
  pose proof (length_chunk_rows n chunks Hc) as Hlen.
  destruct (decide (length (chunk_rows n chunks) < chunks)); [|by eexists _, _].
  rewrite bind_run. unfold index. rewrite list_lookup_imap.
  destruct (chunk_rows n chunks) as [|rows0 rest]; [simpl in Hlen; lia|].
  simpl. rewrite bind_run.
  match goal with
  | |- context [map_m (λ _, new_empty ?c0 [0]) ?l e] =>
      destruct (new_empties_spec c0 l e) as (ts & e' & Hts & _)
  end.
  rewrite Hts. simpl. by eexists _, _.
Qed.

(** C2, as stated, fails: five rows over four shards are cut into chunks
    of 2, 2 and 1 rows and an empty one.  The third chunk is not the last
    one and differs from the first two, and its size is a ragged 1,
    neither [ceil(5/4) = 2] nor 0.  The claim's own example has a ragged
    size as well: with ten rows over three shards, rank 2 is constructed
    with sharded size [[2; 4]], and 2 is neither [ceil(10/3) = 4] nor 0. *)
Lemma chunk_sizes_ragged_counterexample :
  let t := tensor_on 0 [5; 3] float16 cuda0 false false in
  (∃ cs e',
     _chunk_with_empty t 4 (env0 30) = (inr cs, e')
     ∧ (t_size <$> cs) = [[2; 3]; [2; 3]; [1; 3]; [0]]
     ∧ ceil_div 5 4 = 2
     ∧ ¬ (∀ k rows rest, (t_size <$> cs) !! k = Some (rows :: rest) →
                         rows = ceil_div 5 4 ∨ rows = 0)
     ∧ ¬ (∀ i j si sj, i < 3 → j < 3 →
                       (t_size <$> cs) !! i = Some si →
                       (t_size <$> cs) !! j = Some sj → si = sj))
  ∧ (∃ s e',
       construct (toy 0) (tensor_on 0 [10; 4] float16 cuda0 false false) 3 2
       = (inr s, e')
       ∧ sharded_size s = [2; 4]
       ∧ ceil_div 10 3 = 4).
Proof.
  intros t. split.
  - eexists _, _. split; [by vm_compute|].
    split; [reflexivity|]. split; [reflexivity|]. split.
    + intros Hall. by destruct (Hall 2 1 [3] eq_refl).
    + intros Hall. by specialize (Hall 0 2 [2; 3] [1; 3] ltac:(lia) ltac:(lia)
                                       eq_refl eq_refl).
  - eexists _, _. split; [by vm_compute|]. by split.
Qed.

(** C2 (amended): for every shard count [W >= 1] and dimension-0 size
    [n], with [c = ceil(n / W)], construction cuts [W] chunks whose
    dimension-0 sizes sum to [n]; chunk [k] has [min(c, n - k c)] rows:
    [c] rows as long as that many remain, then the remainder (a ragged
    size below [c] when [c] does not divide [n]), then 0.  A constructed
    parameter of rank [r] has the rows of chunk [r] as dimension 0 of its
    sharded size, and the first chunk's size, [c] rows, as its padded
    sharded size, on every rank. *)
Theorem chunk_shapes `{Externals} (n world : nat) :
  0 < world →
  let c := ceil_div n world in
  let rows := padded_chunk_rows n world in
  length rows = world
  ∧ sum_list rows = n
  ∧ (∀ k, k < world → rows !! k = Some (Nat.min c (n - k * c)))
  ∧ rows !! 0 = Some c
  ∧ (∀ k, k < world → (k + 1) * c ≤ n → rows !! k = Some c)
  ∧ (∀ k, k < world → n ≤ k * c → rows !! k = Some 0)
  ∧ (∀ t trailing st sts e,
       t_size t = n :: trailing → t_stride t = st :: sts →
       ∃ cs e',
         _chunk_with_empty t world e = (inr cs, e')
         ∧ length cs = world
         ∧ ∀ k chunk, cs !! k = Some chunk →
             ∃ r, rows !! k = Some r
               ∧ (t_size chunk = r :: trailing ∨ (t_size chunk = [0] ∧ r = 0)))
  ∧ (∀ param mi info pf dev mp e s e' trailing,
       shard_mesh_size info = world →
       t_size (local_of (data param)) = n :: trailing →
       __init__ param mi info pf dev mp e = (inr s, e') →
       ∃ r, rows !! shard_mesh_rank info = Some r
         ∧ sharded_size s = r :: trailing
         ∧ padded_sharded_param_size s = c :: trailing).
Proof.
  intros Hw c rows.
  assert (∀ k, k < world → rows !! k = Some (Nat.min c (n - k * c))) as Hrows
    by (intros k Hk; by apply lookup_padded_chunk_rows).
  split; [by apply length_padded_chunk_rows|].
  split; [by apply sum_padded_chunk_rows|].
  split; [done|].
  assert (c ≤ n ∨ n = 0) as Hc.
  { destruct (decide (n = 0)) as [->|Hn]; [by right|left].
    pose proof (ceil_div_tight n world Hw ltac:(lia)). fold c in H0. nia. }
  split.
  { rewrite Hrows by done. f_equal. destruct Hc as [Hc| ->]; [lia|].
    subst c. rewrite ceil_div_zero. done. }
  split; [intros k Hk Hfull; rewrite Hrows by done; f_equal; lia|].
  split; [intros k Hk Hempty; rewrite Hrows by done; f_equal; lia|].
  split.
  - intros t trailing st sts e Hsz Hstr.
    destruct (chunk_with_empty_total t world n trailing st sts e Hsz Hstr Hw)
      as (cs & e' & Hrun).
    exists cs, e'. split; [done|].
    apply chunk_with_empty_inv in Hrun
      as (n' & trailing' & Hsz' & _ & Hlen & _ & Hchunk).
    rewrite Hsz in Hsz'. injection Hsz' as <- <-.
    split; [done|]. intros k chunk Hk.
    destruct (Hchunk k chunk Hk) as (_ & r & Hr & [Hfull|(Hempty & -> & _)]).
    + exists r. eauto.
    + exists 0. eauto.
  - intros param mi info pf dev mp e s e' trailing Hworld Hsz Hrun.
    apply init_inv in Hrun
      as (_ & _ & n' & trailing' & r & d & Hsz' & _ & Hr & _ & Hss & Hpad & _).
    rewrite Hsz in Hsz'. injection Hsz' as <- <-. rewrite Hworld in Hr, Hpad.
    by exists r.
Qed.

Lemma chunk_shapes_witness :
  match construct (toy 0) (tensor_on 0 [10; 4] float16 cuda0 false false) 3 2 with
  | (inr s, _) =>
      padded_chunk_rows 10 3 = [4; 4; 2]
      ∧ sum_list (padded_chunk_rows 10 3) = 10
      ∧ sharded_size s = [2; 4]
      ∧ padded_sharded_param_size s = [4; 4]
  | (inl _, _) => False
  end.
Proof.
  destruct (construct _ _ _ _) as [[ex|s] e'] eqn:Hrun; [by vm_compute in Hrun|].
  pose proof (chunk_shapes (H := toy 0) 10 3 ltac:(lia))
    as (_ & Hsum & _ & _ & _ & _ & _ & Hinit).
  unfold construct in Hrun.
  destruct (Hinit
              {| data := Plain (tensor_on 0 [10; 4] float16 cuda0 false false);
                 requires_grad := true |}
              _ (fsdp_mesh 3 2) _ _ _ _ _ _ [4] eq_refl eq_refl Hrun)
    as (r & Hr & Hss & Hpad).
  vm_compute in Hr. injection Hr as <-.
  split; [reflexivity|]. split; [exact Hsum|]. split; [exact Hss|exact Hpad].
Defined.

(** ** Invariants of the call sequence *)

Global Instance same_attr_preorder {A} (f : FSDPParam → A) : PreOrder (same_attr f).
Proof.
  split; [by intros w|].
  intros w1 w2 w3 H12 H23. unfold same_attr in *. congruence.
Qed.

Lemma same_attr_lift_env {A B} (f : FSDPParam → A) (m : M Env B) :
  preserves (same_attr f) (lift_env m).
Proof. intros w. unfold same_attr. by rewrite lift_env_run. Qed.

Lemma same_attr_set_self {A} (f : FSDPParam → A) g :
  (∀ s, f (g s) = f s) → preserves (same_attr f) (set_self g).
Proof. intros Hg w. unfold same_attr. simpl. apply Hg. Qed.

Ltac same_attr_tac :=
  repeat first
    [ apply same_attr_lift_env
    | apply same_attr_set_self; done
    | apply narrow0_preserves; apply _
    | apply view_infer_preserves; apply _
    | preserves_step ].

Ltac unfold_methods :=
  unfold init_dtype_attrs, init_all_gather_outputs, init_unsharded_param,
    alloc_all_gather_outputs, free_unsharded_param, to_sharded,
    to_sharded_post_forward, to_unsharded, ignore_result, all_gather_inputs,
    unsharded_param, free_unsharded_param, _assert_in_states,
    to_sharded_post_forward_dtensor, _unflatten_all_gather_outputs,
    param_dtype_or_orig, clear_extensions_data.

Lemma run_call_construction_attrs `{Externals} c :
  preserves (same_attr construction_attrs) (run_call c).
Proof. destruct c; simpl; unfold_methods; unfold set_state; same_attr_tac. Qed.

(** X1: what construction assigns, no method reassigns.  Over any sequence
    of calls, failing ones and actions of the collaborator included, the
    module info, the meshes, the device, the DTensor layout, the original,
    sharded and padded sizes, the flat shard data, the sharded parameter
    object and the post-forward shape stay what they were. *)
Theorem construction_attributes_are_final `{Externals} (cs : list Call) (w : World) :
  construction_attrs (self (run_calls cs w)) = construction_attrs (self w).
Proof.
  revert w. induction cs as [|c cs IH]; intros w; simpl; [done|].
  rewrite IH. apply (run_call_construction_attrs c).
Qed.

(** ** State transitions *)

Lemma transition_bind {A B} st (m : M World A) (f : A → M World B) :
  preserves (same_attr sharded_state) m → (∀ a, transition st (f a)) →
  transition st (m ≫= f).
Proof.
  intros Hm Hf w. rewrite bind_run. specialize (Hm w). unfold same_attr in Hm.
  destruct (m w) as [[e|a] w1]; simpl in *; [done|].
  rewrite Hf. by destruct (f a w1).1.
Qed.

Lemma transition_set_state st : transition st (set_state st).
Proof. by intros w. Qed.

Lemma transition_raise {A} st e : transition st (raise (A := A) e).
Proof. by intros w. Qed.

Ltac transition_tac :=
  repeat first
    [ apply transition_set_state
    | apply transition_raise
    | apply transition_bind;
        [ unfold_methods; unfold set_state; same_attr_tac; fail | intros ? ]
    | lazymatch goal with
      | |- transition _ (match ?x with _ => _ end) => destruct x; simpl
      | |- transition _ (if ?b then _ else _) => destruct b; simpl
      | |- transition _ (let '(_, _) := ?x in _) => destruct x; simpl
      end ].

Lemma to_sharded_transition : transition SHARDED to_sharded.
Proof. unfold to_sharded. transition_tac. Qed.

Lemma to_unsharded_transition : transition UNSHARDED to_unsharded.
Proof. unfold to_unsharded. transition_tac. Qed.

Lemma to_sharded_post_forward_transition :
  transition SHARDED_POST_FORWARD to_sharded_post_forward.
Proof. unfold to_sharded_post_forward. transition_tac. Qed.

Lemma run_call_same_state `{Externals} c :
  match c with
  | call_to_sharded | call_to_sharded_post_forward | call_to_unsharded => True
  | _ => preserves (same_attr sharded_state) (run_call c)
  end.
Proof. destruct c; simpl; try done; unfold_methods; same_attr_tac. Qed.

(** X2: [sharded_state] is changed by the three transitions only, and only
    when they return: after a call the state is [SHARDED] if the call was
    [to_sharded] and returned, [SHARDED_POST_FORWARD] if it was
    [to_sharded_post_forward] and returned, [UNSHARDED] if it was
    [to_unsharded] and returned, and otherwise the state before the call:
    every other method, and every call that raises, leaves it alone. *)
Theorem state_changes_only_by_transitions `{Externals} (c : Call) (w : World) :
  sharded_state (self (run_call c w).2)
  = match (run_call c w).1, c with
    | inr _, call_to_sharded => SHARDED
    | inr _, call_to_sharded_post_forward => SHARDED_POST_FORWARD
    | inr _, call_to_unsharded => UNSHARDED
    | _, _ => sharded_state (self w)
    end.
Proof.
  pose proof (run_call_same_state c) as Hc.
  destruct c; simpl in *;
    try (rewrite (Hc w); by destruct (_ w).1).
  - rewrite to_sharded_transition. by destruct (to_sharded w).1.
  - rewrite to_sharded_post_forward_transition.
    by destruct (to_sharded_post_forward w).1.
  - rewrite to_unsharded_transition. by destruct (to_unsharded w).1.
Qed.

(** ** The output buffers are kept *)

Global Instance keeps_outputs_preorder : PreOrder keeps_outputs.
Proof.
  split; [by intros w|].
  intros w1 w2 w3 H12 H23 Hne. unfold keeps_outputs in *.
  rewrite <- (H12 Hne). apply H23. by rewrite (H12 Hne).
Qed.

Lemma keeps_outputs_same_attr {A} (m : M World A) :
  preserves (same_attr all_gather_outputs) m → preserves keeps_outputs m.
Proof. intros Hm w _. apply Hm. Qed.

Lemma run_call_keeps_outputs `{Externals} c : preserves keeps_outputs (run_call c).
Proof.
  destruct c; simpl;
    try (apply keeps_outputs_same_attr; unfold_methods; unfold set_state;
         same_attr_tac; fail).
  intros w Hne. unfold init_all_gather_outputs. rewrite bind_run. simpl.
  by rewrite bool_decide_true.
Qed.

(** X3: once the all-gather output buffers exist, they are the same tensor
    objects for the rest of the parameter's life: no sequence of calls
    changes the list [all_gather_outputs]; freeing and allocating only
    resize the storages behind it. *)
Theorem output_buffers_are_kept `{Externals} (cs : list Call) (w : World) :
  all_gather_outputs (self w) ≠ [] →
  all_gather_outputs (self (run_calls cs w)) = all_gather_outputs (self w).
Proof.
  revert w. induction cs as [|c cs IH]; intros w Hne; simpl; [done|].
  pose proof (run_call_keeps_outputs c w Hne) as Hc.
  rewrite IH; [done|]. by rewrite Hc.
Qed.

Lemma output_buffers_are_kept_witness :
  match unsharded_world 0 with
  | Some w =>
      all_gather_outputs
        (self (run_calls (H := toy 0)
                 [ call_to_sharded;
                   call_init_all_gather_outputs [7; 7] [int8; int8] 3 cuda0;
                   call_alloc_all_gather_outputs ] w))
      = [empty_tensor 102 [8] float16 cuda0]
  | None => False
  end.
Proof.
  example_world w.
  match goal with
  | |- all_gather_outputs (self (run_calls ?cs ?w)) = _ =>
      exact (output_buffers_are_kept (H := toy 0) cs w ltac:(discriminate))
  end.
Defined.

(** ** Resharding *)

Lemma bind_parameter_registered m name p h : registered (bind_parameter m name p h) p (m, name).
Proof.
  eexists. simpl. rewrite lookup_insert_eq. split; [done|]. simpl.
  by rewrite lookup_insert_eq.
Qed.

Lemma registered_bind_parameter m name p h b :
  registered h p b → registered (bind_parameter m name p h) p b.
Proof.
  intros (md & Hmd & Hp). unfold registered. simpl.
  destruct (decide (m = b.1)) as [->|Hne].
  - rewrite lookup_insert_eq. eexists. split; [done|]. simpl.
    unfold get_module. rewrite Hmd. simpl.
    destruct (decide (name = b.2)) as [->|Hne'].
    + by rewrite lookup_insert_eq.
    + by rewrite lookup_insert_ne.
  - rewrite lookup_insert_ne by done. eauto.
Qed.

Lemma bind_parameter_id m name p h :
  registered h p (m, name) → bind_parameter m name p h = h.
Proof.
  intros (md & Hmd & Hp). simpl in *. unfold bind_parameter, get_module.
  rewrite Hmd. simpl. rewrite (insert_id (_parameters md)) by done.
  destruct md as [c ps]. simpl. rewrite insert_id by done. by destruct h.
Qed.

Lemma bind_all_registered bs p h b : b ∈ bs → registered (bind_all bs p h) p b.
Proof.
  revert h. induction bs as [|b' bs IH] using rev_ind; intros h Hin.
  - by apply elem_of_nil in Hin.
  - unfold bind_all. rewrite foldl_app. simpl. fold (bind_all bs p h).
    apply elem_of_app in Hin as [Hin|Hin].
    + apply registered_bind_parameter. by apply IH.
    + apply list_elem_of_singleton in Hin as ->. destruct b' as [m name].
      apply bind_parameter_registered.
Qed.

Lemma bind_all_id bs p h :
  (∀ b, b ∈ bs → registered h p b) → bind_all bs p h = h.
Proof.
  induction bs as [|[m name] bs IH]; intros Hreg; [done|].
  rewrite bind_all_cons. simpl. rewrite bind_parameter_id.
  - apply IH. intros b Hb. apply Hreg. by right.
  - apply Hreg. by left.
Qed.

(** X4: [to_sharded] checks no state and never raises.  From any state it
    leaves the parameter [SHARDED], the sharded parameter bound under the
    owning module's name and under every shared name, and every output
    buffer and inner tensor with an empty storage.  Calling it again
    changes neither the parameter nor the heap: the second call only
    repeats the assignments to the modules and resizes nothing. *)
Theorem to_sharded_is_total_and_idempotent (w : World) :
  ∃ w1,
    to_sharded w = (inr tt, w1)
    ∧ sharded_state (self w1) = SHARDED
    ∧ (∀ m name, (m, name) ∈ bindings (_module_info (self w)) →
         bound_parameter (heap (env w1)) m name = Some (sharded_param (self w)))
    ∧ (∀ t, t ∈ buffers (self w) →
         storage_size (heap (env w1)) (t_storage t) = 0)
    ∧ ∃ w2,
        to_sharded w1 = (inr tt, w2)
        ∧ self w2 = self w1
        ∧ heap (env w2) = heap (env w1)
        ∧ log (env w2)
          = log (env w1)
            ++ (binding_event (heap (env w1)) (sharded_param (self w))
                  <$> bindings (_module_info (self w))).
Proof.
  destruct w as [s e]. unfold to_sharded at 1. rewrite bind_run. simpl.
  rewrite bind_run, lift_env_run, setattr_on_modules_run. simpl.
  set (bs := bindings (_module_info s)). set (p := sharded_param s).
  set (e1 := {| heap := _; log := _ |}).
  destruct (free_unsharded_param_spec {| self := s; env := e1 |})
    as (e2 & Hrun & Hz & (Hpar & Hmod & _ & Hsto) & _ & _).
  simpl in *. rewrite bind_run, Hrun. simpl.
  eexists. split; [done|]. simpl. split; [done|].
  split.
  { intros m name Hin. unfold bound_parameter, get_module. rewrite Hmod.
    by apply (bind_all_bound _ _ (heap e)). }
  split; [done|].
  unfold to_sharded. rewrite bind_run. simpl.
  rewrite bind_run, lift_env_run, setattr_on_modules_run. simpl.
  fold bs p.
  assert (bind_all bs p (heap e2) = heap e2) as Hid.
  { apply bind_all_id. intros b Hb.
    destruct (bind_all_registered bs p (heap e) b Hb) as (md & Hmd & Hp).
    exists md. by rewrite Hmod. }
  rewrite Hid.
  set (e3 := {| heap := heap e2; log := _ |}).
  destruct (free_unsharded_param_spec
              {| self := set_sharded_state SHARDED s; env := e3 |})
    as (e4 & Hrun' & _ & _ & _ & Hsame).
  simpl in *. rewrite bind_run, Hrun'. simpl.
  rewrite (Hsame Hz). eexists. split; [done|]. done.
Qed.

(** ** Materialising the output buffers *)

Lemma alloc_storage_run (t : Tensor) (e : Env) :
  alloc_storage t e
  = (inr tt,
     if bool_decide (storage_size (heap e) (t_storage t) ≠ full_size t)
     then {| heap := set_storage (t_storage t)
                       (resize (full_size t) x00
                          (storage_bytes (heap e) (t_storage t))) (heap e);
             log := log e ++ [EvResize (t_storage t) (full_size t)] |}
     else e).
Proof.
  unfold alloc_storage, full_size. rewrite bind_run. simpl.
  destruct (bool_decide _); [|done].
  unfold resize_. by rewrite bind_run.
Qed.

Lemma alloc_storage_spec (t : Tensor) (e : Env) :
  ∃ e', alloc_storage t e = (inr tt, e')
    ∧ storage_size (heap e') (t_storage t) = full_size t
    ∧ same_outside [t] (heap e) (heap e')
    ∧ log_grows is_resize_event e e'
    ∧ (storage_size (heap e) (t_storage t) = full_size t → e' = e).
Proof.
  rewrite alloc_storage_run. eexists; split; [reflexivity|].
  case_bool_decide as Hsz; simpl.
  - split; [by rewrite storage_size_set_storage_eq, length_resize|].
    split.
    { repeat split; try done. intros s Hs. simpl.
      rewrite lookup_insert_ne; [done|]. intros <-. apply Hs. by left. }
    split; [|done].
    eexists. split; [done|]. apply Forall_singleton. by eexists _, _.
  - split; [done|]. split; [done|]. split; [reflexivity|done].
Qed.

Lemma alloc_all_spec (ts : list Tensor) (e : Env) :
  NoDup (t_storage <$> ts) →
  ∃ e', for_each ts alloc_storage e = (inr tt, e')
    ∧ (∀ t, t ∈ ts → storage_size (heap e') (t_storage t) = full_size t)
    ∧ same_outside ts (heap e) (heap e')
    ∧ log_grows is_resize_event e e'
    ∧ ((∀ t, t ∈ ts → storage_size (heap e) (t_storage t) = full_size t) →
       e' = e).
Proof.
  revert e. induction ts as [|t ts IH]; intros e Hnd; simpl.
  - exists e. split; [done|].
    split; [intros t Ht; by apply elem_of_nil in Ht|].
    split; [done|]. split; [reflexivity|done].
  - apply NoDup_cons in Hnd as [Hnin Hnd].
    destruct (alloc_storage_spec t e) as (e1 & Hrun1 & Hz1 & Hout1 & Hlog1 & Hid1).
    destruct (IH e1 Hnd) as (e2 & Hrun2 & Hz2 & Hout2 & Hlog2 & Hid2).
    exists e2. split; [by rewrite (bind_inr _ _ _ _ _ Hrun1)|].
    split.
    { intros t' Ht'. apply elem_of_cons in Ht' as [->|Ht']; [|by apply Hz2].
      destruct Hout2 as (_ & _ & _ & Hsto).
      unfold storage_size, storage_bytes in *. by rewrite Hsto. }
    split.
    { eapply same_outside_trans; [| |exact Hout1|exact Hout2].
      - intros x Hx. apply list_elem_of_singleton in Hx as ->. by left.
      - intros x Hx. by right. }
    split; [by etrans|].
    intros Hall. rewrite Hid2.
    + apply Hid1, Hall. by left.
    + intros t' Ht'. rewrite Hid1; apply Hall; [by right|by left].
Qed.

(** X5: [alloc_all_gather_outputs] never raises and gives the storage of
    every output buffer exactly [numel * itemsize] bytes (the buffers being
    on storages of their own), by resizing in place: the parameter, every
    other storage, the parameter objects and the modules are untouched,
    only resize events are logged, buffers that already have their size
    are not resized, and a second call changes nothing. *)
Theorem alloc_all_gather_outputs_restores_sizes (w : World) :
  NoDup (t_storage <$> all_gather_outputs (self w)) →
  ∃ e',
    alloc_all_gather_outputs w = (inr tt, {| self := self w; env := e' |})
    ∧ (∀ t, t ∈ all_gather_outputs (self w) →
         storage_size (heap e') (t_storage t)
         = numel (t_size t) * itemsize (t_dtype t))
    ∧ same_outside (all_gather_outputs (self w)) (heap (env w)) (heap e')
    ∧ log_grows is_resize_event (env w) e'
    ∧ ((∀ t, t ∈ all_gather_outputs (self w) →
          storage_size (heap (env w)) (t_storage t)
          = numel (t_size t) * itemsize (t_dtype t)) → e' = env w)
    ∧ alloc_all_gather_outputs {| self := self w; env := e' |}
      = (inr tt, {| self := self w; env := e' |}).
Proof.
  intros Hnd.
  destruct (alloc_all_spec (all_gather_outputs (self w)) (env w) Hnd)
    as (e' & Hrun & Hz & Hout & Hlog & Hid).
  exists e'. unfold alloc_all_gather_outputs. rewrite !bind_run. simpl.
  rewrite !lift_env_run, Hrun. simpl.
  split; [done|]. split; [done|]. split; [done|]. split; [done|].
  split; [done|].
  destruct (alloc_all_spec (all_gather_outputs (self w)) e' Hnd)
    as (e'' & Hrun' & _ & _ & _ & Hid').
  rewrite Hrun'. simpl. by rewrite (Hid' Hz).
Qed.

Lemma alloc_all_gather_outputs_restores_sizes_witness :
  match unsharded_world 0 with
  | Some w =>
      let freed := (free_unsharded_param w).2 in
      storage_size (heap (env freed)) 102 = 0
      ∧ ∃ e', alloc_all_gather_outputs freed
              = (inr tt, {| self := self freed; env := e' |})
          ∧ storage_size (heap e') 102 = 16
  | None => False
  end.
Proof.
  example_world w. intros freed. split; [reflexivity|].
  assert (NoDup (t_storage <$> all_gather_outputs (self freed))) as Hnd
    by (apply (bool_decide_unpack _); by vm_compute).
  destruct (alloc_all_gather_outputs_restores_sizes freed Hnd)
    as (e' & Hrun & Hsize & _).
  exists e'. split; [exact Hrun|].
  apply (Hsize (empty_tensor 102 [8] float16 cuda0)). by left.
Defined.

Lemma allocated_outputs_storages first world_size dev inputs :
  t_storage <$> allocated_outputs first world_size dev inputs
  = seq first (length inputs).
Proof.
  unfold allocated_outputs. revert first.
  induction inputs as [|[n d] inputs IH]; intros first; [done|].
  simpl. rewrite Nat.add_0_r. f_equal.
  rewrite <- IH. f_equal. apply imap_ext. intros k [n' d'] _. simpl.
  f_equal; lia.
Qed.

Lemma allocated_outputs_lookup first world_size dev inputs t :
  t ∈ allocated_outputs first world_size dev inputs →
  ∃ k n d, inputs !! k = Some (n, d) ∧ t_storage t = first + k
           ∧ full_size t = n * world_size * itemsize d.
Proof.
  unfold allocated_outputs. intros Hin.
  apply list_elem_of_lookup in Hin as [k Hk].
  rewrite list_lookup_imap in Hk.
  destruct (inputs !! k) as [[n d]|] eqn:Hi; [|done].
  simpl in Hk. injection Hk as <-. exists k, n, d.
  split; [done|]. split; [done|]. unfold full_size, empty_tensor.
  cbn [t_size t_dtype]. by rewrite numel_singleton.
Qed.

(** X6: the life of the output buffers.  On a parameter without buffers,
    [init_all_gather_outputs] makes one buffer per (numel, dtype) pair, as
    many as the shorter of the two lists, at full size;
    [free_unsharded_param] then empties their storages and
    [alloc_all_gather_outputs] brings them back to full size, and through
    all three the buffers are the same tensor objects. *)
Theorem buffers_survive_free_and_alloc (w : World) (numels : list nat)
    (dtypes : list dtype) (world_size : nat) (dev : Device) :
  all_gather_outputs (self w) = [] →
  ∃ w1 w2 w3,
    init_all_gather_outputs numels dtypes world_size dev w = (inr tt, w1)
    ∧ free_unsharded_param w1 = (inr tt, w2)
    ∧ alloc_all_gather_outputs w2 = (inr tt, w3)
    ∧ all_gather_outputs (self w2) = all_gather_outputs (self w1)
    ∧ all_gather_outputs (self w3) = all_gather_outputs (self w1)
    ∧ length (all_gather_outputs (self w1))
      = Nat.min (length numels) (length dtypes)
    ∧ ∀ t, t ∈ all_gather_outputs (self w1) →
        storage_size (heap (env w1)) (t_storage t)
        = numel (t_size t) * itemsize (t_dtype t)
        ∧ storage_size (heap (env w2)) (t_storage t) = 0
        ∧ storage_size (heap (env w3)) (t_storage t)
          = numel (t_size t) * itemsize (t_dtype t).
Proof.
  intros Hnone. destruct w as [s e]. simpl in *.
  destruct (allocate_outputs_spec world_size dev (zip numels dtypes) e)
    as (e1 & Hrun1 & _ & _ & _ & _ & Hnew & _).
  set (outs := allocated_outputs (next_id (heap e)) world_size dev
                 (zip numels dtypes)) in *.
  set (s1 := set_all_gather_outputs outs s).
  assert (init_all_gather_outputs numels dtypes world_size dev
            {| self := s; env := e |}
          = (inr tt, {| self := s1; env := e1 |})) as Hinit.
  { unfold init_all_gather_outputs. rewrite bind_run. simpl.
    rewrite Hnone. simpl. rewrite bind_run, lift_env_run. simpl.
    by rewrite Hrun1. }
  destruct (free_unsharded_param_spec {| self := s1; env := e1 |})
    as (e2 & Hfree & Hz & _).
  assert (NoDup (t_storage <$> outs)) as Hnd.
  { unfold outs. rewrite allocated_outputs_storages. apply NoDup_seq. }
  destruct (alloc_all_spec outs e2 Hnd) as (e3 & Halloc & Hfull & _).
  exists {| self := s1; env := e1 |}, {| self := s1; env := e2 |},
         {| self := s1; env := e3 |}.
  split; [done|]. split; [done|]. split.
  { unfold alloc_all_gather_outputs. rewrite bind_run. simpl.
    rewrite lift_env_run. simpl. by rewrite Halloc. }
  simpl. split; [done|]. split; [done|]. split.
  { unfold outs, allocated_outputs. by rewrite length_imap, length_zip. }
  intros t Ht. split; [|split].
  - destruct (allocated_outputs_lookup _ _ _ _ _ Ht) as (k & n & d & Hk & Hst & Hfs).
    unfold storage_size, storage_bytes. rewrite Hst, (Hnew k n d Hk). simpl.
    rewrite length_replicate. by rewrite <- Hfs.
  - apply Hz. unfold buffers. simpl. apply elem_of_app. by left.
  - by apply Hfull.
Qed.

Lemma buffers_survive_free_and_alloc_witness :
  match small_world 0 with
  | Some w =>
      ∃ w1 w2 w3,
        init_all_gather_outputs [4] [float16] 2 cuda0 w = (inr tt, w1)
        ∧ free_unsharded_param w1 = (inr tt, w2)
        ∧ alloc_all_gather_outputs w2 = (inr tt, w3)
        ∧ all_gather_outputs (self w3) = all_gather_outputs (self w1)
        ∧ length (all_gather_outputs (self w1)) = 1
  | None => False
  end.
Proof.
  example_world w.
  match goal with
  | |- ∃ w1 w2 w3, init_all_gather_outputs _ _ _ _ ?w = _ ∧ _ =>
      destruct (buffers_survive_free_and_alloc w [4] [float16] 2 cuda0 eq_refl)
        as (w1 & w2 & w3 & H1 & H2 & H3 & _ & Hsame & Hlen & _)
  end.
  exists w1, w2, w3. by repeat split.
Defined.

(** ** The unsharded view of the default representation *)



(** ** The unsharded view of an extension *)

Lemma map_view_infer_pure {S} l (s s' : S) :
  map_m (λ '(t, sz), view_infer t (drop 1 sz)) l s
  = ((map_m (λ '(t, sz), view_infer t (drop 1 sz)) l s').1, s).
Proof.
  revert s s'. induction l as [|[t sz] l IH]; intros s s'; [done|].
  simpl. rewrite !bind_run.
  assert (∀ T (x : T), view_infer t (drop 1 sz) x
                       = ((view_infer t (drop 1 sz) s').1, x)) as Hv.
  { intros T x. unfold view_infer, infer_size. rewrite !bind_run.
    destruct (bool_decide _ || bool_decide _); [|done].
    destruct (decide (numel (drop 1 sz) = 0)); [done|].
    cbn [mret M_ret]. by destruct (compute_stride _ _ _). }
  rewrite (Hv _ s). destruct (view_infer t (drop 1 sz) s') as [[ex|v] s1] eqn:Hs1.
  - done.
  - simpl. rewrite !bind_run. rewrite (IH s s').
    assert (s1 = s') as ->.
    { specialize (Hv _ s'). rewrite Hs1 in Hv. by injection Hv. }
    destruct (map_m _ l s') as [[ex|vs] s2] eqn:Hs2; simpl; [done|].
    rewrite (IH s' s') in Hs2. by injection Hs2 as _ <-.
Qed.

Lemma unflatten_pure (w w' : World) :
  self w' = self w →
  _unflatten_all_gather_outputs w'
  = ((_unflatten_all_gather_outputs w).1, w').
Proof.
  intros Hself. unfold _unflatten_all_gather_outputs. rewrite !bind_run. simpl.
  rewrite Hself. destruct (_extensions_data (self w)) as [ext|]; simpl; [|done].
  rewrite !bind_run. simpl. apply map_view_infer_pure.
Qed.

Lemma param_dtype_or_orig_run (w : World) pd od :
  param_dtype (self w) = Some pd → orig_dtype (self w) = Some od →
  param_dtype_or_orig w = (inr (default od pd), w).
Proof.
  intros Hpd Hod. unfold param_dtype_or_orig. rewrite bind_run. simpl.
  rewrite Hpd. simpl. rewrite bind_run. simpl. destruct pd; [done|].
  by rewrite Hod.
Qed.

Lemma clear_extensions_data_run (w : World) ext :
  _extensions_data (self w) = Some ext →
  clear_extensions_data w
  = (inr tt, {| self := set_extensions_data (Some (clear ext)) (self w);
                env := env w |}).
Proof.
  intros Hext. unfold clear_extensions_data. rewrite bind_run. simpl.
  rewrite Hext. simpl. by rewrite bind_run.
Qed.

Lemma for_each_alloc_total ts (e : Env) :
  for_each ts alloc_storage e = (inr tt, (for_each ts alloc_storage e).2).
Proof.
  revert e. induction ts as [|t ts IH]; intros e; [done|].
  simpl. rewrite bind_run, alloc_storage_run. simpl. apply IH.
Qed.

(** A later call for a representation with a post-all-gather hook, step
    by step: the inner tensors are allocated, the hook is called with the
    unflattened outputs, the recorded metadata, [param_dtype or
    orig_dtype] and [out] set to the view, and the extension data is
    cleared. *)
Lemma later_call_run `{Externals} (w : World) (inner : Tensor)
    (ext : ExtensionsData) (pd : option dtype) (od : dtype)
    (outputs : list Tensor) (p : nat) r h1 :
  (_sharded_local_tensor (self w) (env w)).1 = inr inner →
  t_has_post inner = true →
  _extensions_data (self w) = Some ext →
  param_dtype (self w) = Some pd →
  orig_dtype (self w) = Some od →
  (_unflatten_all_gather_outputs w).1 = inr outputs →
  _unsharded_param (self w) = Some p →
  let e1 := (for_each (_unsharded_inner_tensors (self w)) alloc_storage (env w)).2 in
  fsdp_post_all_gather inner outputs (all_gather_metadata ext) (default od pd)
    (Some p) (heap e1) = (inr r, h1) →
  init_unsharded_param w
  = (inr tt,
     {| self := set_extensions_data
                  (Some {| all_gather_metadata := None;
                           all_gather_input_sizes := [] |}) (self w);
        env := {| heap := h1;
                  log := log e1
                         ++ [EvPostAllGather inner outputs
                               (all_gather_metadata ext) (default od pd)
                               (Some p)] |} |}).
Proof.
  intros Hinner Hpost Hext Hpd Hod Hout Hup e1 Hhook.
  destruct w as [s e]. simpl in *.
  assert (_sharded_local_tensor s e = (inr inner, e)) as Hloc.
  { destruct (_sharded_local_tensor s e) as [r0 e0] eqn:Hloc.
    simpl in Hinner. subst r0.
    apply unchanged_run in Hloc as Heq; [|apply sharded_local_tensor_unchanged].
    by rewrite Heq. }
  unfold init_unsharded_param. rewrite bind_run. simpl. rewrite Hup.
  rewrite bind_run, lift_env_run. cbn [self env]. rewrite Hloc. simpl.
  rewrite Hpost. simpl.
  rewrite bind_run, lift_env_run. cbn [self env].
  rewrite for_each_alloc_total. fold e1. simpl.
  rewrite bind_run.
  rewrite (unflatten_pure {| self := s; env := e |}) by done.
  rewrite Hout. simpl. rewrite Hext. simpl. rewrite bind_run. simpl.
  rewrite bind_run.
  rewrite (param_dtype_or_orig_run _ pd od) by done. simpl.
  rewrite bind_run, lift_env_run. cbn [self env].
  rewrite call_post_all_gather_run. rewrite Hhook. simpl.
  by rewrite (clear_extensions_data_run _ ext).
Qed.

(** X8: a later [init_unsharded_param] of a parameter with a
    post-all-gather hook, after the inner tensors' storage has been
    allocated, calls the hook once with the unflattened outputs, the
    metadata recorded by the last read of [all_gather_inputs], the dtype
    [param_dtype or orig_dtype] and [out] set to the existing view, and
    then clears the extension data.  The metadata and sizes are thereby
    consumed: unflattening the outputs again gives the empty tuple. *)
Theorem extension_metadata_is_consumed `{Externals} (w : World) (d : DTensor)
    (flag : bool) (ext : ExtensionsData) (pd : option dtype) (od : dtype)
    (outputs : list Tensor) (p : nat) :
  parameters (heap (env w)) !! sharded_param (self w)
  = Some {| data := Dist d; requires_grad := flag |} →
  t_has_post (_local_tensor d) = true →
  _extensions_data (self w) = Some ext →
  param_dtype (self w) = Some pd →
  orig_dtype (self w) = Some od →
  (_unflatten_all_gather_outputs w).1 = inr outputs →
  _unsharded_param (self w) = Some p →
  let inner := _local_tensor d in
  let e1 := (for_each (_unsharded_inner_tensors (self w)) alloc_storage (env w)).2 in
  ∀ r h1,
    fsdp_post_all_gather inner outputs (all_gather_metadata ext) (default od pd)
      (Some p) (heap e1) = (inr r, h1) →
    let w' := {| self := set_extensions_data
                           (Some {| all_gather_metadata := None;
                                    all_gather_input_sizes := [] |}) (self w);
                 env := {| heap := h1;
                           log := log e1
                                  ++ [EvPostAllGather inner outputs
                                        (all_gather_metadata ext) (default od pd)
                                        (Some p)] |} |} in
    init_unsharded_param w = (inr tt, w')
    ∧ _unflatten_all_gather_outputs w' = (inr [], w').
Proof.
  intros Hsh Hpost Hext Hpd Hod Hout Hup inner e1 r h1 Hhook w'.
  split.
  - eapply later_call_run; try done.
    by rewrite (sharded_local_tensor_run _ _ d flag).
  - unfold _unflatten_all_gather_outputs. rewrite bind_run. simpl.
    rewrite bind_run. simpl. by rewrite zip_with_nil_r.
Qed.

Lemma extension_metadata_is_consumed_witness :
  match second_pass_world with
  | Some w =>
      let inner := tensor_on 100 [2; 2] float16 cuda0 true true in
      ∃ w', init_unsharded_param (H := toy 1) w = (inr tt, w')
        ∧ _extensions_data (self w')
          = Some {| all_gather_metadata := None; all_gather_input_sizes := [] |}
        ∧ log (env w')
          = log (env w)
            ++ [EvPostAllGather inner
                  [tensor_on 102 [4; 2] float16 cuda0 false false]
                  (Some 7) float16 (Some 103)]
        ∧ _unflatten_all_gather_outputs w' = (inr [], w')
  | None => False
  end.
Proof.
  example_world w. intros inner.
  match goal with
  | |- ∃ w', init_unsharded_param ?w = _ ∧ _ =>
      pose proof (extension_metadata_is_consumed (H := toy 1) w
                    (_from_local_no_grad inner (mesh (fsdp_mesh 2 1))
                       [Shard 0] [4; 2] [2; 1])
                    true
                    {| all_gather_metadata := Some 7;
                       all_gather_input_sizes := [[2; 2]] |}
                    None float16
                    [tensor_on 102 [4; 2] float16 cuda0 false false] 103
                    eq_refl eq_refl eq_refl eq_refl eq_refl eq_refl eq_refl
                    None _ eq_refl) as [Hrun Hnext]
  end.
  eexists. split; [exact Hrun|]. split; [reflexivity|].
  split; [reflexivity|]. exact Hnext.
Defined.

(** ** The unsharded view is constructed once *)

(** C1: the unsharded view is constructed at most once.  Whatever is
    called on the parameter afterwards, [_unsharded_param] stays the object
    it is.  A call of [init_unsharded_param] on a parameter without a view
    that returns has constructed exactly one [nn.Parameter] and made it
    the view; for the default representation with its single all-gather
    output allocated it does return when the output is of a floating
    point dtype, and otherwise [nn.Parameter] refuses the output and
    nothing has changed.  A call on a parameter that has a view leaves
    that object in place and constructs no parameter: without a
    post-all-gather hook nothing at all changes, and with one the call
    allocates the inner tensors' storage, calls the hook once, with the
    unflattened outputs, the recorded metadata, [param_dtype or
    orig_dtype] and [out] set to the existing view, and clears the
    extension data; whenever it returns, its only actions were those
    allocations and that one call of the hook. *)
Theorem unsharded_param_constructed_once `{Externals} (w : World) :
  (∀ cs p, _unsharded_param (self w) = Some p →
           _unsharded_param (self (run_calls cs w)) = Some p)
  ∧ match _unsharded_param (self w) with
    | None =>
        (∀ w', init_unsharded_param w = (inr tt, w') →
           ∃ p value flag before,
             _unsharded_param (self w') = Some p
             ∧ log (env w')
               = log (env w) ++ before
                 ++ [EvParameter p value; EvRequiresGrad p flag]
             ∧ Forall (λ ev, is_parameter_event ev = false) before
             ∧ parameters (heap (env w')) !! p
               = Some {| data := value; requires_grad := flag |})
        ∧ (∀ d flag out,
             parameters (heap (env w)) !! sharded_param (self w)
             = Some {| data := Dist d; requires_grad := flag |} →
             t_has_post (_local_tensor d) = false →
             all_gather_outputs (self w) = [out] →
             extent 0 (_orig_size (self w))
               (make_contiguous_strides_for (_orig_size (self w)))
             * itemsize (t_dtype out)
             ≤ storage_size (heap (env w)) (t_storage out) →
             (is_dtensor (self w) = true → is_Some (_tp_spec (self w))) →
             if is_floating_point (t_dtype out)
             then ∃ w', init_unsharded_param w = (inr tt, w')
             else init_unsharded_param w
                  = (inl (RuntimeError
                            "Only Tensors of floating point and complex dtype can require gradients"),
                     w))
    | Some p =>
        _unsharded_param (self (init_unsharded_param w).2) = Some p
        ∧ on_env (log_grows (reassembly_event p)) w (init_unsharded_param w).2
        ∧ (∀ inner,
             (_sharded_local_tensor (self w) (env w)).1 = inr inner →
             if t_has_post inner
             then (∀ ext pd od outputs r h1,
                     _extensions_data (self w) = Some ext →
                     param_dtype (self w) = Some pd →
                     orig_dtype (self w) = Some od →
                     (_unflatten_all_gather_outputs w).1 = inr outputs →
                     let e1 := (for_each (_unsharded_inner_tensors (self w))
                                  alloc_storage (env w)).2 in
                     fsdp_post_all_gather inner outputs (all_gather_metadata ext)
                       (default od pd) (Some p) (heap e1) = (inr r, h1) →
                     init_unsharded_param w
                     = (inr tt,
                        {| self := set_extensions_data
                                     (Some {| all_gather_metadata := None;
                                              all_gather_input_sizes := [] |})
                                     (self w);
                           env := {| heap := h1;
                                     log := log e1
                                            ++ [EvPostAllGather inner outputs
                                                  (all_gather_metadata ext)
                                                  (default od pd) (Some p)] |} |}))
                  ∧ (∀ w', init_unsharded_param w = (inr tt, w') →
                       ∃ resizes outputs metadata d,
                         log (env w')
                         = log (env w) ++ resizes
                           ++ [EvPostAllGather inner outputs metadata d (Some p)]
                         ∧ Forall is_resize_event resizes)
             else init_unsharded_param w = (inr tt, w))
    end.
Proof.
  split.
  { intros cs p Hp. by apply (run_calls_keeps_view cs w). }
  destruct (_unsharded_param (self w)) as [p|] eqn:Hup.
  - split; [by apply (init_unsharded_param_keeps_view w)|].
    split; [by apply later_call_log|].
    intros inner Hinner. destruct (t_has_post inner) eqn:Hpost.
    + split.
      * intros ext pd od outputs r h1 Hext Hpd Hod Hout e1 Hhook.
        by eapply later_call_run.
      * intros w' Hrun. by eapply later_call_reassembles.
    + by eapply later_call_noop.
  - split.
    + intros w' Hrun. by apply first_call_constructs.
    + intros d flag out Hsh Hpost Hout Hfit Htp.
      by eapply first_call_default_run.
Qed.

Lemma unsharded_param_constructed_once_witness :
  match allocated_world 0, gathered_world 1, second_pass_world with
  | Some wa, Some wg, Some ws =>
      (∃ w', init_unsharded_param (H := toy 0) wa = (inr tt, w'))
      ∧ _unsharded_param
          (self (run_calls (H := toy 1)
                   [call_init_unsharded_param; call_to_unsharded;
                    call_to_sharded; call_init_unsharded_param] wg))
        = Some 103
      ∧ _unsharded_param (self (init_unsharded_param (H := toy 1) wg).2)
        = Some 103
      ∧ ∃ ws', init_unsharded_param (H := toy 1) ws = (inr tt, ws')
          ∧ _unsharded_param (self ws') = Some 103
          ∧ log (env ws')
            = log (env ws)
              ++ [EvPostAllGather (tensor_on 100 [2; 2] float16 cuda0 true true)
                    [tensor_on 102 [4; 2] float16 cuda0 false false]
                    (Some 7) float16 (Some 103)]
  | _, _, _ => False
  end.
Proof.
  destruct (allocated_world 0) as [wa|] eqn:Ea; [|by vm_compute in Ea].
  destruct (gathered_world 1) as [wg|] eqn:Eg; [|by vm_compute in Eg].
  destruct second_pass_world as [ws|] eqn:Es; [|by vm_compute in Es].
  vm_compute in Ea, Eg, Es.
  injection Ea as <-. injection Eg as <-. injection Es as <-.
  split; [|split; [|split]].
  - match goal with
    | |- ∃ w', init_unsharded_param ?w = _ =>
        pose proof (proj2 (unsharded_param_constructed_once (H := toy 0) w)) as Hf
    end.
    cbn [self _unsharded_param] in Hf. destruct Hf as [_ Hf].
    apply (Hf (_from_local_no_grad
                 (tensor_on 100 [2; 2] float16 cuda0 false false)
                 (mesh (fsdp_mesh 2 1)) [Shard 0] [4; 2] [2; 1])
              true (empty_tensor 102 [8] float16 cuda0)
              eq_refl eq_refl eq_refl).
    + vm_compute. lia.
    + discriminate.
  - match goal with
    | |- _unsharded_param (self (run_calls ?cs ?w)) = _ =>
        exact (proj1 (unsharded_param_constructed_once (H := toy 1) w)
                 cs 103 eq_refl)
    end.
  - match goal with
    | |- _unsharded_param (self (init_unsharded_param ?w).2) = _ =>
        pose proof (proj2 (unsharded_param_constructed_once (H := toy 1) w)) as Hs
    end.
    cbn [self _unsharded_param] in Hs. exact (proj1 Hs).
  - match goal with
    | |- ∃ w', init_unsharded_param ?w = _ ∧ _ =>
        pose proof (proj2 (unsharded_param_constructed_once (H := toy 1) w)) as Hs
    end.
    cbn [self _unsharded_param] in Hs. destruct Hs as (_ & _ & Hs).
    specialize (Hs (tensor_on 100 [2; 2] float16 cuda0 true true) eq_refl).
    cbn [t_has_post tensor_on] in Hs. destruct Hs as [Hs _].
    specialize (Hs {| all_gather_metadata := Some 7;
                      all_gather_input_sizes := [[2; 2]] |}
                   None float16
                   [tensor_on 102 [4; 2] float16 cuda0 false false] None _
                   eq_refl eq_refl eq_refl eq_refl eq_refl).
    eexists. split; [exact Hs|]. split; reflexivity.
Defined.



(** ** Unflattening the all-gather outputs *)

Lemma view_infer_contiguous {S} (t : Tensor) (trailing : list nat) (s : S) :
  is_contiguous t = true → numel trailing ≠ 0 →
  numel (t_size t) `mod` numel trailing = 0 →
  ∃ stride,
    view_infer t trailing s
    = (inr (with_view t (t_offset t)
              (numel (t_size t) `div` numel trailing :: trailing) stride), s).
Proof.
  intros Hc%is_contiguous_spec Hp Hmod. unfold view_infer, infer_size.
  rewrite (bool_decide_true (0 < _ ∧ _)) by (split; [lia|done]).
  rewrite orb_true_r, decide_False by done.
  rewrite bind_run. cbn [mret M_ret].
  destruct (compute_stride_contiguous (t_size t) (t_stride t)
              (numel (t_size t) `div` numel trailing :: trailing) Hc)
    as [stride ->]; [|by exists stride].
  rewrite numel_cons. apply Nat.Div0.div_exact in Hmod. lia.
Qed.

Lemma numel_hd_drop (sz : list nat) : numel sz = hd 1 sz * numel (drop 1 sz).
Proof. destruct sz as [|r sz]; [done|]. simpl. by rewrite drop_0. Qed.

(** X10: [_unflatten_all_gather_outputs] undoes the flattening of the
    all-gather inputs.  Without extension data it raises
    [AttributeError].  Otherwise it pairs outputs with recorded input
    sizes up to the shorter list, and an output with [world_size] times the
    elements of an input of size [r :: trailing] becomes a view of the
    same storage, offset and dtype with size [world_size * r :: trailing]
    and as many elements as before ([world_size] for a scalar input). *)
Theorem unflatten_restores_input_shapes (w : World) (world_size : nat) :
  (_extensions_data (self w) = None →
   _unflatten_all_gather_outputs w = (inl (AttributeError "_extensions_data"), w))
  ∧ ∀ ext,
      _extensions_data (self w) = Some ext →
      Forall (λ '(out, sz),
                is_contiguous out = true
                ∧ numel (drop 1 sz) ≠ 0
                ∧ numel (t_size out) = world_size * numel sz)
             (zip (all_gather_outputs (self w)) (all_gather_input_sizes ext)) →
      ∃ ts,
        _unflatten_all_gather_outputs w = (inr ts, w)
        ∧ length ts = Nat.min (length (all_gather_outputs (self w)))
                              (length (all_gather_input_sizes ext))
        ∧ ∀ k out sz,
            all_gather_outputs (self w) !! k = Some out →
            all_gather_input_sizes ext !! k = Some sz →
            ∃ t, ts !! k = Some t
              ∧ t_size t = world_size * hd 1 sz :: drop 1 sz
              ∧ numel (t_size t) = numel (t_size out)
              ∧ t_storage t = t_storage out
              ∧ t_offset t = t_offset out
              ∧ t_dtype t = t_dtype out.
Proof.
  split.
  { intros Hnone. unfold _unflatten_all_gather_outputs. rewrite bind_run. simpl.
    by rewrite Hnone. }
  intros ext Hext Hall.
  unfold _unflatten_all_gather_outputs. rewrite bind_run. simpl.
  rewrite Hext. simpl. rewrite bind_run. simpl.
  generalize dependent (all_gather_input_sizes ext).
  generalize (all_gather_outputs (self w)). clear Hext ext.
  intros outs. induction outs as [|out outs IH]; intros sizes Hall.
  { exists []. split; [done|]. split; [done|]. intros k out sz Hk.
    by rewrite lookup_nil in Hk. }
  destruct sizes as [|sz sizes].
  { exists []. split; [done|]. split; [simpl; lia|]. intros k out' sz' _ Hk.
    by rewrite lookup_nil in Hk. }
  simpl in Hall. apply Forall_cons in Hall as [(Hc & Hp & Hn) Hall].
  destruct (IH sizes Hall) as (ts & Hrun & Hlen & Hts).
  assert (numel (t_size out) `mod` numel (drop 1 sz) = 0) as Hmod.
  { rewrite Hn, numel_hd_drop, Nat.mul_assoc. by apply Nat.Div0.mod_mul. }
  assert (numel (t_size out) `div` numel (drop 1 sz) = world_size * hd 1 sz)
    as Hdiv.
  { rewrite Hn, numel_hd_drop, Nat.mul_assoc. by apply Nat.div_mul. }
  destruct (view_infer_contiguous out (drop 1 sz) w Hc Hp Hmod) as [stride Hv].
  simpl. rewrite bind_run, Hv, Hdiv.
  rewrite bind_run, Hrun. simpl. eexists. split; [done|].
  split; [simpl; by rewrite Hlen|].
  intros [|k] out' sz' Hout Hsz; simpl in *.
  - injection Hout as <-. injection Hsz as <-. eexists. split; [done|].
    simpl. split; [done|]. split; [|done].
    rewrite Hn, (numel_hd_drop sz). lia.
  - by apply Hts.
Qed.

Lemma unflatten_restores_input_shapes_witness :
  match allocated_world 1 with
  | Some w =>
      ∃ ts, _unflatten_all_gather_outputs w = (inr ts, w)
        ∧ length ts = 1
        ∧ ∃ t, ts !! 0 = Some t ∧ t_size t = [4; 2] ∧ t_storage t = 102
  | None => False
  end.
Proof.
  example_world w.
  match goal with
  | |- ∃ ts, _unflatten_all_gather_outputs ?w = _ ∧ _ =>
      destruct (proj2 (unflatten_restores_input_shapes w 2)
                  {| all_gather_metadata := Some 7;
                     all_gather_input_sizes := [[2; 2]] |} eq_refl)
        as (ts & Hrun & Hlen & Hts)
  end.
  { repeat constructor. simpl. lia. }
  exists ts. split; [exact Hrun|]. split; [exact Hlen|].
  destruct (Hts 0 (empty_tensor 102 [8] float16 cuda0) [2; 2] eq_refl eq_refl)
    as (t & Ht & Hsize & _ & Hsto & _).
  exists t. split; [exact Ht|]. split; [exact Hsize|exact Hsto].
Defined.

(** ** Mixed precision attributes *)

(** X11: [init_dtype_attrs] records the shard's dtype as [orig_dtype], the
    policy's [reduce_dtype] as it is, and the policy's [param_dtype]
    clamped to [None] when it equals the shard's dtype; so [param_dtype]
    is never the shard's own dtype, and [param_dtype or orig_dtype] is the
    policy's [param_dtype] when it has one and the shard's dtype
    otherwise.  The heap and the log are untouched, and an earlier call
    has no influence on a later one. *)
Theorem init_dtype_attrs_clamps (w : World) (mp : MixedPrecisionPolicy)
    (view : nn_Parameter) :
  parameters (heap (env w)) !! sharded_param (self w) = Some view →
  let orig := tl_dtype (data view) in
  let clamped := if decide (policy_param_dtype mp = Some orig) then None
                 else policy_param_dtype mp in
  let w' := {| self := set_reduce_dtype (Some (policy_reduce_dtype mp))
                         (set_param_dtype (Some clamped)
                            (set_orig_dtype (Some orig) (self w)));
               env := env w |} in
  init_dtype_attrs mp w = (inr tt, w')
  ∧ clamped ≠ Some orig
  ∧ param_dtype_or_orig w'
    = (inr (default orig (policy_param_dtype mp)), w')
  ∧ ∀ mp', init_dtype_attrs mp' w' = init_dtype_attrs mp' w.
Proof.
  intros Hview orig clamped w'. destruct w as [s e]. cbn [self env] in *.
  assert (∀ mp0 s0,
    sharded_param s0 = sharded_param s →
    init_dtype_attrs mp0 {| self := s0; env := e |}
    = (inr tt,
       {| self := set_reduce_dtype (Some (policy_reduce_dtype mp0))
                    (set_param_dtype
                       (Some (if decide (policy_param_dtype mp0 = Some orig)
                              then None else policy_param_dtype mp0))
                       (set_orig_dtype (Some orig) s0));
          env := e |})) as Hrun.
  { intros mp0 s0 Hs0. unfold init_dtype_attrs. rewrite bind_run. simpl.
    rewrite bind_run, lift_env_run. cbn [self env]. rewrite Hs0.
    rewrite (deref_run _ _ _ Hview). simpl.
    by rewrite !bind_run. }
  split; [by apply Hrun|].
  split; [subst clamped; case_decide; congruence|].
  split.
  { unfold param_dtype_or_orig. rewrite bind_run. simpl. rewrite bind_run. simpl.
    subst clamped. case_decide as Hpd; [by rewrite Hpd|].
    by destruct (policy_param_dtype mp). }
  intros mp'. subst w'. by rewrite !Hrun.
Qed.

Lemma init_dtype_attrs_clamps_witness :
  match small_world 0 with
  | Some w =>
      ∃ w', init_dtype_attrs
              {| policy_param_dtype := Some float16;
                 policy_reduce_dtype := Some float32 |} w = (inr tt, w')
        ∧ orig_dtype (self w') = Some float16
        ∧ param_dtype (self w') = Some None
        ∧ reduce_dtype (self w') = Some (Some float32)
        ∧ param_dtype_or_orig w' = (inr float16, w')
  | None => False
  end.
Proof.
  example_world w.
  match goal with
  | |- ∃ w', init_dtype_attrs ?mp ?w = _ ∧ _ =>
      destruct (init_dtype_attrs_clamps w mp (small_shard false) eq_refl)
        as (Hrun & _ & Hor & _)
  end.
  eexists. split; [exact Hrun|]. split; [reflexivity|]. split; [reflexivity|].
  split; [reflexivity|]. exact Hor.
Defined.

(** ** The post-forward mesh *)

Lemma always_raises_bind {A B} (m : M World A) (f : A → M World B) :
  preserves (same_attr post_forward_mesh_info) m →
  (∀ a, always_raises no_hsdp_post_forward_mesh (f a)) →
  always_raises no_hsdp_post_forward_mesh (m ≫= f).
Proof.
  intros Hm Hf w HP. rewrite bind_run. specialize (Hm w). unfold same_attr in Hm.
  destruct (m w) as [[e|a] w1]; simpl in *; [done|].
  apply Hf. intros info Hinfo. apply HP. by rewrite <- Hm.
Qed.

Lemma always_raises_first {A B} P (m : M World A) (f : A → M World B) :
  always_raises P m → always_raises P (m ≫= f).
Proof.
  intros Hm w HP. rewrite bind_run. specialize (Hm w HP).
  by destruct (m w) as [[e|a] w1].
Qed.

Lemma to_sharded_post_forward_dtensor_raises tensor :
  always_raises no_hsdp_post_forward_mesh (to_sharded_post_forward_dtensor tensor).
Proof.
  intros w HP. unfold to_sharded_post_forward_dtensor. rewrite bind_run. simpl.
  destruct (sharded_post_forward_size (self w)) as [size|]; simpl; [|done].
  rewrite !bind_run. simpl.
  destruct (bool_decide _); simpl; [done|].
  destruct (post_forward_mesh_info (self w)) as [info|] eqn:Hinfo; [|done].
  rewrite bind_run. unfold assert. by rewrite (HP info Hinfo).
Qed.

(** X12: [to_sharded_post_forward] can only return for a parameter whose
    post-forward mesh is an HSDP mesh.  Without a post-forward mesh, or
    with one that is not an HSDP mesh, it raises in every state, and the
    parameter's state and construction attributes are what they were. *)
Theorem post_forward_reshard_requires_hsdp (w : World) :
  (∀ info, post_forward_mesh_info (self w) = Some info → is_hsdp info = false) →
  is_error (to_sharded_post_forward w).1
  ∧ sharded_state (self (to_sharded_post_forward w).2) = sharded_state (self w)
  ∧ construction_attrs (self (to_sharded_post_forward w).2)
    = construction_attrs (self w).
Proof.
  intros HP.
  assert (is_error (to_sharded_post_forward w).1) as Herr.
  { revert w HP. change (always_raises no_hsdp_post_forward_mesh
                           to_sharded_post_forward).
    unfold to_sharded_post_forward.
    repeat first
      [ apply always_raises_first; apply to_sharded_post_forward_dtensor_raises
      | apply always_raises_bind;
          [ unfold_methods; unfold set_state; same_attr_tac; fail | intros ? ] ]. }
  split; [done|]. split.
  - rewrite to_sharded_post_forward_transition.
    by destruct (to_sharded_post_forward w).1.
  - apply (run_call_construction_attrs (H := toy 0) call_to_sharded_post_forward).
Qed.

Lemma post_forward_reshard_requires_hsdp_witness :
  match flat_post_forward_world with
  | Some w =>
      sharded_state (self w) = UNSHARDED
      ∧ post_forward_mesh_info (self w) = Some (fsdp_mesh 2 0)
      ∧ is_error (to_sharded_post_forward w).1
      ∧ sharded_state (self (to_sharded_post_forward w).2) = UNSHARDED
  | None => False
  end.
Proof.
  example_world w. split; [reflexivity|]. split; [reflexivity|].
  match goal with
  | |- is_error (to_sharded_post_forward ?w).1 ∧ _ =>
      destruct (post_forward_reshard_requires_hsdp w) as (Herr & Hst & _)
  end.
  { intros info [= <-]. reflexivity. }
  split; [exact Herr|exact Hst].
Defined.

(** ** Construction from a DTensor *)

Lemma dtensor_placements_inv `{Externals} info spec (e e' : Env) gm gp :
  dtensor_placements info spec e = (inr (gm, gp), e') →
  shard_mesh_dim info = Some 0 ∧ replicate_mesh_dim info = None
  ∧ get_parent_mesh (mesh info) = Some gm
  ∧ get_parent_mesh (spec_mesh spec) = Some gm
  ∧ ∃ pl dp tp,
      placements spec = [pl]
      ∧ get_parent_mesh_dim (mesh info) = Some dp
      ∧ get_parent_mesh_dim (spec_mesh spec) = Some tp
      ∧ dp < 2 ∧ tp < 2
      ∧ gp = dp_tp_placements dp tp pl.
Proof.
  unfold dtensor_placements. intros Hrun.
  apply bind_inv in Hrun as ([] & e0 & Hhsdp & Hrun).
  destruct (bool_decide (shard_mesh_dim info ≠ Some 0)) eqn:H1; [done|].
  destruct (bool_decide (replicate_mesh_dim info ≠ None)) eqn:H2; [done|].
  apply bool_decide_eq_false in H1, H2.
  apply dec_stable in H1. apply dec_stable in H2.
  split; [done|]. split; [done|].
  destruct (get_parent_mesh (mesh info)) as [g|]; [|done].
  destruct (get_parent_mesh (spec_mesh spec)) as [g'|]; [|done].
  destruct (decide (g = g')) as [<-|]; [|done].
  apply bind_inv in Hrun as ([] & e1 & Hlen & Hrun).
  destruct (bool_decide (length (placements spec) ≠ 1)) eqn:H3; [done|].
  apply bool_decide_eq_false in H3. apply dec_stable in H3.
  apply bind_inv in Hrun as (dp & e2 & Hdp & Hrun).
  destruct (get_parent_mesh_dim (mesh info)) as [dp'|]; [|done].
  injection Hdp as <- <-.
  apply bind_inv in Hrun as (tp & e3 & Htp & Hrun).
  destruct (get_parent_mesh_dim (spec_mesh spec)) as [tp'|]; [|done].
  injection Htp as <- <-.
  apply bind_inv in Hrun as (gp1 & e4 & Hgp1 & Hrun).
  unfold list_assign in Hgp1. case_decide as Hdp2; [|done].
  injection Hgp1 as <- <-.
  apply bind_inv in Hrun as (pl & e5 & Hpl & Hrun).
  unfold index in Hpl.
  destruct (placements spec) as [|pl' [|? ?]] eqn:Hpls; try done.
  simpl in Hpl. injection Hpl as <- <-.
  apply bind_inv in Hrun as (gp2 & e6 & Hgp2 & Hrun).
  unfold list_assign in Hgp2. case_decide as Htp2; [|done].
  injection Hgp2 as <- <-. injection Hrun as <- <- <-.
  split; [done|]. split; [done|].
  eexists _, _, _. simpl in Hdp2. rewrite length_insert in Htp2. simpl in Htp2.
  done.
Qed.

Lemma init_sharded_param_layout `{Externals} mi info pf param dev (e e' : Env) s :
  _init_sharded_param mi info pf param dev e = (inr s, e') →
  _global_size s = tl_size (data param)
  ∧ _global_stride s = tl_stride (data param)
  ∧ _orig_size s = t_size (local_of (data param))
  ∧ _module_info s = mi ∧ mesh_info s = info
  ∧ post_forward_mesh_info s = pf ∧ device s = dev
  ∧ match data param with
    | Plain t =>
        is_dtensor s = false ∧ _tp_spec s = None
        ∧ _global_mesh s = mesh info
        ∧ _global_placements s
          = if is_hsdp info then [Replicate; Shard 0] else [Shard 0]
    | Dist d =>
        is_dtensor s = true ∧ _tp_spec s = Some (_spec d)
        ∧ shard_mesh_dim info = Some 0 ∧ replicate_mesh_dim info = None
        ∧ get_parent_mesh (mesh info) = Some (_global_mesh s)
        ∧ get_parent_mesh (spec_mesh (_spec d)) = Some (_global_mesh s)
        ∧ ∃ pl dp tp,
            placements (_spec d) = [pl]
            ∧ get_parent_mesh_dim (mesh info) = Some dp
            ∧ get_parent_mesh_dim (spec_mesh (_spec d)) = Some tp
            ∧ dp < 2 ∧ tp < 2
            ∧ _global_placements s = dp_tp_placements dp tp pl
    end.
Proof.
  intros Hrun. unfold _init_sharded_param in Hrun.
  apply bind_inv in Hrun as ([] & e0 & _ & Hrun).
  apply bind_inv in Hrun as ([[[tp gm] gp] pd] & e1 & Hpl & Hrun).
  repeat (apply bind_inv in Hrun as (? & ? & _ & Hrun)).
  injection Hrun as <- <-. simpl.
  destruct (data param) as [t|d]; simpl in *.
  - injection Hpl as <- <- <- <- <-. done.
  - apply bind_inv in Hpl as ([gm' gp'] & e2 & Hdp & Hpl).
    injection Hpl as <- <- <- <- <-.
    apply dtensor_placements_inv in Hdp
      as (Hs & Hr & Hg & Hg' & pl & dp & tp' & Hpls & Hdp & Htp & Hlt & Hlt' & ->).
    repeat split; try done. by exists pl, dp, tp'.
Qed.

Lemma init_extensions_attrs (s s' : FSDPParam) (e e' : Env) :
  _init_extensions s e = (inr s', e') →
  construction_attrs s' = construction_attrs s.
Proof.
  unfold _init_extensions. intros Hrun.
  apply bind_inv in Hrun as (inner & e1 & _ & Hrun).
  apply bind_inv in Hrun as ([] & e2 & _ & Hrun).
  apply bind_inv in Hrun as (s1 & e3 & Hs1 & Hrun).
  injection Hrun as <- <-.
  destruct (t_has_pre inner).
  - apply bind_inv in Hs1 as (loc & e4 & _ & Hs1).
    apply bind_inv in Hs1 as ([] & e5 & _ & Hs1).
    by injection Hs1 as <- <-.
  - by injection Hs1 as <- <-.
Qed.

Lemma init_layout `{Externals} param mi info pf dev mp (e e' : Env) s :
  __init__ param mi info pf dev mp e = (inr s, e') →
  ∃ s1 e1,
    _init_sharded_param mi info pf param dev e = (inr s1, e1)
    ∧ _module_info s = _module_info s1 ∧ mesh_info s = mesh_info s1
    ∧ post_forward_mesh_info s = post_forward_mesh_info s1
    ∧ device s = device s1 ∧ is_dtensor s = is_dtensor s1
    ∧ _tp_spec s = _tp_spec s1 ∧ _global_mesh s = _global_mesh s1
    ∧ _global_placements s = _global_placements s1
    ∧ _global_size s = _global_size s1 ∧ _global_stride s = _global_stride s1
    ∧ _orig_size s = _orig_size s1 ∧ sharded_size s = sharded_size s1
    ∧ padded_sharded_param_size s = padded_sharded_param_size s1
    ∧ _sharded_param_data s = _sharded_param_data s1
    ∧ sharded_param s = sharded_param s1
    ∧ parameters (heap e') = parameters (heap e1)
    ∧ modules (heap e') = modules (heap e1).
Proof.
  intros Hrun. unfold __init__ in Hrun.
  apply bind_inv in Hrun as (s1 & e1 & Hs1 & Hrun).
  exists s1, e1. split; [done|].
  apply bind_inv in Hrun as (s2 & e2 & Hs2 & Hrun).
  apply bind_inv in Hrun as (s3 & e3 & Hs3 & Hrun).
  injection Hrun as <- <-.
  pose proof (init_extensions_attrs _ _ _ _ Hs3) as Hattrs.
  assert (e3 = e2) as ->.
  { unfold _init_extensions in Hs3.
    apply bind_inv in Hs3 as (inner & e4 & Hin & Hs3).
    apply unchanged_run in Hin as ->; [|apply sharded_local_tensor_unchanged].
    apply bind_inv in Hs3 as ([] & e5 & Hck & Hs3).
    assert (e5 = e2) as -> by (destruct (bool_decide _); [done|by injection Hck]).
    apply bind_inv in Hs3 as (s4 & e6 & Hs4 & Hs3).
    injection Hs3 as _ <-.
    destruct (t_has_pre inner); [|by injection Hs4].
    apply bind_inv in Hs4 as (loc & e7 & Hloc & Hs4).
    apply unchanged_run in Hloc as ->; [|apply sharded_local_tensor_unchanged].
    apply bind_inv in Hs4 as ([] & e8 & Hck' & Hs4).
    assert (e8 = e2) as -> by (destruct (bool_decide _); [done|by injection Hck']).
    by injection Hs4. }
  assert (construction_attrs s2
          = construction_attrs
              (set_contiguous_sharded_post_forward_stride
                 (contiguous_sharded_post_forward_stride s2)
                 (set_sharded_post_forward_size (sharded_post_forward_size s2) s1))
          ∧ same_objects e1 e2) as [Hs12 [Hpar Hmod]].
  { destruct (post_forward_mesh_info s1).
    - apply init_post_forward_metadata_inv in Hs2 as (Hobj & size & ->). done.
    - injection Hs2 as <- <-. done. }
  rewrite Hs12 in Hattrs. clear Hs12.
  unfold construction_attrs in Hattrs. simpl in *.
  injection Hattrs as ? ? ? ? ? ? ? ? ? ? ? ? ? ? ? ? ? ? ?.
  repeat split; congruence.
Qed.

Lemma init_dtensor_error `{Externals} param mi info pf dev mp (e e1 : Env) d ex :
  data param = Dist d →
  tl_device (data param) = dev ∨ dev_type (tl_device (data param)) = "meta" →
  dtensor_placements info (_spec d) e = (inl ex, e1) →
  __init__ param mi info pf dev mp e = (inl ex, e1).
Proof.
  intros Hd Hdev Hpl. unfold __init__, _init_sharded_param.
  rewrite !bind_run.
  assert (bool_decide (tl_device (data param) ≠ dev)
          && bool_decide (dev_type (tl_device (data param)) ≠ "meta") = false)
    as ->.
  { destruct Hdev as [Hdev|Hdev].
    - by rewrite bool_decide_false by (by intros ?).
    - rewrite (bool_decide_false (dev_type _ ≠ _)) by (by intros ?).
      by rewrite andb_false_r. }
  simpl. rewrite Hd. by rewrite !bind_run, Hpl.
Qed.

(** X13: construction of a parameter that tensor parallelism already made
    a [DTensor] (on the right device).  With an HSDP mesh it raises
    [NotImplementedError] "Using TP with HSDP is not supported"; when the
    data-parallel mesh has no parent mesh or not the one of the
    tensor-parallel mesh, the parent-mesh assertion fails; with a
    tensor-parallel spec of other than one placement it raises
    [NotImplementedError] "FSDP only supports 1D TP"; each time the heap is
    untouched.  When it returns, the parameter is marked as a [DTensor],
    keeps the tensor-parallel spec, has the common parent mesh as global
    mesh, the global size and stride of the given [DTensor], its local
    size as original size, and a two-dimensional placement with the
    tensor-parallel placement at the tensor-parallel mesh dimension and
    [Shard 0] at the data-parallel one. *)
Theorem dtensor_construction_layout `{Externals} (param : nn_Parameter)
    (mi : ParamModuleInfo) (info : FSDPMeshInfo) (pf : option FSDPMeshInfo)
    (dev : Device) (mp : MixedPrecisionPolicy) (e : Env) (d : DTensor) :
  data param = Dist d →
  tl_device (data param) = dev ∨ dev_type (tl_device (data param)) = "meta" →
  let build := __init__ param mi info pf dev mp e in
  let dp_mesh := mesh info in
  let tp_mesh := spec_mesh (_spec d) in
  (shard_mesh_dim info ≠ Some 0 ∨ replicate_mesh_dim info ≠ None →
   build = (inl (NotImplementedError "Using TP with HSDP is not supported"), e))
  ∧ (shard_mesh_dim info = Some 0 → replicate_mesh_dim info = None →
     get_parent_mesh dp_mesh = None
     ∨ get_parent_mesh dp_mesh ≠ get_parent_mesh tp_mesh →
     build = (inl (AssertionError ParentMeshMismatch), e))
  ∧ (shard_mesh_dim info = Some 0 → replicate_mesh_dim info = None →
     is_Some (get_parent_mesh dp_mesh) →
     get_parent_mesh dp_mesh = get_parent_mesh tp_mesh →
     length (placements (_spec d)) ≠ 1 →
     build = (inl (NotImplementedError "FSDP only supports 1D TP"), e))
  ∧ ∀ s e',
      build = (inr s, e') →
      is_dtensor s = true
      ∧ _tp_spec s = Some (_spec d)
      ∧ get_parent_mesh dp_mesh = Some (_global_mesh s)
      ∧ get_parent_mesh tp_mesh = Some (_global_mesh s)
      ∧ _global_size s = dt_size d
      ∧ _global_stride s = dt_stride d
      ∧ _orig_size s = t_size (_local_tensor d)
      ∧ ∃ pl dp tp,
          placements (_spec d) = [pl]
          ∧ get_parent_mesh_dim dp_mesh = Some dp
          ∧ get_parent_mesh_dim tp_mesh = Some tp
          ∧ dp < 2 ∧ tp < 2
          ∧ _global_placements s = dp_tp_placements dp tp pl
          ∧ (dp ≠ tp → _global_placements s !! dp = Some (Shard 0))
          ∧ _global_placements s !! tp = Some pl.
Proof.
  intros Hd Hdev build dp_mesh tp_mesh. subst build.
  split; [|split; [|split]].
  - intros Hhsdp. apply (init_dtensor_error _ _ _ _ _ _ _ _ d); try done.
    unfold dtensor_placements. rewrite bind_run.
    destruct Hhsdp as [Hs|Hr].
    + by rewrite (bool_decide_true (shard_mesh_dim info ≠ Some 0)).
    + rewrite (bool_decide_true (replicate_mesh_dim info ≠ None)) by done.
      by rewrite orb_true_r.
  - intros Hs Hr Hmesh. apply (init_dtensor_error _ _ _ _ _ _ _ _ d); try done.
    unfold dtensor_placements. rewrite bind_run.
    rewrite bool_decide_false by (by intros ?).
    rewrite bool_decide_false by (by intros ?). simpl.
    fold dp_mesh tp_mesh.
    destruct (get_parent_mesh dp_mesh) as [g|]; [|done].
    destruct (get_parent_mesh tp_mesh) as [g'|]; [|done].
    destruct Hmesh as [?|Hne]; [done|].
    rewrite decide_False; [done|]. intros ->. done.
  - intros Hs Hr [g Hg] Hsame Hlen.
    apply (init_dtensor_error _ _ _ _ _ _ _ _ d); try done.
    unfold dtensor_placements. rewrite bind_run.
    rewrite bool_decide_false by (by intros ?).
    rewrite bool_decide_false by (by intros ?). simpl.
    fold dp_mesh tp_mesh. rewrite <- Hsame, Hg.
    rewrite decide_True by done. rewrite bind_run.
    by rewrite bool_decide_true.
  - intros s e' Hrun.
    apply init_layout in Hrun
      as (s1 & e1 & Hs1 & _ & _ & _ & _ & -> & -> & -> & -> & -> & -> & -> & _).
    apply init_sharded_param_layout in Hs1
      as (Hgs & Hgst & Hos & _ & _ & _ & _ & Hl).
    rewrite Hd in *. simpl in *.
    destruct Hl as (Hdt & Htp & _ & _ & Hg & Hg' & pl & dp & tp & Hpls & Hdp & Htp'
                    & Hlt & Hlt' & Hgp).
    repeat split; try done.
    exists pl, dp, tp. repeat split; try done.
    + intros Hne. rewrite Hgp. unfold dp_tp_placements.
      rewrite list_lookup_insert_ne by done.
      apply list_lookup_insert_eq. simpl. lia.
    + rewrite Hgp. unfold dp_tp_placements.
      apply list_lookup_insert_eq. rewrite length_insert. simpl. lia.
Qed.

Lemma dtensor_construction_layout_witness :
  match dtensor_world with
  | Some w =>
      is_dtensor (self w) = true
      ∧ _global_mesh (self w) = root_mesh
      ∧ _global_placements (self w) = [Shard 0; Shard 1]
      ∧ _global_size (self w) = [4; 4]
      ∧ _orig_size (self w) = [4; 2]
  | None => False
  end.
Proof.
  unfold dtensor_world, constructed.
  match goal with
  | |- match match ?r with _ => _ end with _ => _ end =>
      destruct r as [[ex|s] e'] eqn:Hrun; [by vm_compute in Hrun|]
  end.
  match type of Hrun with
  | __init__ ?param ?mi ?info ?pf ?dev ?mp ?e = _ =>
      destruct (proj2 (proj2 (proj2
                  (dtensor_construction_layout (H := toy 0) param mi info pf dev
                     mp e _ eq_refl (or_introl eq_refl)))) s e' Hrun)
        as (Hdt & _ & Hg & _ & Hgs & _ & Hos & pl & dp & tp & Hpl & Hdp & Htp
            & _ & _ & Hgp & _)
  end.
  simpl in Hg, Hpl, Hdp, Htp. injection Hg as Hg. injection Hpl as <-.
  injection Hdp as <-. injection Htp as <-.
  cbn [self]. by repeat split.
Defined.

(** ** A parameter right after construction *)

Lemma init_sharded_param_unset `{Externals} mi info pf param dev (e e' : Env) s :
  _init_sharded_param mi info pf param dev e = (inr s, e') →
  orig_dtype s = None ∧ param_dtype s = None ∧ reduce_dtype s = None
  ∧ _sharded_post_forward_param s = None
  ∧ _sharded_post_forward_param_data s = None
  ∧ _extensions_data s = None.
Proof.
  intros Hrun. unfold _init_sharded_param in Hrun.
  apply bind_inv in Hrun as ([] & e0 & _ & Hrun).
  apply bind_inv in Hrun as ([[[tp gm] gp] pd] & e1 & Hpl & Hrun).
  repeat (apply bind_inv in Hrun as (? & ? & _ & Hrun)).
  by injection Hrun as <- <-.
Qed.

Lemma init_unset `{Externals} param mi info pf dev mp (e e' : Env) s :
  __init__ param mi info pf dev mp e = (inr s, e') →
  orig_dtype s = None ∧ param_dtype s = None ∧ reduce_dtype s = None
  ∧ _sharded_post_forward_param s = None
  ∧ _sharded_post_forward_param_data s = None
  ∧ ∃ d, parameters (heap e') !! sharded_param s
         = Some {| data := Dist d; requires_grad := requires_grad param |}
       ∧ same_kind (local_of (data param)) (_local_tensor d)
       ∧ _extensions_data s
         = if t_has_pre (_local_tensor d)
           then Some {| all_gather_metadata := None;
                        all_gather_input_sizes := [] |}
           else None.
Proof.
  intros Hrun. unfold __init__ in Hrun.
  apply bind_inv in Hrun as (s1 & e1 & Hs1 & Hrun).
  pose proof (init_sharded_param_unset _ _ _ _ _ _ _ _ Hs1)
    as (Hod & Hpd & Hrd & Hpfp & Hpfd & Hext).
  apply init_sharded_param_inv in Hs1
    as (_ & n & trailing & rows & d & _ & _ & _ & _ & _ & Hpar & Hkind & _).
  apply bind_inv in Hrun as (s2 & e2 & Hs2 & Hrun).
  assert (same_objects e1 e2
          ∧ s2 = set_contiguous_sharded_post_forward_stride
                   (contiguous_sharded_post_forward_stride s2)
                   (set_sharded_post_forward_size (sharded_post_forward_size s2) s1))
    as [[Hobj _] Hs12].
  { destruct (post_forward_mesh_info s1).
    - apply init_post_forward_metadata_inv in Hs2 as (Hobj & size & ->). done.
    - injection Hs2 as <- <-. split; [by split|].
      match goal with
      | |- _ = set_contiguous_sharded_post_forward_stride _
                 (set_sharded_post_forward_size _ ?x) => by destruct x
      end. }
  clear Hs2.
  assert (parameters (heap e2) !! sharded_param s2
          = Some {| data := Dist d; requires_grad := requires_grad param |}) as Hpar2.
  { rewrite Hobj, Hs12. done. }
  apply bind_inv in Hrun as (s3 & e3 & Hs3 & Hrun).
  rewrite (init_extensions_run _ _ _ _ Hpar2) in Hs3. simpl in Hs3.
  injection Hrun as <- <-.
  case_bool_decide as Hflags; [done|].
  destruct (t_has_pre (_local_tensor d)) eqn:Hhas.
  - case_bool_decide as Hshape; [done|].
    injection Hs3 as <- <-. rewrite Hs12 in Hpar2 |- *. simpl in *.
    do 5 (split; [done|]). exists d. by rewrite Hhas.
  - injection Hs3 as <- <-. rewrite Hs12 in Hpar2 |- *. simpl in *.
    do 5 (split; [done|]). exists d. by rewrite Hhas.
Qed.

(** X14: what a freshly constructed parameter answers.  It is [SHARDED];
    [unsharded_param] fails the state contract; [to_unsharded] raises
    [AttributeError] for [_unsharded_param], which no one has assigned;
    [free_unsharded_param] and [alloc_all_gather_outputs] return and do
    nothing, there being no buffers; without the extension hooks
    [all_gather_inputs] raises [AttributeError] for [param_dtype] (set
    only by [init_dtype_attrs]) and [init_unsharded_param] fails its
    assertion that there is exactly one all-gather output; with the hooks
    [init_unsharded_param] raises [AttributeError] for [param_dtype].
    None of these calls changes the parameter or the heap. *)
Theorem constructed_parameter_needs_initialisation `{Externals}
    (param : nn_Parameter) (mi : ParamModuleInfo) (info : FSDPMeshInfo)
    (pf : option FSDPMeshInfo) (dev : Device) (mp : MixedPrecisionPolicy)
    (e e' : Env) (s : FSDPParam) :
  __init__ param mi info pf dev mp e = (inr s, e') →
  let w := {| self := s; env := e' |} in
  sharded_state s = SHARDED
  ∧ unsharded_param w
    = (inl (AssertionError (ExpectsStates [UNSHARDED] SHARDED)), w)
  ∧ to_unsharded w = (inl (AttributeError "_unsharded_param"), w)
  ∧ free_unsharded_param w = (inr tt, w)
  ∧ alloc_all_gather_outputs w = (inr tt, w)
  ∧ (t_has_pre (local_of (data param)) = false →
     all_gather_inputs w = (inl (AttributeError "param_dtype"), w)
     ∧ init_unsharded_param w
       = (inl (AssertionError (AssertFailed "len(self.all_gather_outputs) == 1")),
          w))
  ∧ (t_has_pre (local_of (data param)) = true →
     init_unsharded_param w = (inl (AttributeError "param_dtype"), w)).
Proof.
  intros Hrun w. subst w.
  pose proof (init_unset _ _ _ _ _ _ _ _ _ Hrun)
    as (Hod & Hpd & _ & _ & _ & d & Hpar & (_ & _ & Hpre & Hpost) & Hext).
  apply init_inv in Hrun
    as (_ & Hhooks & n & trailing & rows & d' & _ & _ & _ & _ & _ & _ & _ & _ & _
        & Hst & Hago & Hinner & Hup).
  assert (_sharded_local_tensor s e' = (inr (_local_tensor d), e')) as Hloc
    by (by apply (sharded_local_tensor_run s e' d (requires_grad param))).
  split; [done|]. split.
  { unfold unsharded_param. rewrite bind_run.
    rewrite assert_in_states_fail; cbn [self]; [by rewrite Hst|].
    rewrite Hst. intros Hin. apply list_elem_of_singleton in Hin. done. }
  split.
  { unfold to_unsharded. rewrite bind_run. simpl. by rewrite Hup. }
  split.
  { unfold free_unsharded_param. rewrite bind_run. simpl.
    by rewrite Hago, Hinner, lift_env_run. }
  split.
  { unfold alloc_all_gather_outputs. rewrite bind_run. simpl.
    by rewrite Hago, lift_env_run. }
  split.
  - intros Hnone. rewrite <- Hpre in Hnone. split.
    + unfold all_gather_inputs. rewrite bind_run.
      rewrite assert_in_states_ok by (simpl; rewrite Hst; by left).
      rewrite bind_run. simpl. rewrite Hst. rewrite bind_run, lift_env_run.
      cbn [self env]. rewrite Hloc. simpl. rewrite Hnone. by rewrite Hpd.
    + unfold init_unsharded_param. rewrite bind_run. simpl. rewrite Hup.
      rewrite bind_run, lift_env_run. cbn [self env]. rewrite Hloc. simpl.
      rewrite Hpost, <- Hhooks, <- Hpre, Hnone. simpl.
      by rewrite Hago.
  - intros Hsome. unfold init_unsharded_param. rewrite bind_run. simpl. rewrite Hup.
    rewrite bind_run, lift_env_run. cbn [self env]. rewrite Hloc. simpl.
    rewrite Hpost, <- Hhooks, Hsome. simpl.
    rewrite !bind_run.
    unfold _unflatten_all_gather_outputs at 1. rewrite bind_run. simpl.
    rewrite Hext, Hpre, Hsome. simpl. rewrite bind_run. simpl.
    rewrite Hago. simpl. rewrite (bind_run (mret _)). cbn [mret M_ret].
    rewrite (bind_run param_dtype_or_orig).
    unfold param_dtype_or_orig. rewrite bind_run. simpl. by rewrite Hpd.
Qed.

Lemma constructed_parameter_needs_initialisation_witness :
  match small_world 0 with
  | Some w =>
      to_unsharded w = (inl (AttributeError "_unsharded_param"), w)
      ∧ all_gather_inputs (H := toy 0) w = (inl (AttributeError "param_dtype"), w)
  | None => False
  end.
Proof.
  unfold small_world, constructed.
  match goal with
  | |- match match ?r with _ => _ end with _ => _ end =>
      destruct r as [[ex|s] e'] eqn:Hrun; [by vm_compute in Hrun|]
  end.
  destruct (constructed_parameter_needs_initialisation (H := toy 0) _ _ _ _ _ _ _ _ _
              Hrun) as (_ & _ & Hto & _ & _ & Hplain & _).
  split; [exact Hto|]. exact (proj1 (Hplain eq_refl)).
Defined.

(** ** Binding a parameter on the modules *)

Lemma elem_of_bindings info m name :
  (m, name) ∈ bindings info
  ↔ (m = module info ∧ name = param_name info)
    ∨ ∃ k, shared_modules info !! k = Some m
           ∧ shared_param_names info !! k = Some name.
Proof.
  unfold bindings. rewrite elem_of_cons. split.
  - intros [[= -> ->]|Hin]; [by left|right].
    apply list_elem_of_lookup in Hin as [k Hk].
    apply lookup_zip_with_Some in Hk as (m' & name' & [= <- <-] & Hm & Hn).
    eauto.
  - intros [[-> ->]|(k & Hm & Hn)]; [by left|right].
    apply list_elem_of_lookup. exists k.
    apply lookup_zip_with_Some. eauto.
Qed.

(** X15: [_setattr_on_modules] never raises.  Afterwards the parameter
    name of the owning module and every shared name (the shared modules
    zipped with the shared names, so names beyond the shorter list are
    skipped) are bound to the given parameter object; every other
    attribute of every module is bound as before; the modules keep their
    [__setattr__]; storages, parameter objects and the allocator are
    untouched; and one assignment per binding is made, in order, through
    [setattr] for a module with a custom [__setattr__] and into
    [_parameters] otherwise. *)
Theorem setattr_on_modules_binds_exactly (info : ParamModuleInfo) (p : nat)
    (e : Env) :
  ∃ e',
    _setattr_on_modules info p e = (inr tt, e')
    ∧ (∀ m name,
         let rebound :=
           (m = module info ∧ name = param_name info)
           ∨ ∃ k, shared_modules info !! k = Some m
                  ∧ shared_param_names info !! k = Some name in
         (rebound → bound_parameter (heap e') m name = Some p)
         ∧ (¬ rebound →
            bound_parameter (heap e') m name = bound_parameter (heap e) m name))
    ∧ (∀ m, custom_setattr (get_module (heap e') m)
            = custom_setattr (get_module (heap e) m))
    ∧ storages (heap e') = storages (heap e)
    ∧ parameters (heap e') = parameters (heap e)
    ∧ next_id (heap e') = next_id (heap e)
    ∧ log e'
      = log e
        ++ ((λ '(m, name),
               if custom_setattr (get_module (heap e) m)
               then EvSetattr m name p else EvSetParameters m name p)
            <$> (module info, param_name info)
                :: zip (shared_modules info) (shared_param_names info)).
Proof.
  rewrite setattr_on_modules_run. eexists. split; [done|]. simpl.
  destruct (bind_all_frame (bindings info) p (heap e)) as (Hsto & Hpar & Hnext).
  split.
  { intros m name. split; intros Hin.
    - apply bind_all_bound. by apply elem_of_bindings.
    - apply bind_all_unbound. by rewrite elem_of_bindings. }
  split.
  { intros m. clear. generalize (heap e) as h. generalize (bindings info) as bs.
    induction bs as [|[m' name'] bs IH]; intros h; [done|].
    rewrite bind_all_cons. simpl. rewrite IH.
    apply get_module_bind_parameter. }
  split; [done|]. split; [done|]. split; [done|].
  f_equal. unfold bindings. simpl. f_equal.
  apply list_fmap_ext. by intros i [m name] _.
Qed.

(** ** Gradients *)

(** X16: [_get_grad_inner_tensor].  For a parameter that is not a
    [DTensor] the gradient is returned as it is.  For a [DTensor]
    parameter the gradient is first waited for; if it is then not a
    [DTensor] the assertion fails; if none of its placements is partial
    its local tensor is returned without a collective; otherwise it is
    redistributed once, to placements of the same length in which every
    partial placement is replaced by [Replicate] and every other one is
    kept, and the local tensor of the result is returned (or the error
    of the collective). *)
Theorem grad_inner_tensor_reduces_partials `{Autograd} (s : FSDPParam)
    (grad : Grad) (e : Env) :
  (is_dtensor s = false → _get_grad_inner_tensor s grad e = (inr grad, e))
  ∧ (is_dtensor s = true →
     match waited grad with
     | Plain _ =>
         _get_grad_inner_tensor s grad e
         = (inl (AssertionError (AssertFailed "isinstance(grad, DTensor)")), e)
     | Dist d =>
         let old := placements (_spec d) in
         if decide (Partial ∈ old) then
           (∃ replaced,
              length replaced = length old
              ∧ (Partial ∉ replaced)
              ∧ (∀ k pl, old !! k = Some pl →
                   replaced !! k
                   = Some (if decide (pl = Partial) then Replicate else pl))
              ∧ _get_grad_inner_tensor s grad e
                = match redistribute d replaced (heap e) with
                  | (inr d', h') =>
                      (inr (GradValue (Plain (_local_tensor d'))),
                       {| heap := h'; log := log e |})
                  | (inl ex, h') => (inl ex, {| heap := h'; log := log e |})
                  end)
         else
           _get_grad_inner_tensor s grad e
           = (inr (GradValue (Plain (_local_tensor d))), e)
     end).
Proof.
  split; intros Hdt; unfold _get_grad_inner_tensor; rewrite Hdt; [done|].
  assert (match grad with GradAsync r => GradValue r | GradValue _ => grad end
          = GradValue (waited grad)) as -> by (by destruct grad).
  destruct (waited grad) as [t|d]; [done|]. simpl.
  assert (existsb is_partial (placements (_spec d))
          = bool_decide (Partial ∈ placements (_spec d))) as ->.
  { induction (placements (_spec d)) as [|pl pls IH].
    - by rewrite bool_decide_false by (by intros ?%elem_of_nil).
    - cbn [existsb]. rewrite IH. destruct pl; cbn [is_partial orb].
      + apply bool_decide_ext. rewrite elem_of_cons.
        split; [by right|by intros [?|?]].
      + apply bool_decide_ext. rewrite elem_of_cons.
        split; [by right|by intros [?|?]].
      + symmetry. apply bool_decide_eq_true. by left. }
  case_decide as Hin.
  - rewrite bool_decide_true by done.
    exists ((λ pl, if is_partial pl then Replicate else pl)
              <$> placements (_spec d)).
    split; [apply length_fmap|]. split.
    { intros Hp. apply list_elem_of_fmap in Hp as (pl & Hpl & _).
      destruct pl; simpl in Hpl; done. }
    split.
    { intros k pl Hk. rewrite list_lookup_fmap, Hk. simpl. by destruct pl. }
    rewrite bind_run, lift_heap_run.
    by destruct (redistribute _ _ _) as [[ex|d'] h'].
  - rewrite bool_decide_false by done. by rewrite bind_run.
Qed.

Lemma grad_inner_tensor_reduces_partials_witness :
  match dtensor_world with
  | Some w =>
      _get_grad_inner_tensor (H := toy_autograd) (self w) partial_grad (env w)
      = (inr (GradValue (Plain (tensor_on 0 [4; 2] float16 cuda0 false false))),
         env w)
  | None => False
  end.
Proof.
  example_world w.
  match goal with
  | |- _ ?s ?g ?e = _ =>
      pose proof (proj2 (grad_inner_tensor_reduces_partials (H := toy_autograd)
                           s g e) eq_refl) as Hw
  end.
  cbn [waited partial_grad] in Hw. cbn zeta in Hw.
  rewrite decide_True in Hw by (apply (bool_decide_unpack _); by vm_compute).
  destruct Hw as (replaced & _ & _ & _ & ->). done.
Defined.

(** X17: [unsharded_grad_data] first reads [unsharded_param], so outside
    the [UNSHARDED] state it fails the state contract and changes nothing;
    in that state, a parameter whose gradient is [None] fails the
    assertion "Expects unsharded_param.grad to not be None", and otherwise
    the result is that of [_get_grad_inner_tensor] on the gradient. *)
Theorem unsharded_grad_data_contract `{Autograd} (w : World) :
  (sharded_state (self w) ≠ UNSHARDED →
   unsharded_grad_data w
   = (inl (AssertionError (ExpectsStates [UNSHARDED] (sharded_state (self w)))), w))
  ∧ (sharded_state (self w) = UNSHARDED →
     ∀ p, _unsharded_param (self w) = Some p →
       match grad_of (heap (env w)) p with
       | None =>
           unsharded_grad_data w
           = (inl (AssertionError
                     (AssertFailed "Expects unsharded_param.grad to not be None")),
              w)
       | Some grad =>
           unsharded_grad_data w
           = ((_get_grad_inner_tensor (self w) grad (env w)).1,
              {| self := self w;
                 env := (_get_grad_inner_tensor (self w) grad (env w)).2 |})
       end).
Proof.
  split.
  - intros Hst. unfold unsharded_grad_data, unsharded_param.
    rewrite !bind_run. rewrite assert_in_states_fail; [done|].
    intros Hin. apply list_elem_of_singleton in Hin. done.
  - intros Hst p Hp. destruct w as [s e]. cbn [self env] in *.
    unfold unsharded_grad_data, unsharded_param.
    rewrite !bind_run. rewrite assert_in_states_ok by (simpl; rewrite Hst; by left).
    rewrite !bind_run. cbn [gets self fst snd]. rewrite Hp. cbn [getattr mret M_ret].
    destruct (grad_of (heap e) p) as [grad|] eqn:Hgrad;
      rewrite (bind_run (gets self)); cbn [gets];
      rewrite (bind_run (lift_env (gets heap))), lift_env_run;
      cbn [gets self env fst snd heap]; rewrite Hgrad; [|done].
    by rewrite lift_env_run.
Qed.

Lemma unsharded_grad_data_contract_witness :
  match unsharded_world 0 with
  | Some w =>
      unsharded_grad_data (H := toy_autograd) w = (inr partial_grad, w)
  | None => False
  end.
Proof.
  example_world w.
  match goal with
  | |- _ ?w = _ =>
      pose proof (proj2 (unsharded_grad_data_contract (H := toy_autograd) w)
                    eq_refl _ eq_refl) as Hw
  end.
  cbn [grad_of toy_autograd] in Hw. rewrite Hw. done.
Defined.

(** ** Element positions of a contiguous tensor *)

Lemma bind_seq_blocks m n :
  (seq 0 n ≫= λ i, seq (i * m) m) = seq 0 (n * m).
Proof.
  induction n as [|n IH]; [done|].
  rewrite seq_S, bind_app, IH. simpl. rewrite app_nil_r.
  rewrite <- seq_app. f_equal. lia.
Qed.

Lemma fmap_list_bind {A B C} (f : B → C) (g : A → list B) (l : list A) :
  f <$> (l ≫= g) = l ≫= λ x, f <$> g x.
Proof.
  induction l as [|x l IH]; [done|].
  rewrite !bind_cons, fmap_app. by rewrite IH.
Qed.

Lemma contiguous_offsets size :
  (λ idx, sum_list (zip_with Nat.mul idx (make_contiguous_strides_for size)))
    <$> indices size
  = seq 0 (numel size).
Proof.
  induction size as [|n size IH]; [done|].
  cbn [indices make_contiguous_strides_for]. rewrite numel_cons.
  rewrite fmap_list_bind.
  destruct (decide (numel size = 0)) as [Hz|Hnz].
  - rewrite Hz, Nat.mul_0_r. simpl.
    assert (indices size = []) as ->.
    { apply length_zero_iff_nil. by rewrite length_indices. }
    by induction (seq 0 n).
  - rewrite numel_max_1 by done. rewrite <- bind_seq_blocks.
    apply list_bind_ext; [|done]. intros i.
    rewrite <- list_fmap_compose.
    assert (seq (i * numel size) (numel size)
            = Nat.add (i * numel size) <$> seq 0 (numel size)) as ->
      by (rewrite fmap_add_seq; f_equal; lia).
    rewrite <- IH, <- list_fmap_compose.
    apply list_fmap_ext. intros k idx _. simpl. lia.
Qed.

(** ** Writing and reading a contiguous block *)

Lemma write_block isz (vs : list (list byte)) :
  Forall (λ v, length v = isz) vs →
  ∀ a pre rest,
    length pre = a * isz → length vs * isz ≤ length rest →
    foldl (λ bytes '(pos, v), write_elem isz pos v bytes) (pre ++ rest)
      (zip (seq a (length vs)) vs)
    = pre ++ concat vs ++ drop (length vs * isz) rest.
Proof.
  induction 1 as [|v vs Hv Hvs IH]; intros a pre rest Hpre Hrest.
  { simpl. by rewrite drop_0. }
  simpl in *. unfold write_elem at 2.
  rewrite decide_True by (rewrite length_app; lia).
  rewrite take_app_length' by done.
  rewrite drop_app_ge by lia.
  replace ((a + 1) * isz - length pre) with isz by lia.
  rewrite resize_all_alt by done.
  rewrite (app_assoc pre v).
  rewrite (IH (S a) (pre ++ v) (drop isz rest)).
  - by rewrite <- !app_assoc, drop_drop.
  - rewrite length_app. lia.
  - rewrite length_drop. lia.
Qed.

Lemma read_block isz (vs : list (list byte)) tail k v :
  Forall (λ v, length v = isz) vs → vs !! k = Some v →
  read_elem (concat vs ++ tail) isz k = v.
Proof.
  intros Hvs. revert k. induction Hvs as [|v' vs Hv' Hvs IH]; intros k Hk.
  { by rewrite lookup_nil in Hk. }
  unfold read_elem in *. destruct k as [|k]; simpl in *.
  - injection Hk as ->. rewrite drop_0, <- app_assoc.
    rewrite resize_app_le by lia. by apply resize_all_alt.
  - rewrite <- app_assoc, drop_app_ge by lia.
    replace (isz + k * isz - length v') with (k * isz) by lia.
    by apply IH.
Qed.

Lemma tensor_elems_length h t :
  Forall (λ v, length v = itemsize (t_dtype t)) (tensor_elems h t).
Proof.
  unfold tensor_elems. apply Forall_fmap, Forall_forall. intros idx _.
  apply length_read_elem.
Qed.

Lemma tensor_elems_contiguous h (t : Tensor) :
  t_offset t = 0 → t_stride t = make_contiguous_strides_for (t_size t) →
  tensor_elems h t
  = (λ k, read_elem (storage_bytes h (t_storage t)) (itemsize (t_dtype t)) k)
      <$> seq 0 (numel (t_size t)).
Proof.
  intros Hoff Hstr. unfold tensor_elems, elem_offset. rewrite Hoff, Hstr.
  rewrite <- contiguous_offsets, <- list_fmap_compose.
  by apply list_fmap_ext.
Qed.

Lemma read_back (vs : list (list byte)) isz tail :
  Forall (λ v, length v = isz) vs →
  (λ k, read_elem (concat vs ++ tail) isz k) <$> seq 0 (length vs) = vs.
Proof.
  intros Hvs. apply list_eq. intros k. rewrite list_lookup_fmap.
  destruct (vs !! k) as [v|] eqn:Hk.
  - rewrite lookup_seq_lt by (by eapply lookup_lt_Some). simpl.
    f_equal. by eapply read_block.
  - apply lookup_ge_None in Hk. by rewrite lookup_seq_ge.
Qed.

Lemma foldl_zip_fmap {A B C D} (f : D → C → B → D) (g : A → C) (l : list A)
    (k : list B) (x : D) :
  foldl (λ acc '(a, b), f acc (g a) b) x (zip l k)
  = foldl (λ acc '(c, b), f acc c b) x (zip (g <$> l) k).
Proof.
  revert k x. induction l as [|a l IH]; intros [|b k] x; simpl; try done.
Qed.

Lemma copy_contiguous dst src (e : Env) :
  t_size dst = t_size src → t_dtype dst = t_dtype src →
  t_offset dst = 0 → t_stride dst = make_contiguous_strides_for (t_size dst) →
  numel (t_size dst) * itemsize (t_dtype dst)
  ≤ storage_size (heap e) (t_storage dst) →
  ∃ e',
    copy_ dst src e = (inr tt, e')
    ∧ storage_bytes (heap e') (t_storage dst)
      = concat (tensor_elems (heap e) src)
        ++ drop (numel (t_size dst) * itemsize (t_dtype dst))
             (storage_bytes (heap e) (t_storage dst))
    ∧ tensor_elems (heap e') dst = tensor_elems (heap e) src
    ∧ same_outside [dst] (heap e) (heap e')
    ∧ log e' = log e.
Proof.
  intros Hsize Hdtype Hoff Hstr Hfit. unfold copy_.
  rewrite decide_True by done. rewrite bind_run. simpl.
  eexists. split; [reflexivity|]. simpl.
  set (vs := tensor_elems (heap e) src).
  assert (Forall (λ v, length v = itemsize (t_dtype dst)) vs) as Hvs
    by (rewrite Hdtype; apply tensor_elems_length).
  assert (length vs = numel (t_size dst)) as Hlen.
  { unfold vs, tensor_elems. by rewrite length_fmap, length_indices, Hsize. }
  assert (foldl (λ bytes '(idx, v),
                   write_elem (itemsize (t_dtype dst)) (elem_offset dst idx) v bytes)
                (storage_bytes (heap e) (t_storage dst))
                (zip (indices (t_size dst)) vs)
          = concat vs ++ drop (numel (t_size dst) * itemsize (t_dtype dst))
                           (storage_bytes (heap e) (t_storage dst))) as Hwrite.
  { rewrite (foldl_zip_fmap
               (λ bytes pos v, write_elem (itemsize (t_dtype dst)) pos v bytes)
               (elem_offset dst)).
    assert (elem_offset dst <$> indices (t_size dst) = seq 0 (length vs)) as ->.
    { rewrite Hlen, <- contiguous_offsets. apply list_fmap_ext.
      intros k idx _. unfold elem_offset. by rewrite Hoff, Hstr. }
    rewrite <- Hlen.
    apply (write_block _ vs Hvs 0 []); [done|].
    rewrite Hlen. exact Hfit. }
  assert (storage_bytes
            (set_storage (t_storage dst)
               (foldl (λ bytes '(idx, v),
                         write_elem (itemsize (t_dtype dst)) (elem_offset dst idx)
                           v bytes)
                      (storage_bytes (heap e) (t_storage dst))
                      (zip (indices (t_size dst)) vs)) (heap e)) (t_storage dst)
          = concat vs ++ drop (numel (t_size dst) * itemsize (t_dtype dst))
                           (storage_bytes (heap e) (t_storage dst))) as Hbytes.
  { unfold storage_bytes at 1. simpl. by rewrite lookup_insert_eq, Hwrite. }
  split; [done|]. split.
  { rewrite tensor_elems_contiguous by done. rewrite Hbytes, <- Hlen.
    by apply read_back. }
  split; [|done]. repeat split; try done.
  intros s Hs. simpl. rewrite lookup_insert_ne; [done|].
  intros <-. apply Hs. by left.
Qed.

(** ** Construction only adds objects *)

Global Instance extends_preorder : PreOrder extends.
Proof.
  split.
  - intros e. by repeat split.
  - intros e1 e2 e3 (Hn1 & Hs1 & Hp1 & Hm1) (Hn2 & Hs2 & Hp2 & Hm2).
    split; [lia|]. split; [|split].
    + intros sid Hsid. rewrite Hs2 by lia. by apply Hs1.
    + intros q Hq. rewrite Hp2 by lia. by apply Hp1.
    + congruence.
Qed.

Lemma extends_emit ev : preserves extends (emit ev).
Proof. intros e. by repeat split. Qed.

Lemma extends_new_storage nbytes : preserves extends (new_storage nbytes).
Proof.
  intros e. unfold new_storage. rewrite !bind_run. simpl.
  split; [simpl; lia|]. split; [|done]. intros sid Hsid. simpl.
  rewrite lookup_insert_ne; [done|lia].
Qed.

Lemma extends_new_zeros t size : preserves extends (new_zeros t size).
Proof.
  unfold new_zeros. apply preserves_bind; [apply _|apply extends_new_storage|].
  intros s. apply preserves_ret. apply _.
Qed.

Lemma chunk_with_empty_extends t chunks :
  preserves extends (_chunk_with_empty t chunks).
Proof.
  unfold _chunk_with_empty.
  apply preserves_bind; [apply _|apply torch_chunk_preserves; apply _|].
  intros cs. destruct (decide _); [|apply preserves_ret; apply _].
  apply preserves_bind; [apply _| |].
  { unfold index. destruct (cs !! 0); [apply preserves_ret|apply preserves_raise];
      apply _. }
  intros c0. apply preserves_bind; [apply _| |].
  { apply preserves_map_m; [apply _|]. intros _. apply extends_new_zeros. }
  intros empties. apply preserves_ret. apply _.
Qed.

Lemma chunk_with_empty_detail t chunks (e e' : Env) cs :
  _chunk_with_empty t chunks e = (inr cs, e') →
  ∃ n trailing st sts,
    t_size t = n :: trailing ∧ t_stride t = st :: sts
    ∧ 0 < chunks ∧ length cs = chunks ∧ extends e e'
    ∧ ∀ k ck, cs !! k = Some ck →
        ∃ rows, padded_chunk_rows n chunks !! k = Some rows
          ∧ (ck = with_view t (t_offset t + k * ceil_div n chunks * st)
                    (rows :: trailing) (t_stride t)
             ∨ (t_size ck = [0] ∧ rows = 0 ∧ 0 < k)).
Proof.
  intros Hrun.
  pose proof (preserves_run extends _ _ _ _ (chunk_with_empty_extends t chunks) Hrun)
    as Hext.
  pose proof (chunk_with_empty_inv _ _ _ _ _ Hrun)
    as (n0 & trailing0 & Hsz0 & HW & Hlen & _ & _).
  unfold _chunk_with_empty in Hrun.
  apply bind_inv in Hrun as (cs0 & e1 & Hchunk & Hrun).
  apply torch_chunk_inv in Hchunk as (n & trailing & st & sts & Hsz & Hst & _ & -> & ->).
  exists n, trailing, st, sts. do 5 (split; [done|]).
  set (views := imap _ (chunk_rows n chunks)) in *.
  assert (length views = length (chunk_rows n chunks)) as Hviews
    by (unfold views; by rewrite length_imap).
  assert (∀ k ck, views !! k = Some ck →
            ∃ rows, chunk_rows n chunks !! k = Some rows
              ∧ ck = with_view t (t_offset t + k * ceil_div n chunks * st)
                       (rows :: trailing) (t_stride t)) as Hview.
  { intros k ck Hk. unfold views in Hk. rewrite list_lookup_imap in Hk.
    destruct (chunk_rows n chunks !! k) as [rows|]; [|done].
    injection Hk as <-. by exists rows. }
  intros k ck Hk.
  destruct (decide (length views < chunks)) as [Hshort|Hfull].
  - apply bind_inv in Hrun as (c0 & e2 & _ & Hrun).
    apply bind_inv in Hrun as (empties & e3 & Hempties & Hrun).
    injection Hrun as <- <-.
    destruct (new_empties_spec c0 (seq 0 (chunks - length views)) e2)
      as (ts & e4 & Hts & Hlts & Hall).
    rewrite Hts in Hempties. injection Hempties as <- <-.
    destruct (decide (k < length views)) as [Hk1|Hk2].
    + rewrite lookup_app_l in Hk by done.
      destruct (Hview k ck Hk) as (rows & Hrows & ->).
      exists rows. split; [|by left].
      unfold padded_chunk_rows. by rewrite lookup_app_l by lia.
    + rewrite lookup_app_r in Hk by lia.
      exists 0. split.
      * unfold padded_chunk_rows. rewrite lookup_app_r by lia.
        apply lookup_replicate. split; [done|].
        apply lookup_lt_Some in Hk. rewrite Hlts, length_seq in Hk. lia.
      * right. split; [|split; [done|]].
        -- rewrite Forall_forall in Hall.
           apply list_elem_of_lookup_2 in Hk. by destruct (Hall _ Hk).
        -- pose proof (length_chunk_rows n chunks HW). lia.
  - injection Hrun as <- <-.
    destruct (Hview k ck Hk) as (rows & Hrows & ->).
    exists rows. split; [|by left].
    unfold padded_chunk_rows. rewrite lookup_app_l; [done|].
    by eapply lookup_lt_Some.
Qed.

(** ** The shard that construction builds *)

Lemma new_zeros_run t size (e : Env) :
  new_zeros t size e
  = (inr (on_storage t (next_id (heap e)) size),
     {| heap := set_storage (next_id (heap e))
                  (replicate (numel size * itemsize (t_dtype t)) x00)
                  (take_id (heap e));
        log := log e ++ [EvNewStorage (next_id (heap e))
                           (numel size * itemsize (t_dtype t))] |}).
Proof. reflexivity. Qed.

Lemma make_contiguous_strides_for_cons n m size :
  make_contiguous_strides_for (n :: size) = make_contiguous_strides_for (m :: size).
Proof. reflexivity. Qed.

Lemma tensor_elems_no_rows h t trailing :
  t_size t = 0 :: trailing → tensor_elems h t = [].
Proof. intros Hsz. unfold tensor_elems. by rewrite Hsz. Qed.

Lemma init_sharded_param_detail `{Externals} mi info pf param dev (e e' : Env) s :
  _init_sharded_param mi info pf param dev e = (inr s, e') →
  let t := local_of (data param) in
  let world := shard_mesh_size info in
  let rank := shard_mesh_rank info in
  ∃ n trailing st sts rows sid,
    let c := ceil_div n world in
    let padded := on_storage t sid (c :: trailing) in
    let local := with_view padded 0 (rows :: trailing) (t_stride padded) in
    let chunk := with_view t (t_offset t + rank * c * st) (rows :: trailing)
                   (t_stride t) in
    t_size t = n :: trailing ∧ t_stride t = st :: sts
    ∧ padded_chunk_rows n world !! rank = Some rows ∧ rows ≤ c
    ∧ next_id (heap e) ≤ sid
    ∧ sharded_param s = S sid
    ∧ next_id (heap e') = S (S sid)
    ∧ sharded_size s = rows :: trailing
    ∧ padded_sharded_param_size s = c :: trailing
    ∧ _sharded_param_data s = with_view padded 0 [numel (c :: trailing)] [1]
    ∧ parameters (heap e') !! S sid
      = Some {| data := Dist (_from_local_no_grad local (_global_mesh s)
                                (_global_placements s) (_global_size s)
                                (_global_stride s));
                requires_grad := requires_grad param |}
    ∧ (∀ q, q < next_id (heap e) →
         parameters (heap e') !! q = parameters (heap e) !! q)
    ∧ (∀ sid', sid' < next_id (heap e) →
         storages (heap e') !! sid' = storages (heap e) !! sid')
    ∧ (∀ m name, (m, name) ∈ bindings mi →
         bound_parameter (heap e') m name = Some (S sid))
    ∧ (∀ m name, (m, name) ∉ bindings mi →
         bound_parameter (heap e') m name = bound_parameter (heap e) m name)
    ∧ (t_storage t < next_id (heap e) →
       storage_bytes (heap e') sid
       = concat (tensor_elems (heap e) chunk)
         ++ replicate ((c - rows) * numel trailing * itemsize (t_dtype t)) x00).
Proof.
  intros Hrun t world rank. unfold _init_sharded_param in Hrun.
  apply bind_inv in Hrun as ([] & e0 & Hdev & Hrun).
  assert (e0 = e) as ->.
  { destruct (_ && _); [done|]. by injection Hdev. }
  clear Hdev.
  apply bind_inv in Hrun as ([[[tp gm] gp] pd] & e1 & Hpl & Hrun).
  assert (e1 = e ∧ pd = t) as [-> ->].
  { destruct (data param) as [t'|d].
    - by injection Hpl as <- <- <- <- <-.
    - apply bind_inv in Hpl as ([gm' gp'] & e2 & Hdp & Hpl).
      apply unchanged_run in Hdp as ->; [|apply dtensor_placements_unchanged].
      by injection Hpl as <- <- <- <- <-. }
  clear Hpl.
  apply bind_inv in Hrun as (chunks & e1 & Hchunks & Hrun).
  apply chunk_with_empty_detail in Hchunks
    as (n & trailing & st & sts & Hsz & Hst & HW & Hlen & Hext & Hchunk).
  fold world in HW, Hlen, Hchunk.
  apply bind_inv in Hrun as (chunk & e2 & Hidx & Hrun).
  unfold index in Hidx. fold rank in Hidx.
  destruct (chunks !! rank) as [chunk'|] eqn:Hr; [|done].
  injection Hidx as <- <-.
  apply bind_inv in Hrun as (chunk0 & e2 & Hidx & Hrun).
  unfold index in Hidx.
  destruct (chunks !! 0) as [chunk0'|] eqn:H0; [|done].
  injection Hidx as <- <-.
  destruct (Hchunk _ _ Hr) as (rows & Hrows & Hck).
  destruct (Hchunk _ _ H0) as (rows0 & Hrows0 & Hck0).
  rewrite lookup_padded_chunk_rows in Hrows0 by done.
  rewrite Nat.mul_0_l, Nat.sub_0_r in Hrows0.
  assert (rows0 = ceil_div n world) as ->.
  { injection Hrows0 as <-.
    destruct (decide (n = 0)) as [->|Hn]; [by rewrite ceil_div_zero|].
    pose proof (ceil_div_tight n world HW ltac:(lia)). nia. }
  pose proof (min_chunk_rows _ _ _ _ Hrows) as Hle.
  assert (t_size chunk0' = ceil_div n world :: trailing) as Hsize0.
  { destruct Hck0 as [->|(_ & _ & ?)]; [done|lia]. }
  rewrite Hsize0 in Hrun.
  rewrite (bind_inr _ _ _ _ _ (new_zeros_run _ _ _)) in Hrun.
  set (c := ceil_div n world) in *.
  set (sid := next_id (heap e1)) in *.
  set (padded := on_storage t sid (c :: trailing)) in *.
  set (isz := itemsize (t_dtype t)) in *.
  set (e3 := {| heap := set_storage sid _ _; log := _ |}) in Hrun.
  set (chunk := with_view t (t_offset t + rank * c * st) (rows :: trailing)
                  (t_stride t)).
  destruct Hext as (Hnext1 & Hsto1 & Hpar1 & Hmod1).
  assert (size0 chunk' e3 = (inr rows, e3)
          ∧ (0 < numel (t_size chunk') → chunk' = chunk)
          ∧ (¬ 0 < numel (t_size chunk') → rows * numel trailing = 0))
    as (Hsize0' & Hview & Hnone).
  { destruct Hck as [->|(Hz & -> & _)].
    - split; [done|]. split; [done|]. simpl. lia.
    - unfold size0, index. rewrite Hz. split; [done|].
      split; [simpl; lia|done]. }
  apply bind_inv in Hrun as ([] & e4 & Hcopy & Hrun).
  assert ((t_storage t < next_id (heap e) →
           storage_bytes (heap e4) sid
           = concat (tensor_elems (heap e) chunk)
             ++ replicate ((c - rows) * numel trailing * isz) x00)
          ∧ (∀ sid', sid' ≠ sid → storages (heap e4) !! sid' = storages (heap e3) !! sid')
          ∧ parameters (heap e4) = parameters (heap e3)
          ∧ modules (heap e4) = modules (heap e3)
          ∧ next_id (heap e4) = next_id (heap e3)) as (Hbytes & Hsto4 & Hpar4 & Hmod4 & Hnext4).
  { destruct (decide (0 < numel (t_size chunk'))) as [Hpos|Hzero].
    - rewrite (Hview Hpos) in *. clear Hview Hnone.
      apply bind_inv in Hcopy as (rows' & e5 & Hrows' & Hcopy).
      rewrite Hsize0' in Hrows'. injection Hrows' as <- <-.
      apply bind_inv in Hcopy as (dst & e5 & Hdst & Hcopy).
      unfold slice0 in Hdst. simpl in Hdst. injection Hdst as <- <-.
      rewrite Nat.min_l in Hcopy by done.
      destruct (copy_contiguous
                  (with_view padded 0 (rows :: trailing) (t_stride padded)) chunk e3)
        as (e5 & Hrun5 & Hb5 & _ & (Hp5 & Hm5 & Hn5 & Hs5) & _); try done.
      { simpl. unfold storage_size, storage_bytes. simpl.
        rewrite lookup_insert_eq. simpl. rewrite length_replicate.
        fold isz. apply Nat.mul_le_mono_r. by apply Nat.mul_le_mono_r. }
      change (numel (Nat.max 1 <$> trailing) :: make_contiguous_strides_for trailing)
        with (t_stride padded) in Hcopy.
      rewrite Hrun5 in Hcopy. injection Hcopy as <-.
      split; [|split; [|done]].
      + intros Hold. simpl in Hb5. rewrite Hb5. f_equal.
        * f_equal. apply tensor_elems_ext. unfold storage_bytes.
          change (t_storage chunk) with (t_storage t). simpl.
          rewrite lookup_insert_ne by (subst sid; clear -Hold Hnext1; lia).
          by rewrite Hsto1 by (clear -Hold; lia).
        * unfold storage_bytes. simpl. rewrite lookup_insert_eq. simpl.
          rewrite drop_replicate. f_equal. fold isz.
          by rewrite !Nat.mul_sub_distr_r.
      + intros sid' Hne. apply Hs5. simpl. intros Hin.
        apply list_elem_of_singleton in Hin. done.
    - injection Hcopy as <-. split; [intros Hold|done].
      specialize (Hnone Hzero).
      assert (tensor_elems (heap e) chunk = []) as ->.
      { apply length_zero_iff_nil. unfold tensor_elems.
        rewrite length_fmap, length_indices. simpl. lia. }
      unfold storage_bytes. simpl. rewrite lookup_insert_eq. simpl.
      f_equal. fold isz.
      rewrite !Nat.mul_sub_distr_r, Hnone. simpl. by rewrite Nat.sub_0_r. }
  clear Hcopy.
  apply bind_inv in Hrun as (flat & e5 & Hflat & Hrun).
  assert (flat = with_view padded 0 [numel (c :: trailing)] [1] ∧ e5 = e4)
    as [-> ->].
  { rewrite view_flat_case in Hflat. unfold flat_view in Hflat.
    change (t_stride padded)
      with (make_contiguous_strides_for (t_size padded)) in Hflat.
    rewrite compute_stride_flat in Hflat.
    cbn [mbind option_bind] in Hflat. by injection Hflat as <- <-. }
  clear Hflat.
  apply bind_inv in Hrun as (rows' & e5 & Hrows' & Hrun).
  assert (rows' = rows ∧ e5 = e4) as [-> ->].
  { destruct Hck as [->|(Hz & -> & _)].
    - by injection Hrows' as <- <-.
    - unfold size0, index in Hrows'. rewrite Hz in Hrows'.
      by injection Hrows' as <- <-. }
  clear Hrows'.
  apply bind_inv in Hrun as (loc & e5 & Hloc & Hrun).
  unfold slice0 in Hloc. simpl in Hloc. injection Hloc as <- <-.
  rewrite Nat.min_l in Hrun by done.
  change (numel (Nat.max 1 <$> trailing) :: make_contiguous_strides_for trailing)
    with (t_stride padded) in Hrun.
  set (local := with_view padded 0 (rows :: trailing) (t_stride padded)) in *.
  apply bind_inv in Hrun as (dtensor & e5 & Hdt & Hrun).
  unfold to_sharded_dtensor in Hdt.
  apply bind_inv in Hdt as ([] & e6 & Hcheck & Hdt).
  match type of Hcheck with
  | context [bool_decide ?P] => destruct (bool_decide P) eqn:Hshape
  end; [done|].
  apply bool_decide_eq_false in Hshape. apply dec_stable in Hshape.
  simpl in Hshape. injection Hcheck as <-. injection Hdt as <- <-.
  rewrite bind_run, Parameter_new_case in Hrun.
  match type of Hrun with
  | context [is_floating_point ?dt] => destruct (is_floating_point dt) eqn:Hfp
  end; [|done].
  simpl in Hrun.
  rewrite bind_run in Hrun.
  erewrite requires_grad__run in Hrun;
    [|simpl; apply lookup_insert_eq|exact Hfp].
  simpl in Hrun.
  rewrite bind_run, setattr_on_modules_run in Hrun. simpl in Hrun.
  injection Hrun as <- <-.
  assert (next_id (heap e4) = S sid) as Hn4 by (by rewrite Hnext4).
  exists n, trailing, st, sts, rows, sid. cbn zeta.
  fold c padded local chunk isz.
  set (h5 := set_parameter _ _ (set_parameter _ _ _)).
  destruct (bind_all_frame (bindings mi) (S sid) h5)
    as (Hsto6 & Hpar6 & Hnext6).
  split; [done|]. split; [done|]. split; [done|]. split; [done|].
  split; [done|]. simpl. rewrite ?Hn4.
  split; [done|]. split; [by rewrite Hnext6; simpl; rewrite Hn4|].
  split; [by rewrite <- Hshape|]. split; [done|]. split; [done|].
  split.
  { rewrite Hpar6. simpl. rewrite Hn4. apply lookup_insert_eq. }
  split.
  { intros q Hq. rewrite Hpar6. simpl. rewrite Hn4.
    rewrite lookup_insert_ne by (subst sid; clear -Hq Hnext1; lia).
    rewrite lookup_insert_ne by (subst sid; clear -Hq Hnext1; lia).
    rewrite Hpar4. simpl. by apply Hpar1. }
  split.
  { intros sid' Hsid'. rewrite Hsto6. simpl.
    rewrite Hsto4 by (subst sid; clear -Hsid' Hnext1; lia). simpl.
    rewrite lookup_insert_ne by (subst sid; clear -Hsid' Hnext1; lia).
    by apply Hsto1. }
  split; [intros m name Hin; by apply bind_all_bound|].
  split.
  { intros m name Hnin. rewrite bind_all_unbound by done.
    unfold bound_parameter, get_module. simpl. by rewrite Hmod4, <- Hmod1. }
  intros Hold. specialize (Hbytes Hold).
  unfold storage_bytes in *. rewrite Hsto6. simpl. exact Hbytes.
Qed.

(** ** What construction leaves in the heap *)

Lemma init_post_forward_metadata_extends s param (e e' : Env) s' :
  _init_sharded_post_forward_param_metadata s param e = (inr s', e') →
  extends e e'.
Proof.
  intros Hrun. unfold _init_sharded_post_forward_param_metadata in Hrun.
  apply bind_inv in Hrun as (info & e1 & Hinfo & Hrun).
  apply unchanged_run in Hinfo as ->; [|unchanged_tac].
  apply bind_inv in Hrun as (chunks & e1 & Hchunks & Hrun).
  apply (preserves_run extends) in Hchunks;
    [|apply chunk_with_empty_extends].
  apply bind_inv in Hrun as (chunk & e2 & Hidx & Hrun).
  apply unchanged_run in Hidx as ->; [|unchanged_tac].
  by injection Hrun as <- <-.
Qed.

Lemma init_detail `{Externals} param mi info pf dev mp (e e' : Env) s :
  __init__ param mi info pf dev mp e = (inr s, e') →
  let t := local_of (data param) in
  let world := shard_mesh_size info in
  let rank := shard_mesh_rank info in
  ∃ n trailing st sts rows sid,
    let c := ceil_div n world in
    let padded := on_storage t sid (c :: trailing) in
    let local := with_view padded 0 (rows :: trailing) (t_stride padded) in
    let chunk := with_view t (t_offset t + rank * c * st) (rows :: trailing)
                   (t_stride t) in
    t_size t = n :: trailing ∧ t_stride t = st :: sts
    ∧ padded_chunk_rows n world !! rank = Some rows ∧ rows ≤ c
    ∧ next_id (heap e) ≤ sid
    ∧ sharded_param s = S sid
    ∧ S (S sid) ≤ next_id (heap e')
    ∧ sharded_size s = rows :: trailing
    ∧ padded_sharded_param_size s = c :: trailing
    ∧ _sharded_param_data s = with_view padded 0 [numel (c :: trailing)] [1]
    ∧ parameters (heap e') !! S sid
      = Some {| data := Dist (_from_local_no_grad local (_global_mesh s)
                                (_global_placements s) (_global_size s)
                                (_global_stride s));
                requires_grad := requires_grad param |}
    ∧ (∀ q, q < next_id (heap e) →
         parameters (heap e') !! q = parameters (heap e) !! q)
    ∧ (∀ sid', sid' < next_id (heap e) →
         storages (heap e') !! sid' = storages (heap e) !! sid')
    ∧ (∀ m name, (m, name) ∈ bindings mi →
         bound_parameter (heap e') m name = Some (S sid))
    ∧ (∀ m name, (m, name) ∉ bindings mi →
         bound_parameter (heap e') m name = bound_parameter (heap e) m name)
    ∧ (t_storage t < next_id (heap e) →
       storage_bytes (heap e') sid
       = concat (tensor_elems (heap e) chunk)
         ++ replicate ((c - rows) * numel trailing * itemsize (t_dtype t)) x00).
Proof.
  intros Hrun t world rank. unfold __init__ in Hrun.
  apply bind_inv in Hrun as (s1 & e1 & Hs1 & Hrun).
  apply init_sharded_param_detail in Hs1
    as (n & trailing & st & sts & rows & sid & Hsz & Hst & Hrows & Hle & Hfresh
        & Hsp & Hnext & Hss & Hpad & Hflat & Hpar & Hpars & Hstos & Hbound
        & Hunbound & Hbytes).
  apply bind_inv in Hrun as (s2 & e2 & Hs2 & Hrun).
  assert (extends e1 e2
          ∧ sharded_param s2 = sharded_param s1
          ∧ sharded_size s2 = sharded_size s1
          ∧ padded_sharded_param_size s2 = padded_sharded_param_size s1
          ∧ _sharded_param_data s2 = _sharded_param_data s1
          ∧ _global_mesh s2 = _global_mesh s1
          ∧ _global_placements s2 = _global_placements s1
          ∧ _global_size s2 = _global_size s1
          ∧ _global_stride s2 = _global_stride s1)
    as (Hext & Hsp2 & Hss2 & Hpad2 & Hflat2 & Hgm & Hgp & Hgs & Hgst).
  { destruct (post_forward_mesh_info s1).
    - pose proof (init_post_forward_metadata_extends _ _ _ _ _ Hs2) as Hext.
      apply init_post_forward_metadata_inv in Hs2 as (_ & size & ->). done.
    - injection Hs2 as <- <-. done. }
  clear Hs2. destruct Hext as (Hnext2 & Hsto2 & Hpar2 & Hmod2).
  assert (parameters (heap e2) !! sharded_param s2
          = Some {| data := Dist (_from_local_no_grad
                        (with_view (on_storage t sid (ceil_div n world :: trailing)) 0
                           (rows :: trailing)
                           (t_stride (on_storage t sid (ceil_div n world :: trailing))))
                        (_global_mesh s1) (_global_placements s1)
                        (_global_size s1) (_global_stride s1));
                    requires_grad := requires_grad param |}) as Hpar'.
  { rewrite Hsp2, Hsp, Hpar2 by lia. exact Hpar. }
  apply bind_inv in Hrun as (s3 & e3 & Hs3 & Hrun).
  rewrite (init_extensions_run _ _ _ _ Hpar') in Hs3. cbn zeta in Hs3.
  injection Hrun as <- <-.
  assert (e3 = e2
          ∧ sharded_param s3 = sharded_param s2
          ∧ sharded_size s3 = sharded_size s2
          ∧ padded_sharded_param_size s3 = padded_sharded_param_size s2
          ∧ _sharded_param_data s3 = _sharded_param_data s2
          ∧ _global_mesh s3 = _global_mesh s2
          ∧ _global_placements s3 = _global_placements s2
          ∧ _global_size s3 = _global_size s2
          ∧ _global_stride s3 = _global_stride s2)
    as (-> & Hsp3 & Hss3 & Hpad3 & Hflat3 & Hgm3 & Hgp3 & Hgs3 & Hgst3).
  { repeat case_match; try done; by injection Hs3 as <- <-. }
  clear Hs3.
  exists n, trailing, st, sts, rows, sid. cbn zeta. cbn [sharded_param
    sharded_size padded_sharded_param_size _sharded_param_data _global_mesh
    _global_placements _global_size _global_stride set_param_fqn
    set_all_gather_outputs].
  rewrite Hsp3, Hsp2, Hss3, Hss2, Hpad3, Hpad2, Hflat3, Hflat2,
    Hgm3, Hgm, Hgp3, Hgp, Hgs3, Hgs, Hgst3, Hgst.
  split; [done|]. split; [done|]. split; [done|]. split; [done|].
  split; [done|]. split; [done|]. split; [lia|].
  split; [done|]. split; [done|]. split; [done|].
  split; [rewrite Hpar2 by lia; exact Hpar|].
  split; [intros q Hq; rewrite Hpar2 by lia; by apply Hpars|].
  split; [intros q Hq; rewrite Hsto2 by lia; by apply Hstos|].
  split.
  { intros m name Hin. unfold bound_parameter, get_module. rewrite Hmod2.
    by apply Hbound. }
  split.
  { intros m name Hin. unfold bound_parameter, get_module. rewrite Hmod2.
    by apply Hunbound. }
  intros Hold. unfold storage_bytes. rewrite Hsto2 by lia.
  by apply Hbytes.
Qed.

Lemma concat_replicate_replicate {A} k m (x : A) :
  concat (replicate k (replicate m x)) = replicate (k * m) x.
Proof.
  induction k as [|k IH]; [done|]. simpl. by rewrite IH, replicate_add.
Qed.

Lemma take_tensor_elems_flat h (padded : Tensor) rows c trailing :
  t_offset padded = 0 → rows ≤ c →
  tensor_elems h (with_view padded 0 (rows :: trailing)
                    (make_contiguous_strides_for (c :: trailing)))
  = take (numel (rows :: trailing))
      (tensor_elems h (with_view padded 0 [numel (c :: trailing)] [1])).
Proof.
  intros Hoff Hle.
  rewrite !tensor_elems_contiguous by done.
  cbn [t_size t_storage t_dtype with_view].
  rewrite <- fmap_take, take_seq. do 2 f_equal.
  rewrite !numel_cons. change (numel []) with 1. nia.
Qed.

(** X18: a construction that returns has made the sharded parameter a new
    parameter object: its identifier was not allocated before, it holds a
    [DTensor] with the parameter's global mesh, placements, size and
    stride whose local tensor has the sharded size, and it has the
    [requires_grad] of the original.  It is bound under the owning
    module's name and every shared name; every other attribute of every
    module is bound as before, and the parameter objects and storages
    that existed before are unchanged (the original's storage
    included). *)
Theorem construction_registers_shard `{Externals} param mi info pf dev mp
    (e e' : Env) s :
  __init__ param mi info pf dev mp e = (inr s, e') →
  next_id (heap e) ≤ sharded_param s < next_id (heap e')
  ∧ (∃ d, parameters (heap e') !! sharded_param s
          = Some {| data := Dist d; requires_grad := requires_grad param |}
          ∧ t_size (_local_tensor d) = sharded_size s
          ∧ dt_size d = _global_size s
          ∧ dt_stride d = _global_stride s
          ∧ _spec d = {| spec_mesh := _global_mesh s;
                         placements := _global_placements s |})
  ∧ (∀ m name, (m, name) ∈ bindings mi →
       bound_parameter (heap e') m name = Some (sharded_param s))
  ∧ (∀ m name, (m, name) ∉ bindings mi →
       bound_parameter (heap e') m name = bound_parameter (heap e) m name)
  ∧ (∀ q, q < next_id (heap e) →
       parameters (heap e') !! q = parameters (heap e) !! q)
  ∧ (∀ sid, sid < next_id (heap e) →
       storages (heap e') !! sid = storages (heap e) !! sid).
Proof.
  intros Hrun.
  apply init_detail in Hrun
    as (n & trailing & st & sts & rows & sid & Hsz & Hst & Hrows & Hle & Hfresh
        & Hsp & Hnext & Hss & Hpad & Hflat & Hpar & Hpars & Hstos & Hbound
        & Hunbound & _).
  rewrite Hsp. split; [lia|].
  split; [eexists; split; [exact Hpar|]; by rewrite Hss|].
  done.
Qed.

Lemma construction_registers_shard_witness :
  match construct (toy 0) (tensor_on 0 [10; 4] float16 cuda0 false false) 3 2 with
  | (inr s, e') =>
      sharded_param s = 101
      ∧ bound_parameter (heap e') 5 "weight" = Some 101
      ∧ bound_parameter (heap e') 6 "w" = Some 101
      ∧ bound_parameter (heap e') 6 "weight" = None
      ∧ storages (heap e') !! 0 = Some (bytes_upto 80)
  | (inl _, _) => False
  end.
Proof.
  unfold construct.
  match goal with
  | |- match ?r with _ => _ end =>
      destruct r as [[ex|s] e'] eqn:Hrun; [by vm_compute in Hrun|]
  end.
  match type of Hrun with
  | __init__ ?param ?mi ?info ?pf ?dev ?mp ?e = _ =>
      destruct (construction_registers_shard (H := toy 0) param mi info pf dev
                  mp e e' s Hrun)
        as (_ & _ & Hbound & Hunbound & _ & Hstos)
  end.
  assert (sharded_param s = 101) as Hsp.
  { vm_compute in Hrun. by injection Hrun as <- _. }
  rewrite Hsp in Hbound. split; [done|].
  split; [apply Hbound; apply (bool_decide_unpack _); by vm_compute|].
  split; [apply Hbound; apply (bool_decide_unpack _); by vm_compute|].
  split.
  - rewrite Hunbound; [done|]. apply (bool_decide_unpack _). by vm_compute.
  - rewrite Hstos by (simpl; lia). done.
Defined.

(** X19: after construction, the flat shard data [_sharded_param_data]
    and the local tensor of the sharded parameter are views of one
    storage, which was not allocated before; the flat data has the number
    of elements of the padded sharded size, and in every heap the
    elements of the local tensor are the first [numel sharded_size]
    elements of the flat data: what is written through one is read
    through the other. *)
Theorem sharded_param_data_aliases_shard `{Externals} param mi info pf dev mp
    (e e' : Env) s :
  __init__ param mi info pf dev mp e = (inr s, e') →
  ∃ d, parameters (heap e') !! sharded_param s
       = Some {| data := Dist d; requires_grad := requires_grad param |}
       ∧ t_storage (_sharded_param_data s) = t_storage (_local_tensor d)
       ∧ next_id (heap e) ≤ t_storage (_local_tensor d)
       ∧ t_size (_sharded_param_data s) = [numel (padded_sharded_param_size s)]
       ∧ ∀ h, tensor_elems h (_local_tensor d)
              = take (numel (sharded_size s))
                  (tensor_elems h (_sharded_param_data s)).
Proof.
  intros Hrun.
  apply init_detail in Hrun
    as (n & trailing & st & sts & rows & sid & Hsz & Hst & Hrows & Hle & Hfresh
        & Hsp & Hnext & Hss & Hpad & Hflat & Hpar & Hpars & Hstos & Hbound
        & Hunbound & Hbytes).
  rewrite Hsp, Hflat, Hss, Hpad.
  eexists. split; [exact Hpar|]. cbn [_local_tensor _from_local_no_grad].
  split; [done|]. split; [done|]. split; [done|].
  intros h. by apply take_tensor_elems_flat.
Qed.

Lemma sharded_param_data_aliases_shard_witness :
  match construct (toy 0) (tensor_on 0 [10; 4] float16 cuda0 false false) 3 2 with
  | (inr s, e') =>
      ∃ d, parameters (heap e') !! sharded_param s
           = Some {| data := Dist d; requires_grad := true |}
           ∧ t_storage (_local_tensor d) = 100
           ∧ t_size (_sharded_param_data s) = [16]
           ∧ t_size (_local_tensor d) = [2; 4]
           ∧ ∀ h, tensor_elems h (_local_tensor d)
                  = take 8 (tensor_elems h (_sharded_param_data s))
  | (inl _, _) => False
  end.
Proof.
  unfold construct.
  match goal with
  | |- match ?r with _ => _ end =>
      destruct r as [[ex|s] e'] eqn:Hrun; [by vm_compute in Hrun|]
  end.
  match type of Hrun with
  | __init__ ?param ?mi ?info ?pf ?dev ?mp ?e = _ =>
      destruct (sharded_param_data_aliases_shard (H := toy 0) param mi info pf
                  dev mp e e' s Hrun)
        as (d & Hpar & Hsto & _ & Hsize & Helems)
  end.
  vm_compute in Hrun. injection Hrun as <- <-.
  exists d. split; [exact Hpar|].
  vm_compute in Hpar. injection Hpar as <-.
  split; [done|]. split; [done|]. split; [done|]. exact Helems.
Defined.

(** X20: construction copies this rank's rows.  For a parameter of size
    [n :: trailing] with first stride [st] whose storage exists, the
    elements of the sharded parameter's local tensor after construction
    are the elements that the original had before in the rows starting
    at [rank * ceil_div n world], [rows] of them, where [rows] is this
    rank's entry of the padded chunk sizes; and the flat shard data holds
    these elements followed by zero elements up to the padded size. *)
Theorem shard_holds_rank_rows `{Externals} param mi info pf dev mp
    (e e' : Env) s n trailing st sts :
  let t := local_of (data param) in
  let c := ceil_div n (shard_mesh_size info) in
  __init__ param mi info pf dev mp e = (inr s, e') →
  t_storage t < next_id (heap e) →
  t_size t = n :: trailing → t_stride t = st :: sts →
  ∃ d rows,
    let rows_of_rank :=
      with_view t (t_offset t + shard_mesh_rank info * c * st)
        (rows :: trailing) (t_stride t) in
    parameters (heap e') !! sharded_param s
    = Some {| data := Dist d; requires_grad := requires_grad param |}
    ∧ padded_chunk_rows n (shard_mesh_size info) !! shard_mesh_rank info
      = Some rows
    ∧ tensor_elems (heap e') (_local_tensor d)
      = tensor_elems (heap e) rows_of_rank
    ∧ tensor_elems (heap e') (_sharded_param_data s)
      = tensor_elems (heap e) rows_of_rank
        ++ replicate ((c - rows) * numel trailing)
             (replicate (itemsize (t_dtype t)) x00).
Proof.
  intros t c Hrun Hold Hsize Hstride.
  apply init_detail in Hrun
    as (n' & trailing' & st' & sts' & rows & sid & Hsz & Hst & Hrows & Hle
        & Hfresh & Hsp & Hnext & Hss & Hpad & Hflat & Hpar & Hpars & Hstos
        & Hbound & Hunbound & Hbytes).
  fold t in Hsz, Hst, Hpar, Hflat, Hbytes.
  rewrite Hsize in Hsz. injection Hsz as <- <-.
  rewrite Hstride in Hst. injection Hst as <- <-.
  fold c in Hle, Hpad, Hflat, Hpar, Hbytes.
  specialize (Hbytes Hold).
  set (chunk := with_view t _ _ _) in *.
  set (vs := tensor_elems (heap e) chunk) in *.
  set (isz := itemsize (t_dtype t)) in *.
  set (zeros := replicate ((c - rows) * numel trailing) (replicate isz x00)).
  assert (Forall (λ v, length v = isz) (vs ++ zeros)) as Hvs.
  { apply Forall_app. split; [apply (tensor_elems_length _ chunk)|].
    apply Forall_replicate. apply length_replicate. }
  assert (length (vs ++ zeros) = numel (c :: trailing)) as Hlen.
  { rewrite length_app. unfold vs, zeros, tensor_elems.
    rewrite length_fmap, length_indices, length_replicate.
    cbn [t_size chunk with_view]. rewrite !numel_cons.
    rewrite Nat.mul_sub_distr_r.
    pose proof (Nat.mul_le_mono_r _ _ (numel trailing) Hle). lia. }
  assert (tensor_elems (heap e') (_sharded_param_data s) = vs ++ zeros) as Hall.
  { rewrite Hflat, tensor_elems_contiguous by done.
    cbn [t_size t_storage t_dtype with_view on_storage]. fold isz.
    rewrite Hbytes, <- concat_replicate_replicate.
    fold zeros. rewrite <- concat_app, <- (app_nil_r (concat _)).
    rewrite numel_cons, Nat.mul_1_r, <- Hlen.
    by apply read_back. }
  rewrite Hsp. eexists _, rows. cbn zeta. fold chunk vs.
  split; [exact Hpar|]. split; [done|]. split; [|done].
  cbn [_local_tensor _from_local_no_grad].
  etrans; [by apply take_tensor_elems_flat|].
  rewrite <- Hflat, Hall.
  rewrite take_app_length'; [done|].
  unfold vs, tensor_elems. by rewrite length_fmap, length_indices.
Qed.

Lemma shard_holds_rank_rows_witness :
  match construct (toy 0) (tensor_on 0 [10; 4] float16 cuda0 false false) 3 2 with
  | (inr s, e') =>
      ∃ d, parameters (heap e') !! sharded_param s
           = Some {| data := Dist d; requires_grad := true |}
           ∧ concat (tensor_elems (heap e') (_local_tensor d))
             = drop 64 (bytes_upto 80)
           ∧ concat (tensor_elems (heap e') (_sharded_param_data s))
             = drop 64 (bytes_upto 80) ++ replicate 16 x00
  | (inl _, _) => False
  end.
Proof.
  unfold construct.
  match goal with
  | |- match ?r with _ => _ end =>
      destruct r as [[ex|s] e'] eqn:Hrun; [by vm_compute in Hrun|]
  end.
  match type of Hrun with
  | __init__ ?param ?mi ?info ?pf ?dev ?mp ?e = _ =>
      destruct (shard_holds_rank_rows (H := toy 0) param mi info pf dev mp e e'
                  s 10 [4] 4 [1] Hrun ltac:(simpl; lia) eq_refl eq_refl)
        as (d & rows & Hpar & Hrows & Hlocal & Hflat)
  end.
  vm_compute in Hrows. injection Hrows as <-.
  exists d. split; [exact Hpar|].
  rewrite Hlocal, Hflat. split; by vm_compute.
Defined.
